(** * Japanese-to-Korean transliteration engine

    A shallow embedding of the transliteration library that the dashboard
    imports as [@/lib/transliterate]: the Hangul jamo composition utilities,
    the static dictionaries, and the three-stage driver [transliterate].

    JavaScript strings are sequences of UTF-16 code units; they are modelled
    as lists of integers.  The repository's string literals are kept as they
    are written in the source and converted with [utf16].

    The engine is followed by the functions of the dashboard page and of the
    upload page that call it or exchange CSV files: [translateContent],
    [translateStatus], the cell quoting of [downloadCSV] and the line reader
    of [parseCSV]. *)

From Stdlib Require Import String Ascii.
From Stdlib Require Import List ZArith Bool Lia Arith Sorted Permutation.
Import ListNotations.

Open Scope string_scope.
Open Scope list_scope.
Open Scope Z_scope.

(** ** Strings as UTF-16 code units *)

Abbreviation str := (list Z) (only parsing).

Module Utf.

(** Decoder for the UTF-8 bytes of a literal: [need] continuation bytes are
    still expected and [acc] holds the bits read so far. *)
Fixpoint points (need : nat) (acc : Z) (bs : list Z) : list Z :=
  match bs with
  | [] => []
  | b :: bs' =>
      match need with
      | S k =>
          let acc' := acc * 64 + b mod 64 in
          match k with
          | O => acc' :: points O 0 bs'
          | _ => points k acc' bs'
          end
      | O =>
          if b <? 128 then b :: points O 0 bs'
          else if b <? 224 then points 1 (b mod 32) bs'
          else if b <? 240 then points 2 (b mod 16) bs'
          else points 3 (b mod 8) bs'
      end
  end.

(** A code point as one code unit, or as a surrogate pair above the BMP. *)
Definition units (cp : Z) : list Z :=
  if cp <? 65536 then [cp]
  else [55296 + (cp - 65536) / 1024; 56320 + (cp - 65536) mod 1024].

Definition bytes (s : string) : list Z :=
  map (fun a => Z.of_N (N_of_ascii a)) (list_ascii_of_string s).

End Utf.

Definition utf16 (s : string) : str :=
  flat_map Utf.units (Utf.points O 0 (Utf.bytes s)).

Definition utf16_pairs (l : list (string * string)) : list (str * str) :=
  map (fun kv => (utf16 (fst kv), utf16 (snd kv))) l.

(** ** The JavaScript string operations the module uses *)

Module JS.

Definition str_eqb (a b : str) : bool :=
  if list_eq_dec Z.eq_dec a b then true else false.

(** [s[i]]: a one-unit string, or [None] for [undefined]. *)
Definition get (s : str) (i : nat) : option str :=
  option_map (fun c => [c]) (nth_error s i).

(** Truthiness of a string-or-undefined value. *)
Definition truthy (v : option str) : bool :=
  match v with
  | Some (_ :: _) => true
  | _ => false
  end.

Fixpoint starts_with (pat s : str) : bool :=
  match pat, s with
  | [], _ => true
  | _ :: _, [] => false
  | p :: pat', c :: s' => (p =? c) && starts_with pat' s'
  end.

Fixpoint indexOf_from (pat s : str) (pos : Z) : Z :=
  match s with
  | [] => if starts_with pat [] then pos else -1
  | _ :: s' => if starts_with pat s then pos else indexOf_from pat s' (pos + 1)
  end.

(** [s.indexOf(pat)] *)
Definition indexOf (s pat : str) : Z := indexOf_from pat s 0.

(** [s.includes(pat)] *)
Definition includes (s pat : str) : bool := 0 <=? indexOf s pat.

(** [s.substring(a, b)] for [a <= b] (the only use in the module). *)
Definition substring (s : str) (a b : nat) : str :=
  firstn (b - a) (skipn a s).

(** [s.charCodeAt(0)]; [None] stands for [NaN]. *)
Definition charCodeAt0 (s : str) : option Z := nth_error s 0.

(** [String.fromCharCode(code)] *)
Definition fromCharCode (code : Z) : str := [code mod 65536].

(** Left-to-right scan of [replaceAll] for a non-empty pattern: [skip]
    counts the units of the current match that are still to be dropped. *)
Fixpoint replace_scan (pat rep : str) (skip : nat) (s : str) : str :=
  match s with
  | [] => []
  | c :: s' =>
      match skip with
      | S k => replace_scan pat rep k s'
      | O =>
          if starts_with pat s
          then rep ++ replace_scan pat rep (length pat - 1) s'
          else c :: replace_scan pat rep O s'
      end
  end.

(** [s.replaceAll(pat, rep)] with a string pattern and a replacement that
    holds no [$] (see [WORD_MAP_values_plain]).  The empty pattern matches
    before every unit and at the end. *)
Definition replaceAll (s pat rep : str) : str :=
  match pat with
  | [] => rep ++ flat_map (fun c => c :: rep) s
  | _ :: _ => replace_scan pat rep O s
  end.

(** Lookup of [obj[key]] in an object literal given as its list of
    properties; a later duplicate overrides an earlier one.  The module
    only looks up dictionary keys and one-unit strings, and no property
    inherited from [Object.prototype] has such a name. *)
Fixpoint prop (obj : list (str * str)) (key : str) : option str :=
  match obj with
  | [] => None
  | (k, v) :: obj' =>
      match prop obj' key with
      | Some v' => Some v'
      | None => if str_eqb k key then Some v else None
      end
  end.

(** Stable insertion of [x] into a list ordered by [lt]: [x] goes after
    every element it does not strictly precede. *)
Fixpoint insert_stable {A} (lt : A -> A -> bool) (x : A) (l : list A) : list A :=
  match l with
  | [] => [x]
  | y :: l' => if lt x y then x :: l else y :: insert_stable lt x l'
  end.

(** [arr.sort(cmp)], a stable sort; [lt a b] is [cmp(a, b) < 0]. *)
Definition sort {A} (lt : A -> A -> bool) (l : list A) : list A :=
  fold_left (fun acc x => insert_stable lt x acc) l [].

(** [v && p(v)]: the value when it is truthy and passes [p]. *)
Definition when (v : option str) (p : str -> bool) : option str :=
  match v with
  | Some s => if truthy v && p s then Some s else None
  | None => None
  end.

(** [ToString(v)] of a string-or-undefined value. *)
Definition to_string (v : option str) : str :=
  match v with
  | Some s => s
  | None => utf16 "undefined"
  end.

(** [Object.keys(obj)]: the property names in order of first insertion. *)
Fixpoint keys_from (seen : list str) (obj : list (str * str)) : list str :=
  match obj with
  | [] => []
  | (k, _) :: obj' =>
      if existsb (str_eqb k) seen then keys_from seen obj'
      else k :: keys_from (k :: seen) obj'
  end.

Definition keys (obj : list (str * str)) : list str := keys_from [] obj.

(** A [while] loop run for at most [fuel] iterations.  [step s] is [None]
    when the loop condition fails in state [s], and otherwise the state
    after one execution of the body. *)
Fixpoint while {S : Type} (fuel : nat) (step : S -> option S) (s : S)
    : option S :=
  match fuel with
  | O => None
  | Datatypes.S n =>
      match step s with
      | None => Some s
      | Some s' => while n step s'
      end
  end.

End JS.

(** ** Hangul jamo composition utilities *)

Definition HANGUL_BASE : Z := 44032.   (* 0xAC00 *)
Definition INITIAL_COUNT : Z := 19.
Definition MEDIAL_COUNT : Z := 21.
Definition FINAL_COUNT : Z := 28.

Definition INITIALS : str := Eval vm_compute in
  utf16 "ㄱㄲㄴㄷㄸㄹㅁㅂㅃㅅㅆㅇㅈㅉㅊㅋㅌㅍㅎ".
Definition MEDIALS : str := Eval vm_compute in
  utf16 "ㅏㅐㅑㅒㅓㅔㅕㅖㅗㅘㅙㅚㅛㅜㅝㅞㅟㅠㅡㅢㅣ".
Definition FINALS : str := Eval vm_compute in
  0 :: utf16 "ㄱㄲㄳㄴㄵㄶㄷㄹㄺㄻㄼㄽㄾㄿㅀㅁㅂㅄㅅㅆㅇㅈㅊㅋㅌㅍㅎ".

Definition isInitial (char : str) : bool := JS.includes INITIALS char.

Definition isMedial (char : str) : bool := JS.includes MEDIALS char.

Definition isFinal (char : str) : bool :=
  negb (JS.str_eqb char [0]) && JS.includes FINALS char.

Definition isHangulSyllable (char : str) : bool :=
  match JS.charCodeAt0 char with
  | Some code => (HANGUL_BASE <=? code) && (code <=? HANGUL_BASE + 11171)
  | None => false
  end.

(** The object returned by [decomposeHangul]; a field is [None] when the
    source's indexing yields [undefined]. *)
Record Jamo := mkJamo {
  initial : option str;
  medial : option str;
  final : option str
}.

Definition decomposeHangul (char : str) : option Jamo :=
  match JS.charCodeAt0 char with
  | None =>
      (* NaN: both comparisons are false and every index is NaN *)
      Some (mkJamo None None None)
  | Some code =>
      if (code <? HANGUL_BASE) || (HANGUL_BASE + 11171 <? code) then None
      else
        let syllableIndex := code - HANGUL_BASE in
        let initialIndex := syllableIndex / (MEDIAL_COUNT * FINAL_COUNT) in
        let medialIndex :=
          (syllableIndex mod (MEDIAL_COUNT * FINAL_COUNT)) / FINAL_COUNT in
        let finalIndex := syllableIndex mod FINAL_COUNT in
        Some (mkJamo (JS.get INITIALS (Z.to_nat initialIndex))
                     (JS.get MEDIALS (Z.to_nat medialIndex))
                     (if finalIndex =? 0 then Some []
                      else JS.get FINALS (Z.to_nat finalIndex)))
  end.

Definition composeHangulSyllable (initial medial final : str) : str :=
  let initialIndex := JS.indexOf INITIALS initial in
  let medialIndex := JS.indexOf MEDIALS medial in
  let finalIndex :=
    if JS.str_eqb final [] then 0 else JS.indexOf FINALS final in
  if (initialIndex <? 0) || (medialIndex <? 0) || (finalIndex <? 0)
  then initial ++ medial ++ final
  else
    let code :=
      HANGUL_BASE + (initialIndex * MEDIAL_COUNT + medialIndex) * FINAL_COUNT
      + finalIndex in
    JS.fromCharCode code.

Definition push (result : list str) (x : str) : list str := result ++ [x].

(** One iteration of the scan of [composeHangul] from cursor [i].  The loop
    test [i < text.length] holds exactly when [text[i]] is defined.  In the
    batchim branch the decomposed syllable has a defined initial and medial
    whenever its final is the empty string ([decompose_no_final_defined]). *)
Definition composeHangul_step (text : str) (st : nat * list str)
    : option (nat * list str) :=
  let '(i, result) := st in
  match JS.get text i with
  | None => None
  | Some char =>
      Some
        (if isHangulSyllable char then
           match JS.when (JS.get text (i + 1)%nat) isFinal with
           | Some nextChar =>
               match JS.when (JS.get text (i + 2)%nat) isMedial with
               | Some _ => ((i + 1)%nat, push result char)
               | None =>
                   match decomposeHangul char with
                   | Some (mkJamo (Some dinitial) (Some dmedial) (Some [])) =>
                       ((i + 2)%nat,
                        push result
                          (composeHangulSyllable dinitial dmedial nextChar))
                   | _ => ((i + 1)%nat, push result char)
                   end
               end
           | None => ((i + 1)%nat, push result char)
           end
         else if isInitial char then
           match JS.when (JS.get text (i + 1)%nat) isMedial with
           | Some nextChar =>
               match JS.when (JS.get text (i + 2)%nat) isFinal with
               | Some thirdChar =>
                   match JS.when (JS.get text (i + 3)%nat) isMedial with
                   | Some _ =>
                       ((i + 2)%nat,
                        push result (composeHangulSyllable char nextChar []))
                   | None =>
                       ((i + 3)%nat,
                        push result
                          (composeHangulSyllable char nextChar thirdChar))
                   end
               | None =>
                   ((i + 2)%nat,
                    push result (composeHangulSyllable char nextChar []))
               end
           | None => ((i + 1)%nat, push result char)
           end
         else ((i + 1)%nat, push result char))
  end.

Definition composeHangul_fuel (fuel : nat) (text : str) : option str :=
  match text with
  | [] => Some []
  | _ :: _ =>
      option_map (fun st => concat (snd st))
        (JS.while fuel (composeHangul_step text) (O, []))
  end.

(** Every iteration moves the cursor forward, so one more iteration than the
    text has units is enough ([composeHangul_fuel_enough]). *)
Definition composeHangul (text : str) : option str :=
  composeHangul_fuel (S (length text)) text.

(** ** Word dictionary (proper nouns, place names, loanwords) *)

Definition WORD_MAP_literal : list (string * string) :=
  [ ("です！", "입니다!");
    ("です。", "입니다.");
    ("です", EmptyString);
    ("ます！", "합니다!");
    ("ます。", "합니다.");
    ("ます", EmptyString);
    ("の綺麗な", " 깨끗한");
    ("の施設", " 시설");
    ("の", " ");
    ("～", "~");
    ("代々木", "요요기");
    ("代々木競技場", "요요기 경기장");
    ("原宿", "하라주쿠");
    ("原宿駅", "하라주쿠역");
    ("渋谷", "시부야");
    ("渋谷駅", "시부야역");
    ("新宿", "신주쿠");
    ("新宿駅", "신주쿠역");
    ("池袋", "이케부쿠로");
    ("池袋駅", "이케부쿠로역");
    ("銀座", "긴자");
    ("銀座駅", "긴자역");
    ("東京", "도쿄");
    ("東京駅", "도쿄역");
    ("品川", "시나가와");
    ("品川駅", "시나가와역");
    ("目黒", "메구로");
    ("目黒駅", "메구로역");
    ("恵比寿", "에비스");
    ("恵比寿駅", "에비스역");
    ("秋葉原", "아키하바라");
    ("秋葉原駅", "아키하바라역");
    ("上野", "우에노");
    ("上野駅", "우에노역");
    ("浅草", "아사쿠사");
    ("浅草駅", "아사쿠사역");
    ("六本木", "롯폰기");
    ("六本木駅", "롯폰기역");
    ("赤坂", "아카사카");
    ("赤坂駅", "아카사카역");
    ("麻布", "아자부");
    ("麻布十番", "아자부주반");
    ("台場", "다이바");
    ("お台場", "오다이바");
    ("錦糸町", "킨시초");
    ("蒲田", "카마타");
    ("大井町", "오이마치");
    ("五反田", "고탄다");
    ("田町", "다마치");
    ("浜松町", "하마마츠초");
    ("高田馬場", "다카다노바바");
    ("新大久保", "신오쿠보");
    ("中野", "나카노");
    ("荻窪", "오기쿠보");
    ("吉祥寺", "키치조지");
    ("三鷹", "미타카");
    ("調布", "초후");
    ("府中", "후추");
    ("町田", "마치다");
    ("立川", "타치카와");
    ("八王子", "하치오지");
    ("三軒茶屋", "산겐자야");
    ("下北沢", "시모키타자와");
    ("中目黒", "나카메구로");
    ("自由が丘", "지유가오카");
    ("二子玉川", "후타코타마가와");
    ("武蔵小杉", "무사시코스기");
    ("溝の口", "미조노쿠치");
    ("たまプラーザ", "타마프라자");
    ("日吉", "히요시");
    ("菊名", "키쿠나");
    ("綱島", "츠나시마");
    ("大倉山", "오쿠라야마");
    ("白楽", "하쿠라쿠");
    ("横浜", "요코하마");
    ("横浜駅", "요코하마역");
    ("川崎", "카와사키");
    ("川崎駅", "카와사키역");
    ("鶴見", "츠루미");
    ("戸塚", "토츠카");
    ("藤沢", "후지사와");
    ("大船", "오후나");
    ("鎌倉", "카마쿠라");
    ("江ノ島", "에노시마");
    ("茅ヶ崎", "치가사키");
    ("平塚", "히라츠카");
    ("小田原", "오다와라");
    ("厚木", "아츠기");
    ("海老名", "에비나");
    ("相模大野", "사가미오노");
    ("橋本", "하시모토");
    ("落合", "오치아이");
    ("落合南長崎", "오치아이 미나미나가사키");
    ("落合南長崎駅", "오치아이 미나미나가사키역");
    ("南長崎", "미나미나가사키");
    ("日本橋", "니혼바시");
    ("水道橋", "스이도바시");
    ("飯田橋", "이이다바시");
    ("神楽坂", "카구라자카");
    ("後楽園", "코라쿠엔");
    ("巣鴨", "스가모");
    ("駒込", "코마고메");
    ("西日暮里", "니시닛포리");
    ("日暮里", "닛포리");
    ("北千住", "키타센주");
    ("南千住", "미나미센주");
    ("亀戸", "카메이도");
    ("両国", "료고쿠");
    ("門前仲町", "몬젠나카초");
    ("豊洲", "토요스");
    ("有明", "아리아케");
    ("新木場", "신키바");
    ("葛西", "카사이");
    ("西葛西", "니시카사이");
    ("船橋", "후나바시");
    ("津田沼", "츠다누마");
    ("千葉", "치바");
    ("幕張", "마쿠하리");
    ("海浜幕張", "카이힌마쿠하리");
    ("柏", "카시와");
    ("松戸", "마츠도");
    ("取手", "토리데");
    ("大宮", "오미야");
    ("浦和", "우라와");
    ("川口", "카와구치");
    ("草加", "소카");
    ("越谷", "코시가야");
    ("春日部", "카스카베");
    ("所沢", "토코로자와");
    ("川越", "카와고에");
    ("大阪", "오사카");
    ("大阪駅", "오사카역");
    ("梅田", "우메다");
    ("難波", "난바");
    ("心斎橋", "신사이바시");
    ("天王寺", "텐노지");
    ("京橋", "쿄바시");
    ("新大阪", "신오사카");
    ("淀屋橋", "요도야바시");
    ("本町", "혼마치");
    ("名古屋", "나고야");
    ("京都", "교토");
    ("神戸", "고베");
    ("福岡", "후쿠오카");
    ("札幌", "삿포로");
    ("仙台", "센다이");
    ("広島", "히로시마");
    ("北九州", "키타큐슈");
    ("那覇", "나하");
    ("競技場", "경기장");
    ("体育館", "체육관");
    ("運動場", "운동장");
    ("総合運動場", "종합운동장");
    ("スタジアム", "스타디움");
    ("アリーナ", "아레나");
    ("ドーム", "돔");
    ("センター", "센터");
    ("パーク", "파크");
    ("公園", "공원");
    ("広場", "광장");
    ("駅徒歩", "역 도보");
    ("徒歩", "도보");
    ("分", "분");
    ("秒", "초");
    ("直結", "직결");
    ("駅直結", "역 직결");
    ("出口", "출구");
    ("北口", "북쪽출구");
    ("南口", "남쪽출구");
    ("東口", "동쪽출구");
    ("西口", "서쪽출구");
    ("中央口", "중앙출구");
    ("ボンフィン", "본핀");
    ("フットサル", "풋살");
    ("サッカー", "축구");
    ("スポーツ", "스포츠");
    ("コート", "코트");
    ("アクセス", "접근성");
    ("サービス", "서비스");
    ("ステージ", "스테이지");
    ("カテゴリー", "카테고리");
    ("エンジョイ", "엔조이");
    ("ミックス", "믹스");
    ("キャンペーン", "캠페인");
    ("コサル", "개인풋살");
    ("アスタ", "아스타");
    ("ビギナー", "비기너");
    ("レベル", "레벨");
    ("インドア", "인도어");
    ("アウトドア", "아웃도어");
    ("アクセス抜群", "접근성 최고");
    ("綺麗な施設", "깨끗한 시설");
    ("個人参加", "개인참가");
    ("屋内コート", "실내 코트");
    ("完全室内", "완전 실내");
    ("初心者歓迎", "초보자 환영");
    ("経験者向け", "유경험자 대상");
    ("朝イチ", "아침 첫 타임");
    ("個サル", "개인풋살");
    ("屋外", "야외");
    ("屋上", "옥상");
    ("室内", "실내");
    ("屋内", "실내");
    ("初心者", "초보자");
    ("経験者", "경험자");
    ("中級", "중급");
    ("上級", "상급");
    ("初級", "초급");
    ("女性", "여성");
    ("男性", "남성");
    ("中止", "중지");
    ("開催", "개최");
    ("割引", "할인");
    ("募集", "모집");
    ("綺麗", "깨끗한");
    ("抜群", "최고") ].

Definition WORD_MAP : list (str * str) := Eval vm_compute in
  utf16_pairs WORD_MAP_literal.

Definition longer_first (a b : str) : bool :=
  Z.of_nat (length b) - Z.of_nat (length a) <? 0.

Definition WORD_MAP_KEYS : list str := Eval vm_compute in
  JS.sort longer_first (JS.keys WORD_MAP).

(** ** Katakana, hiragana and kanji tables *)

Definition KATAKANA_COMPOUNDS_literal : list (string * string) :=
  [ ("キャン", "캔");
    ("シャー", "샤");
    ("チャー", "차");
    ("キャ", "캬"); ("キュ", "큐"); ("キョ", "쿄");
    ("シャ", "샤"); ("シュ", "슈"); ("ショ", "쇼");
    ("チャ", "차"); ("チュ", "추"); ("チョ", "초");
    ("ニャ", "냐"); ("ニュ", "뉴"); ("ニョ", "뇨");
    ("ヒャ", "햐"); ("ヒュ", "휴"); ("ヒョ", "효");
    ("ミャ", "먀"); ("ミュ", "뮤"); ("ミョ", "묘");
    ("リャ", "랴"); ("リュ", "류"); ("リョ", "료");
    ("ギャ", "갸"); ("ギュ", "규"); ("ギョ", "교");
    ("ジャ", "자"); ("ジュ", "주"); ("ジョ", "조");
    ("ビャ", "뱌"); ("ビュ", "뷰"); ("ビョ", "뵤");
    ("ピャ", "퍄"); ("ピュ", "퓨"); ("ピョ", "표");
    ("イェ", "예");
    ("ウィ", "위"); ("ウェ", "웨"); ("ウォ", "워");
    ("ヴァ", "바"); ("ヴィ", "비"); ("ヴェ", "베"); ("ヴォ", "보");
    ("シェ", "셰"); ("ジェ", "제"); ("チェ", "체");
    ("ティ", "티"); ("ディ", "디"); ("デュ", "듀");
    ("ファ", "파"); ("フィ", "피"); ("フェ", "페"); ("フォ", "포");
    ("ツァ", "차"); ("ツィ", "치"); ("ツェ", "체"); ("ツォ", "초");
    ("ッカ", "까"); ("ッキ", "끼"); ("ック", "끄"); ("ッケ", "께"); ("ッコ", "꼬");
    ("ッサ", "싸"); ("ッシ", "씨"); ("ッス", "쓰"); ("ッセ", "쎄"); ("ッソ", "쏘");
    ("ッタ", "따"); ("ッチ", "찌"); ("ッツ", "쯔"); ("ッテ", "떼"); ("ット", "또");
    ("ッパ", "빠"); ("ッピ", "삐"); ("ップ", "뿌"); ("ッペ", "뻬"); ("ッポ", "뽀") ].

Definition KATAKANA_COMPOUNDS : list (str * str) := Eval vm_compute in
  utf16_pairs KATAKANA_COMPOUNDS_literal.

Definition KATAKANA_SINGLE_literal : list (string * string) :=
  [ ("ア", "아"); ("イ", "이"); ("ウ", "우"); ("エ", "에"); ("オ", "오");
    ("カ", "카"); ("キ", "키"); ("ク", "쿠"); ("ケ", "케"); ("コ", "코");
    ("サ", "사"); ("シ", "시"); ("ス", "스"); ("セ", "세"); ("ソ", "소");
    ("タ", "타"); ("チ", "치"); ("ツ", "츠"); ("テ", "테"); ("ト", "토");
    ("ナ", "나"); ("ニ", "니"); ("ヌ", "누"); ("ネ", "네"); ("ノ", "노");
    ("ハ", "하"); ("ヒ", "히"); ("フ", "후"); ("ヘ", "헤"); ("ホ", "호");
    ("マ", "마"); ("ミ", "미"); ("ム", "무"); ("メ", "메"); ("モ", "모");
    ("ヤ", "야"); ("ユ", "유"); ("ヨ", "요");
    ("ラ", "라"); ("リ", "리"); ("ル", "루"); ("レ", "레"); ("ロ", "로");
    ("ワ", "와"); ("ヲ", "오"); ("ン", "ㄴ");
    ("ガ", "가"); ("ギ", "기"); ("グ", "구"); ("ゲ", "게"); ("ゴ", "고");
    ("ザ", "자"); ("ジ", "지"); ("ズ", "즈"); ("ゼ", "제"); ("ゾ", "조");
    ("ダ", "다"); ("ヂ", "지"); ("ヅ", "즈"); ("デ", "데"); ("ド", "도");
    ("バ", "바"); ("ビ", "비"); ("ブ", "부"); ("ベ", "베"); ("ボ", "보");
    ("パ", "파"); ("ピ", "피"); ("プ", "푸"); ("ペ", "페"); ("ポ", "포");
    ("ヴ", "브");
    ("ー", EmptyString);
    ("ッ", EmptyString) ].

Definition KATAKANA_SINGLE : list (str * str) := Eval vm_compute in
  utf16_pairs KATAKANA_SINGLE_literal.

Definition HIRAGANA_SINGLE_literal : list (string * string) :=
  [ ("あ", "아"); ("い", "이"); ("う", "우"); ("え", "에"); ("お", "오");
    ("か", "카"); ("き", "키"); ("く", "쿠"); ("け", "케"); ("こ", "코");
    ("さ", "사"); ("し", "시"); ("す", "스"); ("せ", "세"); ("そ", "소");
    ("た", "타"); ("ち", "치"); ("つ", "츠"); ("て", "테"); ("と", "토");
    ("な", "나"); ("に", "니"); ("ぬ", "누"); ("ね", "네"); ("の", "노");
    ("は", "하"); ("ひ", "히"); ("ふ", "후"); ("へ", "헤"); ("ほ", "호");
    ("ま", "마"); ("み", "미"); ("む", "무"); ("め", "메"); ("も", "모");
    ("や", "야"); ("ゆ", "유"); ("よ", "요");
    ("ら", "라"); ("り", "리"); ("る", "루"); ("れ", "레"); ("ろ", "로");
    ("わ", "와"); ("を", "오"); ("ん", "ㄴ");
    ("が", "가"); ("ぎ", "기"); ("ぐ", "구"); ("げ", "게"); ("ご", "고");
    ("ざ", "자"); ("じ", "지"); ("ず", "즈"); ("ぜ", "제"); ("ぞ", "조");
    ("だ", "다"); ("ぢ", "지"); ("づ", "즈"); ("で", "데"); ("ど", "도");
    ("ば", "바"); ("び", "비"); ("ぶ", "부"); ("べ", "베"); ("ぼ", "보");
    ("ぱ", "파"); ("ぴ", "피"); ("ぷ", "푸"); ("ぺ", "페"); ("ぽ", "포") ].

Definition HIRAGANA_SINGLE : list (str * str) := Eval vm_compute in
  utf16_pairs HIRAGANA_SINGLE_literal.

Definition KANJI_MAP_literal : list (string * string) :=
  [ ("日", "일"); ("本", "본"); ("橋", "교"); ("中", "중"); ("央", "앙"); ("区", "구"); ("立", "립"); ("総", "총"); ("合", "합"); ("室", "실");
    ("内", "내"); ("浜", "빈"); ("町", "정"); ("駅", "역"); ("分", "분"); ("時", "시"); ("間", "간"); ("個", "개"); ("人", "인"); ("参", "참");
    ("加", "가"); ("都", "도"); ("丁", "정"); ("目", "목"); ("数", "수"); ("不", "부"); ("足", "족"); ("為", "위");
    ("止", "지"); ("横", "횡"); ("神", "신"); ("奈", "나"); ("川", "천"); ("県", "현"); ("市", "시"); ("山", "산"); ("隔", "격"); ("週", "주");
    ("催", "최"); ("経", "경"); ("験", "험"); ("者", "자"); ("向", "향"); ("先", "선"); ("着", "착"); ("割", "할"); ("名", "명");
    ("水", "수"); ("曜", "요"); ("朝", "조"); ("座", "좌"); ("西", "서"); ("田", "전"); ("無", "무"); ("屋", "옥"); ("上", "상");
    ("前", "전"); ("円", "원"); ("引", "인"); ("平", "평"); ("昼", "주"); ("出", "출"); ("完", "완"); ("全", "전"); ("和", "화"); ("光", "광");
    ("成", "성"); ("増", "증"); ("埼", "기"); ("玉", "옥"); ("白", "백"); ("子", "자"); ("老", "노"); ("若", "약"); ("男", "남"); ("女", "여");
    ("誰", "수"); ("楽", "락"); ("健", "건"); ("康", "강"); ("崎", "기"); ("高", "고"); ("津", "진"); ("蟹", "해"); ("谷", "곡"); ("当", "당");
    ("予", "예"); ("約", "약"); ("詳", "상"); ("細", "세"); ("確", "확"); ("認", "인"); ("問", "문"); ("新", "신"); ("宿", "숙"); ("限", "한");
    ("定", "정"); ("利", "이"); ("用", "용"); ("空", "공"); ("電", "전"); ("話", "화"); ("代", "대"); ("木", "목"); ("競", "경"); ("技", "기");
    ("場", "장"); ("原", "원"); ("徒", "도"); ("歩", "보"); ("群", "군"); ("麗", "려"); ("施", "시"); ("設", "설");
    ("渋", "삽"); ("南", "남"); ("国", "국"); ("第", "제"); ("一", "일"); ("体", "체"); ("育", "육"); ("館", "관"); ("落", "낙"); ("長", "장");
    ("大", "대"); ("江", "강"); ("戸", "호"); ("線", "선"); ("結", "결"); ("豊", "풍"); ("島", "도"); ("吉", "길"); ("祥", "상");
    ("寺", "사"); ("海", "해"); ("工", "공"); ("芝", "지"); ("更", "경"); ("衣", "의"); ("備", "비"); ("音", "음"); ("流", "류"); ("武", "무");
    ("蔵", "장"); ("野", "야"); ("錦", "금"); ("糸", "사"); ("階", "계"); ("墨", "묵"); ("活", "활"); ("千", "천"); ("住", "주"); ("緑", "녹");
    ("番", "번"); ("号", "호"); ("級", "급"); ("以", "이"); ("方", "방"); ("冷", "냉"); ("房", "방"); ("陽", "양"); ("砂", "사"); ("期", "기");
    ("宮", "궁"); ("土", "토"); ("面", "면"); ("倒", "도"); ("要", "요"); ("保", "보"); ("試", "시"); ("筑", "축"); ("延", "연"); ("店", "점");
    ("曙", "서"); ("柏", "백"); ("葉", "엽"); ("駒", "구"); ("台", "대"); ("優", "우"); ("連", "연"); ("絡", "락"); ("枠", "틀"); ("船", "선");
    ("鎌", "겸"); ("倉", "창"); ("友", "우"); ("満", "만"); ("員", "원"); ("御", "어"); ("礼", "례"); ("天", "천"); ("下", "하"); ("茶", "다");
    ("阪", "판"); ("府", "부"); ("岸", "안"); ("里", "리"); ("姫", "희"); ("路", "로"); ("兵", "병"); ("庫", "고"); ("八", "팔"); ("家", "가");
    ("越", "월"); ("蒲", "포"); ("生", "생"); ("早", "조"); ("続", "속"); ("北", "북"); ("口", "구"); ("歳", "세"); ("性", "성"); ("湘", "상");
    ("藤", "등"); ("沢", "택"); ("専", "전"); ("初", "초"); ("歓", "환"); ("迎", "영"); ("根", "근"); ("付", "부"); ("回", "회"); ("券", "권");
    ("蘇", "소"); ("我", "아"); ("急", "급"); ("安", "안"); ("心", "심"); ("指", "지"); ("浦", "포"); ("広", "광"); ("尾", "미"); ("放", "방");
    ("年", "년"); ("選", "선"); ("手", "수"); ("教", "교"); ("所", "소"); ("属", "속"); ("得", "득"); ("可", "가"); ("少", "소"); ("厚", "후");
    ("愛", "애"); ("甲", "갑"); ("残", "잔"); ("営", "영"); ("業", "업"); ("終", "종"); ("了", "료"); ("料", "료"); ("古", "고"); ("知", "지");
    ("村", "촌"); ("池", "지"); ("尼", "니"); ("塚", "총"); ("洲", "주"); ("幸", "행"); ("決", "결"); ("型", "형"); ("宇", "우"); ("品", "품");
    ("能", "능"); ("学", "학"); ("対", "대"); ("象", "상"); ("通", "통"); ("常", "상"); ("金", "금"); ("幕", "막"); ("張", "장"); ("花", "화");
    ("見", "견"); ("機", "기"); ("価", "가"); ("格", "격"); ("翼", "익"); ("梅", "매"); ("深", "심"); ("福", "복"); ("術", "술"); ("基", "기");
    ("礎", "초"); ("鬼", "귀"); ("富", "부"); ("士", "사"); ("動", "동"); ("画", "화"); ("撮", "촬"); ("影", "영"); ("月", "월"); ("堺", "계");
    ("美", "미"); ("材", "재"); ("之", "지"); ("泉", "천"); ("春", "춘"); ("部", "부"); ("後", "후"); ("単", "단"); ("発", "발"); ("低", "저");
    ("多", "다"); ("摩", "마"); ("球", "구"); ("倶", "구"); ("河", "하"); ("練", "련"); ("習", "습"); ("会", "회"); ("王", "왕"); ("臼", "구");
    ("板", "판"); ("蓮", "련"); ("外", "외"); ("仙", "선"); ("城", "성"); ("治", "치"); ("槇", "전"); ("清", "청"); ("茨", "자"); ("三", "삼");
    ("丘", "구"); ("吹", "취"); ("駐", "주"); ("車", "차"); ("半", "반"); ("久", "구"); ("宝", "보"); ("龍", "용"); ("華", "화"); ("近", "근");
    ("九", "구"); ("条", "조"); ("此", "차"); ("岡", "강"); ("博", "박"); ("那", "나"); ("珂", "가"); ("小", "소"); ("夜", "야"); ("鶴", "학");
    ("沼", "소"); ("柴", "시"); ("橿", "강"); ("良", "양"); ("地", "지"); ("旭", "욱"); ("殿", "전"); ("周", "주"); ("州", "주"); ("幡", "번");
    ("袖", "수"); ("最", "최"); ("枚", "매"); ("貰", "세"); ("待", "대"); ("登", "등"); ("録", "록"); ("元", "원"); ("道", "도"); ("徹", "철");
    ("底", "저"); ("文", "문"); ("郷", "향"); ("重", "중"); ("視", "시"); ("軽", "경"); ("喫", "끽"); ("煙", "연"); ("超", "초"); ("運", "운");
    ("慣", "관"); ("夢", "몽"); ("曽", "증"); ("霞", "하"); ("倍", "배"); ("六", "육"); ("有", "유"); ("調", "조"); ("布", "포"); ("味", "미");
    ("素", "소"); ("脱", "탈"); ("入", "입"); ("門", "문"); ("火", "화"); ("商", "상"); ("棟", "동"); ("両", "양"); ("進", "진"); ("候", "후");
    ("気", "기"); ("温", "온"); ("左", "좌"); ("右", "우"); ("快", "쾌"); ("適", "적"); ("戦", "전"); ("百", "백"); ("麻", "마"); ("万", "만");
    ("妙", "묘"); ("典", "전"); ("街", "가"); ("同", "동"); ("勝", "승"); ("鴨", "압"); ("居", "거"); ("服", "복"); ("采", "채"); ("担", "담");
    ("太", "태"); ("井", "정"); ("孔", "공"); ("晟", "성"); ("改", "개"); ("札", "찰"); ("蹴", "축"); ("松", "송"); ("森", "삼"); ("遽", "거");
    ("薬", "약"); ("滝", "용"); ("証", "증"); ("港", "항"); ("貨", "화"); ("拡", "확"); ("募", "모"); ("集", "집"); ("雨", "우"); ("推", "추");
    ("奨", "장"); ("制", "제"); ("度", "도"); ("爆", "폭"); ("印", "인"); ("冬", "동"); ("熱", "열"); ("量", "량"); ("取", "취"); ("鹿", "록");
    ("黒", "흑"); ("晴", "청"); ("鴻", "홍"); ("巣", "소"); ("団", "단"); ("赤", "적"); ("坂", "판"); ("茂", "무"); ("関", "관"); ("景", "경");
    ("吾", "오"); ("妻", "처"); ("栃", "회"); ("喜", "희"); ("馬", "마"); ("次", "차"); ("静", "정"); ("駿", "준"); ("丸", "환"); ("厳", "엄");
    ("禁", "금"); ("熊", "웅"); ("主", "주"); ("栄", "영"); ("精", "정"); ("潟", "석"); ("牧", "목"); ("稲", "도"); ("坪", "평"); ("澤", "택");
    ("郡", "군"); ("伏", "복"); ("桃", "도"); ("公", "공"); ("園", "원"); ("現", "현"); ("在", "재"); ("押", "압"); ("須", "수"); ("灘", "탄");
    ("青", "청"); ("臨", "임"); ("岬", "갑"); ("庄", "장"); ("秘", "비"); ("密", "밀"); ("求", "구"); ("編", "편"); ("磨", "마"); ("的", "적");
    ("明", "명"); ("石", "석"); ("貸", "대"); ("切", "절");
    ("京", "경"); ("東", "동") ].

Definition KANJI_MAP : list (str * str) := Eval vm_compute in
  utf16_pairs KANJI_MAP_literal.

(** ** Main transliteration function *)

Inductive Lang := ko | ja.

(** Step 1: the word dictionary, longest key first. *)
Definition apply_key (result key : str) : str :=
  if JS.includes result key
  then JS.replaceAll result key (JS.to_string (JS.prop WORD_MAP key))
  else result.

Definition dictionary_pass (text : str) : str :=
  fold_left apply_key WORD_MAP_KEYS text.

(** The [for ... of KATAKANA_COMPOUNDS] loop at cursor [i]: the first pattern
    that matches, with its replacement. *)
Fixpoint match_compound (table : list (str * str)) (result : str) (i : nat)
    : option (str * str) :=
  match table with
  | [] => None
  | (pattern, hangul) :: table' =>
      let substr := JS.substring result i (i + length pattern)%nat in
      if JS.str_eqb substr pattern then Some (pattern, hangul)
      else match_compound table' result i
  end.

Definition PROLONGED : str := Eval vm_compute in utf16 "ー".

(** Step 2: one iteration of the character-by-character scan. *)
Definition phonetic_step (result : str) (st : nat * str)
    : option (nat * str) :=
  let '(i, transliterated) := st in
  match JS.get result i with
  | None => None
  | Some char =>
      Some
        (match match_compound KATAKANA_COMPOUNDS result i with
         | Some (pattern, hangul) =>
             ((i + length pattern)%nat, transliterated ++ hangul)
         | None =>
             if JS.str_eqb char PROLONGED then ((i + 1)%nat, transliterated)
             else if JS.truthy (JS.prop KATAKANA_SINGLE char) then
               ((i + 1)%nat,
                transliterated ++ JS.to_string (JS.prop KATAKANA_SINGLE char))
             else if JS.truthy (JS.prop HIRAGANA_SINGLE char) then
               ((i + 1)%nat,
                transliterated ++ JS.to_string (JS.prop HIRAGANA_SINGLE char))
             else if JS.truthy (JS.prop KANJI_MAP char) then
               ((i + 1)%nat,
                transliterated ++ JS.to_string (JS.prop KANJI_MAP char))
             else ((i + 1)%nat, transliterated ++ char)
         end)
  end.

Definition phonetic_fuel (fuel : nat) (result : str) : option str :=
  option_map snd (JS.while fuel (phonetic_step result) (O, [])).

Definition phonetic_pass (result : str) : option str :=
  phonetic_fuel (S (length result)) result.

Definition transliterate (text : str) (lang : Lang) : option str :=
  match text with
  | [] => Some []
  | _ :: _ =>
      match lang with
      | ja => Some text
      | ko =>
          let result := dictionary_pass text in
          match phonetic_pass result with
          | Some transliterated => composeHangul transliterated
          | None => None
          end
      end
  end.

(** * The pages that call the engine

    The dashboard page translates event texts with two tables of its own
    before it calls [transliterate], and exports the events as CSV; the
    upload page reads such a file back. *)

(** ** More of the JavaScript library *)

Module JSPage.

(** [Object.entries(obj)] of an object with string values: one pair for
    each property name, in the order of [Object.keys]. *)
Definition entries (obj : list (str * str)) : list (str * str) :=
  map (fun k => (k, JS.to_string (JS.prop obj k))) (JS.keys obj).

(** [arr.join(sep)] of an array of strings. *)
Fixpoint join (arr : list str) (sep : str) : str :=
  match arr with
  | [] => []
  | [x] => x
  | x :: arr' => x ++ sep ++ join arr' sep
  end.

(** White space and line terminators, the units [trim] removes. *)
Definition is_white_space (c : Z) : bool :=
  existsb (Z.eqb c)
    [9; 10; 11; 12; 13; 32; 160; 5760; 8232; 8233; 8239; 8287; 12288; 65279]
  || ((8192 <=? c) && (c <=? 8202)).

Fixpoint trimStart (s : str) : str :=
  match s with
  | [] => []
  | c :: s' => if is_white_space c then trimStart s' else s
  end.

(** [s.trim()] *)
Definition trim (s : str) : str := rev (trimStart (rev (trimStart s))).

(** [s.split(sep)] for a separator of one unit. *)
Fixpoint split (s : str) (sep : Z) : list str :=
  match s with
  | [] => [[]]
  | c :: s' =>
      if c =? sep then [] :: split s' sep
      else match split s' sep with
           | x :: parts => (c :: x) :: parts
           | [] => [[c]]
           end
  end.

End JSPage.

(** The quotation mark, the comma and the line feed. *)
Definition QUOTE : Z := 34.
Definition COMMA : Z := 44.
Definition NEWLINE : Z := 10.

(** ** The dashboard page *)

Module Dashboard.

Definition PREFECTURE_MAP_literal : list (string * string) :=
  [ ("北海道", "홋카이도"); ("青森県", "아오모리현"); ("岩手県", "이와테현"); ("宮城県", "미야기현"); ("秋田県", "아키타현"); ("山形県", "야마가타현"); ("福島県", "후쿠시마현");
    ("茨城県", "이바라키현"); ("栃木県", "도치기현"); ("群馬県", "군마현"); ("埼玉県", "사이타마현"); ("千葉県", "치바현"); ("東京都", "도쿄도"); ("神奈川県", "가나가와현");
    ("新潟県", "니이가타현"); ("富山県", "토야마현"); ("石川県", "이시카와현"); ("福井県", "후쿠이현"); ("山梨県", "야마나시현"); ("長野県", "나가노현"); ("岐阜県", "기후현"); ("静岡県", "시즈오카현"); ("愛知県", "아이치현");
    ("三重県", "미에현"); ("滋賀県", "아가현"); ("京都府", "교토부"); ("大阪府", "오사카부"); ("兵庫県", "효고현"); ("奈良県", "나라현"); ("和歌山県", "와카야마현");
    ("鳥取県", "돗토리현"); ("島根県", "시마네현"); ("岡山県", "오카야마현"); ("広島県", "히로시마현"); ("山口県", "야마구치현");
    ("徳島県", "도쿠시마현"); ("香川県", "카가와현"); ("愛媛県", "에히메현"); ("高知県", "코치현");
    ("福岡県", "후쿠오카현"); ("佐賀県", "사가현"); ("長崎県", "나가사키현"); ("熊本県", "구마모토현"); ("大分県", "오이타현"); ("宮崎県", "미야자키현"); ("鹿児島県", "가고시마현"); ("沖縄県", "오키나와현") ].

Definition KEYWORDS_literal : list (string * string) :=
  [ ("フットサル", "풋살");
    ("スタジアム", "스타디움");
    ("ステージ", "스테이지");
    ("個人参加", "개인참가");
    ("横浜", "요코하마");
    ("新宿", "신주쿠");
    ("日本橋", "니혼바시");
    ("渋谷", "시부야");
    ("池袋", "이케부쿠로");
    ("銀座", "긴자");
    ("西東京", "니시도쿄");
    ("川崎", "카와사키");
    ("アスタ", "아스타");
    ("屋上", "옥상");
    ("室内", "실내");
    ("完全室内", "완전실내");
    ("屋外", "야외");
    ("カテゴリー", "카테고리");
    ("エンジョイ", "엔조이");
    ("ガチ", "진지");
    ("ミックス", "믹스");
    ("初心者", "초심자");
    ("経験者", "경험자");
    ("中級", "중급");
    ("上級", "상급");
    ("初級", "초급");
    ("女性", "여성");
    ("男性", "남성");
    ("中止", "중지");
    ("開催", "개최");
    ("割引", "할인");
    ("キャンペーン", "캠페인");
    ("朝イチ", "아침첫타임");
    ("夜", "밤");
    ("昼", "점심");
    ("個サル", "개인풋살");
    ("コサル", "개인풋살");
    ("募集", "모집");
    ("名", "명") ].

Definition statusMap_literal : list (string * string) :=
  [ ("受付け中", "접수중");
    ("キャンセル待ち", "대기자 모집");
    ("開催中止", "개최취소");
    ("受付け終了", "접수마감");
    ("空いたら通知", "빈자리 알림") ].

Definition PREFECTURE_MAP : list (str * str) :=
  Eval vm_compute in utf16_pairs PREFECTURE_MAP_literal.

Definition KEYWORDS : list (str * str) :=
  Eval vm_compute in utf16_pairs KEYWORDS_literal.

(** [DICT.ko.statusMap] *)
Definition statusMap : list (str * str) :=
  Eval vm_compute in utf16_pairs statusMap_literal.

(** The body of the two [forEach] loops: [mixed = mixed.replaceAll(ja, ko)]. *)
Definition replace_entry (mixed : str) (entry : str * str) : str :=
  JS.replaceAll mixed (fst entry) (snd entry).

(** [Object.entries(table).forEach(...)] with that body. *)
Definition replace_entries (table : list (str * str)) (mixed : str) : str :=
  fold_left replace_entry (JSPage.entries table) mixed.

Definition translateContent (text : str) (lang : Lang) : option str :=
  match lang with
  | ja => Some text
  | ko =>
      let mixed := text in
      let mixed := replace_entries PREFECTURE_MAP mixed in
      let mixed := replace_entries KEYWORDS mixed in
      transliterate mixed ko
  end.

(** The [for ... of] loop returns at the first entry whose key occurs. *)
Definition translateStatus (originalStatus : str) (lang : Lang) : str :=
  match lang with
  | ja => originalStatus
  | ko =>
      match find (fun entry => JS.includes originalStatus (fst entry))
                 (JSPage.entries statusMap) with
      | Some (_, val) => val
      | None => originalStatus
      end
  end.

(** A quoted cell of [downloadCSV]: every quotation mark doubled, the
    whole between quotation marks. *)
Definition csv_quoted (s : str) : str :=
  [QUOTE] ++ JS.replaceAll s [QUOTE] [QUOTE; QUOTE] ++ [QUOTE].

Definition headers : list str :=
  Eval vm_compute in
    map utf16 ["ID"; "Date"; "Time"; "Title"; "Organizer"; "Region"; "Status";
               "Booked"; "Capacity"; "URL"].

(** [csvContent] of [downloadCSV], from the rows as arrays of cells
    already turned into strings. *)
Definition csvContent (rows : list (list str)) : str :=
  JSPage.join
    (JSPage.join headers [COMMA]
     :: map (fun row => JSPage.join row [COMMA]) rows)
    [NEWLINE].

End Dashboard.

(** ** The upload page *)

Module UploadPage.

(** One turn of the loop over the units of a line; the state holds
    [values], [inQuote] and [currentVal]. *)
Definition parseCSV_char (state : list str * bool * str) (char : Z)
    : list str * bool * str :=
  let '(values, inQuote, currentVal) := state in
  if char =? QUOTE then (values, negb inQuote, currentVal)
  else if (char =? COMMA) && negb inQuote then (values ++ [currentVal], inQuote, [])
  else (values, inQuote, currentVal ++ [char]).

(** [values] of one line, after the push that follows the loop. *)
Definition parseCSV_values (line : str) : list str :=
  let '(values, _, currentVal) := fold_left parseCSV_char line ([], false, []) in
  values ++ [currentVal].

(** [v.replace(/^"|"$/g, '')]: a quotation mark at the start is removed,
    and one at the end of what follows. *)
Definition strip_edge_quotes (v : str) : str :=
  let v' := match v with
            | c :: rest => if c =? QUOTE then rest else v
            | [] => []
            end in
  match rev v' with
  | c :: rest => if c =? QUOTE then rev rest else v'
  | [] => []
  end.

(** [cleanValues] of one line. *)
Definition parseCSV_cleanValues (line : str) : list str :=
  map (fun v => JS.replaceAll (strip_edge_quotes (JSPage.trim v))
                              [QUOTE; QUOTE] [QUOTE])
      (parseCSV_values line).

(** [lines]: the lines that are not blank. *)
Definition parseCSV_lines (csvText : str) : list str :=
  filter (fun line => negb (JS.str_eqb (JSPage.trim line) []))
         (JSPage.split csvText NEWLINE).

(** The [cleanValues] of every line after the header line; [None] when
    [parseCSV] returns before reading any. *)
Definition parseCSV_rows (csvText : str) : option (list (list str)) :=
  let lines := parseCSV_lines csvText in
  if (length lines <? 2)%nat then None
  else Some (map parseCSV_cleanValues (tl lines)).

Definition translateContent (text : str) (lang : Lang) : option str :=
  transliterate text lang.

Definition translateStatus (status : str) (lang : Lang) : str :=
  match lang with
  | ko =>
      if JS.includes status (utf16 "受付け") || JS.includes status (utf16 "접수")
      then utf16 "접수중"
      else if JS.includes status (utf16 "キャンセル") || JS.includes status (utf16 "대기")
      then utf16 "대기자 모집"
      else if JS.includes status (utf16 "中止") || JS.includes status (utf16 "취소")
      then utf16 "개최취소"
      else status
  | ja => status
  end.

End UploadPage.

(** ** Vocabulary of the properties *)

(** A scan keeps a cursor and an output buffer.  [relocate i acc] moves
    a result computed on the suffix from cursor [i] back to the whole
    text, after the output [acc] produced so far. *)
Definition relocate {X : Type} (i : nat) (acc : list X)
    (r : option (nat * list X)) : option (nat * list X) :=
  match r with
  | Some (j, out) => Some ((i + j)%nat, acc ++ out)
  | None => None
  end.

(** The final argument that belongs to slot [fi] of [FINALS]: the empty
    string for slot 0, the table entry for the other slots. *)
Definition final_slot (fi : nat) (final : str) : Prop :=
  match fi with
  | O => final = []
  | S _ => exists f, nth_error FINALS fi = Some f /\ final = [f]
  end.

(** The code point of the composition formula. *)
Definition syllable_code (ii mi fi : nat) : Z :=
  HANGUL_BASE + (Z.of_nat ii * 21 + Z.of_nat mi) * 28 + Z.of_nat fi.

(** The character after a candidate final, as the scan tests it. *)
Definition next_is_medial (rest : str) : bool :=
  match rest with
  | [] => false
  | c :: _ => isMedial [c]
  end.

(** Keys that start at or above U+3000, as every key of the tables does. *)
Definition head_above (k : str) : bool :=
  match k with
  | [] => false
  | c :: _ => 12288 <=? c
  end.

Definition keys_above (table : list (str * str)) : bool :=
  forallb (fun kv => head_above (fst kv)) table.

Definition is_ascii_digit (c : Z) : bool := (48 <=? c) && (c <=? 57).

Definition is_latin_punctuation (c : Z) : bool :=
  ((33 <=? c) && (c <=? 47)) || ((58 <=? c) && (c <=? 64))
  || ((91 <=? c) && (c <=? 96)) || ((123 <=? c) && (c <=? 126)).



(** Text that shares no character with the pattern. *)
Definition apart (pat t : str) : Prop := forall c, In c t -> ~ In c pat.

(** Text that is empty or starts with a character foreign to the pattern. *)
Definition head_apart (pat t : str) : Prop :=
  match t with
  | [] => True
  | c :: _ => ~ In c pat
  end.

(** The keys tried before and after [key]. *)
Fixpoint keys_before (key : str) (keys : list str) : list str :=
  match keys with
  | [] => []
  | k :: keys' =>
      if JS.str_eqb k key then [] else k :: keys_before key keys'
  end.




(** Text that shares no character with any dictionary key. *)
Definition key_free (t : str) : bool :=
  forallb
    (fun c => negb (existsb (fun key => existsb (Z.eqb c) key) WORD_MAP_KEYS))
    t.

(** Keys whose first character is Japanese script or a full-width form:
    at or above U+3000 and outside the Hangul syllable block. *)
Definition head_japanese (k : str) : bool :=
  match k with
  | [] => false
  | h :: _ => (12288 <=? h) && ((h <? 44032) || (55203 <? h))
  end.

(** Characters below U+3000 and precomposed Hangul syllables. *)
Definition plain_or_syllable (c : Z) : bool :=
  (c <? 12288) || ((44032 <=? c) && (c <=? 55203)).

(** The outcome of the phonetic scan for one character on which no
    katakana compound starts. *)
Definition phonetic_char (c : Z) : str :=
  if JS.str_eqb [c] PROLONGED then []
  else if JS.truthy (JS.prop KATAKANA_SINGLE [c]) then
    JS.to_string (JS.prop KATAKANA_SINGLE [c])
  else if JS.truthy (JS.prop HIRAGANA_SINGLE [c]) then
    JS.to_string (JS.prop HIRAGANA_SINGLE [c])
  else if JS.truthy (JS.prop KANJI_MAP [c]) then
    JS.to_string (JS.prop KANJI_MAP [c])
  else [c].

(** No katakana compound pattern matches anywhere in the text. *)
Fixpoint no_compound (text : str) : bool :=
  match text with
  | [] => true
  | _ :: rest =>
      match match_compound KATAKANA_COMPOUNDS text 0 with
      | None => no_compound rest
      | Some _ => false
      end
  end.

(** Characters that the phonetic scan rewrites when it meets them alone:
    the prolonged-sound mark and the keys of the single-character tables
    that have a non-empty value. *)
Definition phonetic_mapped (c : Z) : bool :=
  JS.str_eqb [c] PROLONGED
  || JS.truthy (JS.prop KATAKANA_SINGLE [c])
  || JS.truthy (JS.prop HIRAGANA_SINGLE [c])
  || JS.truthy (JS.prop KANJI_MAP [c]).

(** A string with its quotation marks deleted. *)
Definition without_quotes (s : str) : str :=
  filter (fun c => negb (c =? QUOTE)) s.

(** A cell as [downloadCSV] writes it for the value [field]: quoted, or
    written as it is and free of quotation marks and commas. *)
Definition exported_cell (cell field : str) : Prop :=
  cell = Dashboard.csv_quoted field
  \/ (cell = field /\ ~ In QUOTE field /\ ~ In COMMA field).

(** A row as [downloadCSV] writes it for the values [fields]: at least two
    cells, each an exported cell of its field, no line break in a field. *)
Definition exported_row (row fields : list str) : Prop :=
  Forall2 exported_cell row fields
  /\ (2 <= length row)%nat
  /\ Forall (fun field => ~ In NEWLINE field) fields.





(** ** Sample runs *)

Example ga : composeHangulSyllable (utf16 "ㄱ") (utf16 "ㅏ") [] = utf16 "가".
Proof. vm_compute. reflexivity. Qed.

Example gan_parts :
  decomposeHangul (utf16 "간")
  = Some (mkJamo (Some (utf16 "ㄱ")) (Some (utf16 "ㅏ")) (Some (utf16 "ㄴ"))).
Proof. vm_compute. reflexivity. Qed.

Example bonpin : composeHangul (utf16 "보ㄴ피ㄴ") = Some (utf16 "본핀").
Proof. vm_compute. reflexivity. Qed.

Example shinjuku : transliterate (utf16 "新宿") ko = Some (utf16 "신주쿠").
Proof. vm_compute. reflexivity. Qed.

Example futsal : transliterate (utf16 "フットサル") ko = Some (utf16 "풋살").
Proof. vm_compute. reflexivity. Qed.

Example ramen : transliterate (utf16 "ラーメン") ko = Some (utf16 "라멘").
Proof. vm_compute. reflexivity. Qed.

(** * Properties *)

(** ** Loops with a forward cursor *)

Lemma while_more_fuel {S : Type} (step : S -> option S) :
  forall fuel fuel' s r,
    JS.while fuel step s = Some r -> (fuel <= fuel')%nat ->
    JS.while fuel' step s = Some r.
Proof.
  induction fuel as [|fuel IH]; intros fuel' s r Hrun Hle.
  - discriminate.
  - destruct fuel' as [|fuel']; [lia|].
    cbn [JS.while] in *.
    destruct (step s) as [s'|]; [|assumption].
    apply (IH fuel' s' r Hrun). lia.
Qed.

Section Scan.

Context {X : Type}.

Variable step : str -> nat * list X -> option (nat * list X).

(** The body only looks forward from the cursor and only appends. *)
Hypothesis step_shift : forall text i acc,
  step text (i, acc) = relocate i acc (step (skipn i text) (O, [])).
(** The loop test fails at the end of the text... *)
Hypothesis step_nil : step [] (O, []) = None.
(** ...and before it the body moves the cursor forward. *)
Hypothesis step_advance : forall c s,
  exists n out, step (c :: s) (O, []) = Some (S n, out).

Lemma while_shift : forall fuel text i acc,
  JS.while fuel (step text) (i, acc)
  = relocate i acc (JS.while fuel (step (skipn i text)) (O, [])).
Proof.
  induction fuel as [|fuel IH]; intros text i acc; [reflexivity|].
  cbn [JS.while].
  rewrite (step_shift text i acc).
  destruct (step (skipn i text) (O, [])) as [[n out]|]; cbn [relocate].
  - rewrite (IH text (i + n)%nat (acc ++ out)).
    rewrite (IH (skipn i text) n out).
    rewrite skipn_skipn, (Nat.add_comm n i).
    destruct (JS.while fuel (step (skipn (i + n) text)) (O, []))
      as [[j out']|]; cbn [relocate]; [|reflexivity].
    now rewrite Nat.add_assoc, app_assoc.
  - now rewrite Nat.add_0_r, app_nil_r.
Qed.

Lemma while_enough : forall fuel text,
  (length text < fuel)%nat ->
  exists j out, JS.while fuel (step text) (O, []) = Some (j, out).
Proof.
  induction fuel as [|fuel IH]; intros text Hlen; [lia|].
  cbn [JS.while].
  destruct text as [|c s].
  - rewrite step_nil. eauto.
  - destruct (step_advance c s) as (n & out & Hstep).
    rewrite Hstep, while_shift.
    destruct (IH (skipn (S n) (c :: s))) as (j & out' & Hrun).
    + rewrite length_skipn. cbn [length] in *. lia.
    + rewrite Hrun. cbn [relocate]. eauto.
Qed.

Lemma while_fuel_irrelevant : forall fuel text,
  (length text < fuel)%nat ->
  JS.while fuel (step text) (O, [])
  = JS.while (S (length text)) (step text) (O, []).
Proof.
  intros fuel text Hlen.
  destruct (while_enough (S (length text)) text) as (j & out & Hrun); [lia|].
  rewrite Hrun. apply (while_more_fuel _ _ _ _ _ Hrun). lia.
Qed.

(** The run over a non-empty text is its first iteration followed by the
    run over what is left. *)
Lemma scan_unfold : forall c s n out,
  step (c :: s) (O, []) = Some (n, out) ->
  JS.while (S (length (c :: s))) (step (c :: s)) (O, [])
  = relocate n out
      (JS.while (S (length (skipn n (c :: s)))) (step (skipn n (c :: s)))
         (O, [])).
Proof.
  intros c s n out Hstep.
  destruct (step_advance c s) as (n' & out' & Hadv).
  rewrite Hstep in Hadv. injection Hadv as -> ->.
  cbn [JS.while]. rewrite Hstep, while_shift. f_equal.
  apply while_fuel_irrelevant.
  rewrite length_skipn. cbn [length]. lia.
Qed.

End Scan.

Lemma str_eqb_eq (a b : str) : JS.str_eqb a b = true -> a = b.
Proof.
  unfold JS.str_eqb.
  destruct (list_eq_dec Z.eq_dec a b) as [Heq|_]; [intros _; exact Heq|].
  discriminate.
Qed.

Lemma existsb_str_In (key : str) (keys : list str) :
  existsb (JS.str_eqb key) keys = true -> In key keys.
Proof.
  intros H. apply existsb_exists in H as (k & Hin & Heq).
  apply str_eqb_eq in Heq. now subst.
Qed.

Lemma get_skipn (text : str) (i k : nat) :
  JS.get (skipn i text) k = JS.get text (i + k).
Proof. unfold JS.get. now rewrite nth_error_skipn. Qed.

(** Case analysis on every scrutinee of the goal, innermost first. *)
Ltac split_matches :=
  repeat match goal with
         | |- context [match ?x with _ => _ end] =>
             lazymatch x with
             | context [match _ with _ => _ end] => fail
             | _ => destruct x
             end
         end.

(** ** The composition scan *)

Lemma composeHangul_step_shift (text : str) (i : nat) (acc : list str) :
  composeHangul_step text (i, acc)
  = relocate i acc (composeHangul_step (skipn i text) (O, [])).
Proof.
  unfold composeHangul_step.
  rewrite !get_skipn, Nat.add_0_r. cbn [Nat.add].
  destruct (JS.get text i) as [char|]; [|reflexivity].
  split_matches; cbn [relocate]; unfold push;
    rewrite ?Nat.add_0_r; reflexivity.
Qed.

Lemma composeHangul_step_advance (c : Z) (s : str) :
  exists n out, composeHangul_step (c :: s) (O, []) = Some (S n, out).
Proof.
  unfold composeHangul_step. cbn [JS.get nth_error option_map Nat.add].
  split_matches; eauto.
Qed.

Lemma composeHangul_step_progress (text : str) (i : nat) (acc : list str) :
  match composeHangul_step text (i, acc) with
  | Some (i', _) => (i < i' <= i + 3)%nat /\ (i < length text)%nat
  | None => (length text <= i)%nat
  end.
Proof.
  unfold composeHangul_step, JS.get.
  destruct (nth_error text i) as [c|] eqn:Hc; cbn [option_map].
  - assert (i < length text)%nat by (apply nth_error_Some; congruence).
    split_matches; lia.
  - now apply nth_error_None.
Qed.

Lemma composeHangul_fuel_enough (fuel : nat) (text : str) :
  (length text < fuel)%nat ->
  composeHangul_fuel fuel text = composeHangul text.
Proof.
  intros Hlen. unfold composeHangul, composeHangul_fuel.
  destruct text as [|c s]; [reflexivity|]. f_equal.
  now apply (while_fuel_irrelevant composeHangul_step
               composeHangul_step_shift eq_refl composeHangul_step_advance).
Qed.

Lemma composeHangul_total (text : str) :
  exists out, composeHangul text = Some out.
Proof.
  unfold composeHangul, composeHangul_fuel.
  destruct text as [|c s]; [eauto|].
  destruct (while_enough composeHangul_step composeHangul_step_shift
              eq_refl composeHangul_step_advance
              (S (length (c :: s))) (c :: s)) as (j & out & Hrun); [lia|].
  rewrite Hrun. cbn. eauto.
Qed.

(** ** The phonetic scan *)

Lemma substring_skipn (text : str) (i n : nat) :
  JS.substring (skipn i text) 0 (0 + n) = JS.substring text i (i + n).
Proof.
  unfold JS.substring.
  now rewrite Nat.add_0_l, Nat.sub_0_r, Nat.add_comm, Nat.add_sub.
Qed.

Lemma match_compound_skipn (table : list (str * str)) (text : str) (i : nat) :
  match_compound table (skipn i text) 0 = match_compound table text i.
Proof.
  induction table as [|[pattern hangul] table IH]; [reflexivity|].
  cbn [match_compound]. now rewrite substring_skipn, IH.
Qed.

Lemma match_compound_In (table : list (str * str)) (text : str) (i : nat)
    (pattern hangul : str) :
  match_compound table text i = Some (pattern, hangul) ->
  In (pattern, hangul) table
  /\ JS.substring text i (i + length pattern) = pattern.
Proof.
  induction table as [|[p h] table IH]; [discriminate|].
  cbn [match_compound]. unfold JS.str_eqb.
  destruct (list_eq_dec Z.eq_dec (JS.substring text i (i + length p)) p)
    as [Heq|_].
  - intros [= <- <-]. split; [now left|assumption].
  - intros Hrest. destruct (IH Hrest). split; [now right|assumption].
Qed.

Lemma KATAKANA_COMPOUNDS_lengths :
  forall pattern hangul,
    In (pattern, hangul) KATAKANA_COMPOUNDS ->
    (2 <= length pattern <= 3)%nat.
Proof.
  assert (Hall : forallb
            (fun kv => (2 <=? length (fst kv))%nat
                       && (length (fst kv) <=? 3)%nat)
            KATAKANA_COMPOUNDS = true) by (vm_compute; reflexivity).
  intros pattern hangul Hin.
  rewrite forallb_forall in Hall. specialize (Hall _ Hin).
  cbn [fst] in Hall. apply andb_true_iff in Hall as [Hlo Hhi].
  apply Nat.leb_le in Hlo, Hhi. lia.
Qed.

Lemma phonetic_step_shift (text : str) (i : nat) (acc : str) :
  phonetic_step text (i, acc)
  = relocate i acc (phonetic_step (skipn i text) (O, [])).
Proof.
  unfold phonetic_step.
  rewrite match_compound_skipn, !get_skipn, Nat.add_0_r. cbn [Nat.add].
  destruct (JS.get text i) as [char|]; [|reflexivity].
  split_matches; cbn [relocate app]; rewrite ?app_nil_r; reflexivity.
Qed.

Lemma phonetic_step_advance (c : Z) (s : str) :
  exists n out, phonetic_step (c :: s) (O, []) = Some (S n, out).
Proof.
  unfold phonetic_step. cbn [JS.get nth_error option_map Nat.add].
  destruct (match_compound KATAKANA_COMPOUNDS (c :: s) 0)
    as [[pattern hangul]|] eqn:Hm.
  - apply match_compound_In in Hm as [Hin _].
    apply KATAKANA_COMPOUNDS_lengths in Hin.
    destruct (length pattern) as [|n]; [lia|]. eauto.
  - split_matches; eauto.
Qed.

Lemma phonetic_step_progress (text : str) (i : nat) (acc : str) :
  match phonetic_step text (i, acc) with
  | Some (i', _) => (i < i' <= i + 3)%nat /\ (i < length text)%nat
  | None => (length text <= i)%nat
  end.
Proof.
  unfold phonetic_step, JS.get.
  destruct (nth_error text i) as [c|] eqn:Hc; cbn [option_map].
  - assert (i < length text)%nat by (apply nth_error_Some; congruence).
    destruct (match_compound KATAKANA_COMPOUNDS text i)
      as [[pattern hangul]|] eqn:Hm.
    + apply match_compound_In in Hm as [Hin _].
      apply KATAKANA_COMPOUNDS_lengths in Hin. lia.
    + split_matches; lia.
  - now apply nth_error_None.
Qed.

Lemma phonetic_fuel_enough (fuel : nat) (result : str) :
  (length result < fuel)%nat ->
  phonetic_fuel fuel result = phonetic_pass result.
Proof.
  intros Hlen. unfold phonetic_pass, phonetic_fuel. f_equal.
  now apply (while_fuel_irrelevant phonetic_step
               phonetic_step_shift eq_refl phonetic_step_advance).
Qed.

Lemma phonetic_total (result : str) :
  exists out, phonetic_pass result = Some out.
Proof.
  unfold phonetic_pass, phonetic_fuel.
  destruct (while_enough phonetic_step phonetic_step_shift
              eq_refl phonetic_step_advance
              (S (length result)) result) as (j & out & Hrun); [lia|].
  rewrite Hrun. cbn. eauto.
Qed.

(** ** The driver *)

(** C1. For every string [x], [transliterate(x, "ja")] returns exactly [x],
    the empty string included. *)
Theorem transliterate_ja_identity (x : str) :
  transliterate x ja = Some x.
Proof. destruct x; reflexivity. Qed.

(** C2. For every string [x], [transliterate(x, "ko")] terminates and
    returns a string.  The dictionary pass is a fold over the finite key
    list; the phonetic scan and [composeHangul] are loops whose every
    iteration moves the cursor forward, by one to three code units, and
    which stop when the cursor leaves the text, so that they return within
    one more iteration than their input has code units.  No path of the
    three stages fails. *)
Theorem transliterate_ko_total :
  (forall x, exists out, transliterate x ko = Some out)
  /\ (forall result i acc,
        match phonetic_step result (i, acc) with
        | Some (i', _) => (i < i' <= i + 3)%nat /\ (i < length result)%nat
        | None => (length result <= i)%nat
        end)
  /\ (forall text i acc,
        match composeHangul_step text (i, acc) with
        | Some (i', _) => (i < i' <= i + 3)%nat /\ (i < length text)%nat
        | None => (length text <= i)%nat
        end).
Proof.
  split; [|split].
  - intros x. unfold transliterate. destruct x as [|c s]; [eauto|].
    destruct (phonetic_total (dictionary_pass (c :: s))) as (mid & ->).
    apply composeHangul_total.
  - exact phonetic_step_progress.
  - exact composeHangul_step_progress.
Qed.

(** ** Membership in the jamo tables *)

Lemma starts_with_single (c x : Z) (s : str) :
  JS.starts_with [c] (x :: s) = (c =? x).
Proof. cbn. now rewrite andb_true_r. Qed.

Lemma indexOf_from_single (c : Z) :
  forall s pos, 0 <= pos ->
    (In c s -> pos <= JS.indexOf_from [c] s pos)
    /\ (~ In c s -> JS.indexOf_from [c] s pos = -1).
Proof.
  induction s as [|x s IH]; intros pos Hpos.
  - cbn. split; [intros []|reflexivity].
  - cbn [JS.indexOf_from]. rewrite starts_with_single.
    destruct (Z.eqb_spec c x) as [->|Hne].
    + split; [lia|]. intros Hnot. exfalso. apply Hnot. now left.
    + destruct (IH (pos + 1)) as [Hin Hout]; [lia|]. split.
      * intros [Heq|Hin']; [congruence|]. specialize (Hin Hin'). lia.
      * intros Hnot. apply Hout. intros Hin'. apply Hnot. now right.
Qed.

Lemma includes_single (s : str) (c : Z) :
  JS.includes s [c] = true <-> In c s.
Proof.
  unfold JS.includes, JS.indexOf.
  destruct (indexOf_from_single c s 0) as [Hin Hout]; [lia|].
  destruct (in_dec Z.eq_dec c s) as [Hc|Hc].
  - specialize (Hin Hc). split; [auto|]. intros _. now apply Z.leb_le.
  - rewrite (Hout Hc). split; [discriminate|contradiction].
Qed.

Ltac by_position k :=
  repeat (lazymatch goal with
          | |- forall c, nth_error (_ :: _) _ = _ -> _ => idtac
          end;
          destruct k as [|k];
          [cbn [nth_error]; intros ? [= <-];
           repeat split; try (vm_compute; reflexivity); lia
          |cbn [nth_error]]);
  intros ?; destruct k; discriminate.

Lemma INITIALS_position (k : nat) (c : Z) :
  nth_error INITIALS k = Some c ->
  JS.indexOf INITIALS [c] = Z.of_nat k /\ (k < 19)%nat /\ 12593 <= c <= 12622.
Proof. unfold INITIALS. revert c. by_position k. Qed.

Lemma MEDIALS_position (k : nat) (c : Z) :
  nth_error MEDIALS k = Some c ->
  JS.indexOf MEDIALS [c] = Z.of_nat k /\ (k < 21)%nat /\ 12623 <= c <= 12643.
Proof. unfold MEDIALS. revert c. by_position k. Qed.

Lemma FINALS_position (k : nat) (c : Z) :
  nth_error FINALS k = Some c ->
  JS.indexOf FINALS [c] = Z.of_nat k /\ (k < 28)%nat
  /\ (c = 0 <-> k = O) /\ 0 <= c <= 12622.
Proof. unfold FINALS. revert c. by_position k. Qed.

Lemma isInitial_In (c : Z) : isInitial [c] = true <-> In c INITIALS.
Proof. apply includes_single. Qed.

Lemma isMedial_In (c : Z) : isMedial [c] = true <-> In c MEDIALS.
Proof. apply includes_single. Qed.

Lemma isFinal_In (c : Z) : isFinal [c] = true <-> In c FINALS /\ c <> 0.
Proof.
  unfold isFinal, JS.str_eqb. rewrite andb_true_iff, includes_single.
  destruct (list_eq_dec Z.eq_dec [c] [0]) as [Heq|Hne]; cbn [negb].
  - injection Heq as ->. split; [intros [[=] _]|intros [_ []]; reflexivity].
  - split; intros [H1 H2]; split; auto. congruence.
Qed.

Lemma isHangulSyllable_range (c : Z) :
  isHangulSyllable [c] = true <-> 44032 <= c <= 55203.
Proof.
  unfold isHangulSyllable, HANGUL_BASE. cbn [JS.charCodeAt0 nth_error].
  rewrite andb_true_iff, !Z.leb_le. lia.
Qed.

Lemma when_single (c : Z) (p : str -> bool) :
  JS.when (Some [c]) p = if p [c] then Some [c] else None.
Proof. reflexivity. Qed.

(** The replacement strings of the dictionary hold no [$], so [replaceAll]
    inserts them as they are. *)
Lemma WORD_MAP_values_plain :
  forallb (fun kv => negb (existsb (Z.eqb 36) (snd kv))) WORD_MAP = true.
Proof. vm_compute. reflexivity. Qed.

(** ** Composition and decomposition of one syllable *)

(** A decomposition with an empty final comes from a code point of the
    syllable block, and then its initial and medial are defined: the two
    fields read by the batchim branch of [composeHangul] are strings. *)
Lemma decompose_no_final_defined (char : str) (d : Jamo) :
  decomposeHangul char = Some d ->
  final d = Some [] ->
  exists dinitial dmedial,
    initial d = Some dinitial /\ medial d = Some dmedial.
Proof.
  unfold decomposeHangul.
  destruct (JS.charCodeAt0 char) as [code|]; [|intros [= <-]; discriminate].
  destruct (Z.ltb_spec code HANGUL_BASE) as [|Hlo]; [discriminate|].
  destruct (Z.ltb_spec (HANGUL_BASE + 11171) code) as [|Hhi]; [discriminate|].
  cbn [orb]. intros [= <-] _. cbn [initial medial].
  unfold HANGUL_BASE, MEDIAL_COUNT, FINAL_COUNT in *.
  set (n := code - 44032).
  assert (Hn : 0 <= n <= 11171) by (subst n; lia).
  assert (Hi : (Z.to_nat (n / (21 * 28)) < length INITIALS)%nat).
  { assert (0 <= n / (21 * 28) < 19); [|cbn [INITIALS length]; lia].
    split; [apply Z.div_pos; lia|apply Z.div_lt_upper_bound; lia]. }
  assert (Hm : (Z.to_nat (n mod (21 * 28) / 28) < length MEDIALS)%nat).
  { pose proof (Z.mod_pos_bound n (21 * 28) ltac:(lia)) as Hmod.
    assert (0 <= n mod (21 * 28) / 28 < 21); [|cbn [MEDIALS length]; lia].
    split; [apply Z.div_pos; lia|apply Z.div_lt_upper_bound; lia]. }
  apply nth_error_Some in Hi, Hm. unfold JS.get.
  destruct (nth_error INITIALS _) as [ci|]; [|congruence].
  destruct (nth_error MEDIALS _) as [cm|]; [|congruence].
  cbn [option_map]. eauto.
Qed.

Lemma final_slot_index (fi : nat) (final : str) :
  final_slot fi final ->
  (if JS.str_eqb final [] then 0 else JS.indexOf FINALS final) = Z.of_nat fi
  /\ (fi < 28)%nat.
Proof.
  destruct fi as [|fi]; cbn [final_slot].
  - intros ->. split; [reflexivity|lia].
  - intros (f & Hf & ->).
    destruct (FINALS_position _ _ Hf) as (Hidx & Hlt & _).
    split; [exact Hidx|exact Hlt].
Qed.

Lemma composeHangulSyllable_code (ii mi fi : nat) (i m : Z) (final : str) :
  nth_error INITIALS ii = Some i ->
  nth_error MEDIALS mi = Some m ->
  final_slot fi final ->
  composeHangulSyllable [i] [m] final = [syllable_code ii mi fi].
Proof.
  intros Hi Hm Hf. unfold composeHangulSyllable.
  destruct (INITIALS_position _ _ Hi) as (-> & Hii & _).
  destruct (MEDIALS_position _ _ Hm) as (-> & Hmi & _).
  destruct (final_slot_index _ _ Hf) as (-> & Hfi).
  replace (Z.of_nat ii <? 0) with false by (symmetry; apply Z.ltb_ge; lia).
  replace (Z.of_nat mi <? 0) with false by (symmetry; apply Z.ltb_ge; lia).
  replace (Z.of_nat fi <? 0) with false by (symmetry; apply Z.ltb_ge; lia).
  cbn [orb]. unfold JS.fromCharCode, syllable_code, HANGUL_BASE,
    MEDIAL_COUNT, FINAL_COUNT.
  rewrite Z.mod_small by lia. reflexivity.
Qed.

Lemma syllable_index_split (a b c : Z) :
  0 <= a -> 0 <= b < 21 -> 0 <= c < 28 ->
  ((a * 21 + b) * 28 + c) / (21 * 28) = a
  /\ (((a * 21 + b) * 28 + c) mod (21 * 28)) / 28 = b
  /\ ((a * 21 + b) * 28 + c) mod 28 = c.
Proof.
  intros Ha Hb Hc.
  assert (Hq : ((a * 21 + b) * 28 + c) / (21 * 28) = a).
  { symmetry. apply Z.div_unique with (r := b * 28 + c); lia. }
  assert (Hr : ((a * 21 + b) * 28 + c) mod (21 * 28) = b * 28 + c).
  { symmetry. apply Z.mod_unique with (q := a); lia. }
  split; [exact Hq|]. rewrite Hr. split.
  - symmetry. apply Z.div_unique with (r := c); lia.
  - symmetry. apply Z.mod_unique with (q := a * 21 + b); lia.
Qed.

Lemma decomposeHangul_code (ii mi fi : nat) (i m : Z) (final : str) :
  nth_error INITIALS ii = Some i ->
  nth_error MEDIALS mi = Some m ->
  final_slot fi final ->
  decomposeHangul [syllable_code ii mi fi]
  = Some (mkJamo (Some [i]) (Some [m]) (Some final)).
Proof.
  intros Hi Hm Hf.
  destruct (INITIALS_position _ _ Hi) as (_ & Hii & _).
  destruct (MEDIALS_position _ _ Hm) as (_ & Hmi & _).
  destruct (final_slot_index _ _ Hf) as (_ & Hfi).
  unfold decomposeHangul, syllable_code, HANGUL_BASE, MEDIAL_COUNT,
    FINAL_COUNT. cbn [JS.charCodeAt0 nth_error].
  set (n := (Z.of_nat ii * 21 + Z.of_nat mi) * 28 + Z.of_nat fi).
  replace (44032 + (Z.of_nat ii * 21 + Z.of_nat mi) * 28 + Z.of_nat fi)
    with (44032 + n) by (subst n; lia).
  replace (44032 + n <? 44032) with false
    by (symmetry; apply Z.ltb_ge; subst n; lia).
  replace (44032 + 11171 <? 44032 + n) with false
    by (symmetry; apply Z.ltb_ge; subst n; lia).
  cbn [orb]. replace (44032 + n - 44032) with n by lia. subst n.
  destruct (syllable_index_split (Z.of_nat ii) (Z.of_nat mi) (Z.of_nat fi))
    as (-> & -> & ->); [lia..|].
  rewrite !Nat2Z.id. unfold JS.get. rewrite Hi, Hm. cbn [option_map].
  destruct fi as [|fi]; cbn [final_slot] in Hf.
  - subst final. reflexivity.
  - destruct Hf as (f & Hfin & ->).
    replace (Z.of_nat (S fi) =? 0) with false
      by (symmetry; apply Z.eqb_neq; lia).
    rewrite Hfin. reflexivity.
Qed.

(** C10. Round trip: for every initial of [INITIALS], every medial of
    [MEDIALS] and every final that is the empty string or an entry of
    [FINALS] other than the null placeholder,
    [decomposeHangul(composeHangulSyllable(initial, medial, final))] returns
    exactly that initial, medial and final. *)
Theorem decompose_compose_roundtrip (i m : Z) (final : str) :
  In i INITIALS ->
  In m MEDIALS ->
  final = [] \/ (exists f, In f FINALS /\ f <> 0 /\ final = [f]) ->
  decomposeHangul (composeHangulSyllable [i] [m] final)
  = Some (mkJamo (Some [i]) (Some [m]) (Some final)).
Proof.
  intros Hi Hm Hf.
  apply In_nth_error in Hi as (ii & Hi).
  apply In_nth_error in Hm as (mi & Hm).
  assert (Hslot : exists fi, final_slot fi final).
  { destruct Hf as [->|(f & Hin & Hnz & ->)].
    - now exists O.
    - apply In_nth_error in Hin as (fi & Hfi).
      exists fi. destruct fi as [|fi]; cbn [final_slot]; [|eauto].
      destruct (FINALS_position _ _ Hfi) as (_ & _ & Hz & _).
      exfalso. apply Hnz, Hz. reflexivity. }
  destruct Hslot as (fi & Hslot).
  rewrite (composeHangulSyllable_code ii mi fi i m final Hi Hm Hslot).
  exact (decomposeHangul_code ii mi fi i m final Hi Hm Hslot).
Qed.

Lemma decompose_compose_roundtrip_witness :
  decomposeHangul
    (composeHangulSyllable (utf16 "ㅎ") (utf16 "ㅣ") (utf16 "ㅎ"))
  = Some (mkJamo (Some (utf16 "ㅎ")) (Some (utf16 "ㅣ")) (Some (utf16 "ㅎ"))).
Proof.
  apply (decompose_compose_roundtrip 12622 12643 [12622]).
  - vm_compute. tauto.
  - vm_compute. tauto.
  - right. exists 12622. vm_compute. repeat split; try tauto. discriminate.
Defined.

(** ** Unfolding the scans one iteration at a time *)

Lemma composeHangul_unfold (c : Z) (s : str) (n : nat) (out : list str) :
  composeHangul_step (c :: s) (O, []) = Some (n, out) ->
  composeHangul (c :: s)
  = option_map (app (concat out)) (composeHangul (skipn n (c :: s))).
Proof.
  intros Hstep. unfold composeHangul at 1.
  cbv beta iota delta [composeHangul_fuel].
  rewrite (scan_unfold composeHangul_step composeHangul_step_shift eq_refl
             composeHangul_step_advance c s n out Hstep).
  unfold composeHangul, composeHangul_fuel.
  destruct (skipn n (c :: s)) as [|c' s'].
  - cbn. now rewrite !app_nil_r.
  - destruct (JS.while _ _ _) as [[j out']|]; cbn; [|reflexivity].
    now rewrite concat_app.
Qed.

Lemma phonetic_unfold (c : Z) (s : str) (n : nat) (out : str) :
  phonetic_step (c :: s) (O, []) = Some (n, out) ->
  phonetic_pass (c :: s)
  = option_map (app out) (phonetic_pass (skipn n (c :: s))).
Proof.
  intros Hstep. unfold phonetic_pass, phonetic_fuel.
  rewrite (scan_unfold phonetic_step phonetic_step_shift eq_refl
             phonetic_step_advance c s n out Hstep).
  destruct (JS.while _ _ _) as [[j out']|]; reflexivity.
Qed.

Lemma jamo_not_syllable (c : Z) :
  0 <= c <= 12643 -> isHangulSyllable [c] = false.
Proof.
  intros Hc. apply not_true_is_false. rewrite isHangulSyllable_range. lia.
Qed.

(** An initial, a medial and a final at the cursor, followed by something
    that is not a medial: one iteration emits the syllable of their table
    positions and moves past the three jamo. *)
Lemma three_jamo_at_cursor (ii mi fi : nat) (i m f : Z) (rest : str) :
  nth_error INITIALS ii = Some i ->
  nth_error MEDIALS mi = Some m ->
  nth_error FINALS fi = Some f ->
  isFinal [f] = true ->
  next_is_medial rest = false ->
  exists tail,
    composeHangul rest = Some tail
    /\ composeHangul (i :: m :: f :: rest)
       = Some (HANGUL_BASE
               + (Z.of_nat ii * 21 + Z.of_nat mi) * 28 + Z.of_nat fi :: tail).
Proof.
  intros Hi Hm Hf Hfinal Hnext.
  destruct (composeHangul_total rest) as (tail & Htail).
  exists tail. split; [exact Htail|].
  assert (Hslot : final_slot fi [f]).
  { destruct fi as [|fi]; cbn [final_slot]; [|eauto].
    apply isFinal_In in Hfinal as [_ Hnz].
    destruct (FINALS_position _ _ Hf) as (_ & _ & Hz & _).
    exfalso. apply Hnz, Hz. reflexivity. }
  assert (Hstep : composeHangul_step (i :: m :: f :: rest) (O, [])
                  = Some (3%nat, [[syllable_code ii mi fi]])).
  { unfold composeHangul_step.
    cbn [JS.get nth_error option_map Nat.add].
    destruct (INITIALS_position _ _ Hi) as (_ & _ & Hrange).
    rewrite jamo_not_syllable by lia.
    rewrite (proj2 (isInitial_In i)) by (eapply nth_error_In; eassumption).
    rewrite !when_single.
    rewrite (proj2 (isMedial_In m)) by (eapply nth_error_In; eassumption).
    rewrite Hfinal.
    replace (JS.when _ isMedial) with (@None (list Z)).
    2:{ destruct rest as [|c rest]; [reflexivity|].
        cbn [next_is_medial] in Hnext. cbn [JS.get nth_error option_map].
        now rewrite when_single, Hnext. }
    now rewrite (composeHangulSyllable_code ii mi fi i m [f] Hi Hm Hslot). }
  rewrite (composeHangul_unfold _ _ _ _ Hstep).
  cbn [skipn]. rewrite Htail. reflexivity.
Qed.

(** The syllable made of an initial and a medial only. *)
Lemma compose_two (i m : Z) :
  isInitial [i] = true -> isMedial [m] = true ->
  exists s1,
    composeHangulSyllable [i] [m] [] = [s1]
    /\ isHangulSyllable [s1] = true
    /\ decomposeHangul [s1] = Some (mkJamo (Some [i]) (Some [m]) (Some [])).
Proof.
  intros Hi Hm.
  apply isInitial_In, In_nth_error in Hi as (ii & Hi).
  apply isMedial_In, In_nth_error in Hm as (mi & Hm).
  exists (syllable_code ii mi 0).
  rewrite (composeHangulSyllable_code ii mi 0 i m [] Hi Hm eq_refl).
  split; [reflexivity|]. split.
  - destruct (INITIALS_position _ _ Hi) as (_ & Hii & _).
    destruct (MEDIALS_position _ _ Hm) as (_ & Hmi & _).
    apply isHangulSyllable_range. unfold syllable_code, HANGUL_BASE. lia.
  - exact (decomposeHangul_code ii mi 0 i m [] Hi Hm eq_refl).
Qed.

Lemma initial_not_syllable (i : Z) :
  isInitial [i] = true -> isHangulSyllable [i] = false.
Proof.
  intros Hi. apply isInitial_In, In_nth_error in Hi as (ii & Hi).
  destruct (INITIALS_position _ _ Hi) as (_ & _ & Hrange).
  apply jamo_not_syllable. lia.
Qed.

Lemma medial_not_syllable (m : Z) :
  isMedial [m] = true -> isHangulSyllable [m] = false.
Proof.
  intros Hm. apply isMedial_In, In_nth_error in Hm as (mi & Hm).
  destruct (MEDIALS_position _ _ Hm) as (_ & _ & Hrange).
  apply jamo_not_syllable. lia.
Qed.

Lemma final_not_syllable (f : Z) :
  isFinal [f] = true -> isHangulSyllable [f] = false.
Proof.
  intros Hf. apply isFinal_In in Hf as [Hf _].
  apply In_nth_error in Hf as (fi & Hf).
  destruct (FINALS_position _ _ Hf) as (_ & _ & _ & Hrange).
  apply jamo_not_syllable. lia.
Qed.

Lemma medial_not_initial (m : Z) :
  isMedial [m] = true -> isInitial [m] = false.
Proof.
  intros Hm. apply isMedial_In, In_nth_error in Hm as (mi & Hm).
  destruct (MEDIALS_position _ _ Hm) as (_ & _ & Hrange).
  apply not_true_is_false. intros Hi.
  apply isInitial_In, In_nth_error in Hi as (ii & Hi).
  destruct (INITIALS_position _ _ Hi) as (_ & _ & Hrange'). lia.
Qed.

(** An initial followed by a medial always opens a syllable: the scan emits
    one whose decomposition starts with these two jamo. *)
Lemma compose_opens_syllable (i m : Z) (rest : str) :
  isInitial [i] = true -> isMedial [m] = true ->
  exists s tail d,
    composeHangul (i :: m :: rest) = Some (s :: tail)
    /\ decomposeHangul [s] = Some d
    /\ initial d = Some [i] /\ medial d = Some [m].
Proof.
  intros Hi Hm.
  pose proof (initial_not_syllable i Hi) as Hsyl.
  destruct (compose_two i m Hi Hm) as (s1 & Hs1 & _ & Hd1).
  destruct (composeHangul_step (i :: m :: rest) (O, []))
    as [[n out]|] eqn:Hstep;
    [|destruct (composeHangul_step_advance i (m :: rest))
        as (? & ? & Habs); congruence].
  pose proof (composeHangul_unfold _ _ _ _ Hstep) as Hrun.
  destruct (composeHangul_total (skipn n (i :: m :: rest))) as (tail & Htail).
  rewrite Htail in Hrun. cbn [option_map] in Hrun.
  revert Hstep. unfold composeHangul_step.
  cbn [JS.get nth_error option_map Nat.add].
  rewrite Hsyl, Hi, when_single, Hm.
  destruct (JS.when _ isFinal) as [third|] eqn:Hthird.
  - destruct (JS.when _ isMedial) as [fourth|].
    + intros [= <- <-]. rewrite Hs1 in Hrun.
      exists s1, tail. eexists. split; [exact Hrun|]. split; [exact Hd1|].
      split; reflexivity.
    + intros [= <- <-].
      destruct rest as [|f rest]; [discriminate|].
      cbn [JS.get nth_error option_map] in Hthird.
      rewrite when_single in Hthird.
      destruct (isFinal [f]) eqn:Hf; [|discriminate].
      injection Hthird as <-.
      apply isInitial_In, In_nth_error in Hi as (ii & Hi).
      apply isMedial_In, In_nth_error in Hm as (mi & Hm).
      pose proof Hf as Hfin. apply isFinal_In in Hfin as [Hfin Hnz].
      apply In_nth_error in Hfin as (fi & Hfi).
      assert (Hslot : final_slot fi [f]).
      { destruct fi as [|fi]; cbn [final_slot]; [|eauto].
        destruct (FINALS_position _ _ Hfi) as (_ & _ & Hz & _).
        exfalso. apply Hnz, Hz. reflexivity. }
      rewrite (composeHangulSyllable_code ii mi fi i m [f] Hi Hm Hslot)
        in Hrun.
      exists (syllable_code ii mi fi), tail. eexists.
      split; [exact Hrun|]. split.
      * exact (decomposeHangul_code ii mi fi i m [f] Hi Hm Hslot).
      * split; reflexivity.
  - intros [= <- <-]. rewrite Hs1 in Hrun.
    exists s1, tail. eexists. split; [exact Hrun|]. split; [exact Hd1|].
    split; reflexivity.
Qed.

(** Initial, medial, candidate final and medial at the cursor: the first two
    jamo are emitted as a syllable and the scan resumes at the candidate. *)
Lemma lookahead_at_cursor (i m f m2 : Z) (rest : str) :
  isInitial [i] = true ->
  isMedial [m] = true ->
  isFinal [f] = true ->
  isMedial [m2] = true ->
  exists s1 tail,
    composeHangul (f :: m2 :: rest) = Some tail
    /\ composeHangul (i :: m :: f :: m2 :: rest) = Some (s1 :: tail)
    /\ decomposeHangul [s1] = Some (mkJamo (Some [i]) (Some [m]) (Some []))
    /\ (isInitial [f] = true ->
        exists s2 tail' d,
          tail = s2 :: tail'
          /\ decomposeHangul [s2] = Some d
          /\ initial d = Some [f] /\ medial d = Some [m2])
    /\ (isInitial [f] = false ->
        exists tail',
          composeHangul rest = Some tail' /\ tail = f :: m2 :: tail').
Proof.
  intros Hi Hm Hf Hm2.
  destruct (compose_two i m Hi Hm) as (s1 & Hs1 & _ & Hd1).
  destruct (composeHangul_total (f :: m2 :: rest)) as (tail & Htail).
  exists s1, tail. split; [exact Htail|]. split; [|split; [exact Hd1|split]].
  - assert (Hstep : composeHangul_step (i :: m :: f :: m2 :: rest) (O, [])
                    = Some (2%nat, [[s1]])).
    { unfold composeHangul_step.
      cbn [JS.get nth_error option_map Nat.add].
      rewrite (initial_not_syllable i Hi), Hi, !when_single, Hm, Hf, Hm2.
      now rewrite Hs1. }
    rewrite (composeHangul_unfold _ _ _ _ Hstep).
    cbn [skipn]. rewrite Htail. reflexivity.
  - intros Hfi.
    destruct (compose_opens_syllable f m2 rest Hfi Hm2)
      as (s2 & tail' & d & Hrun & Hd & Hdi & Hdm).
    rewrite Htail in Hrun. injection Hrun as ->.
    exists s2, tail', d. repeat split; assumption.
  - intros Hfi.
    destruct (composeHangul_total rest) as (tail' & Htail').
    exists tail'. split; [exact Htail'|].
    assert (Hstep1 : composeHangul_step (f :: m2 :: rest) (O, [])
                     = Some (1%nat, [[f]])).
    { unfold composeHangul_step.
      cbn [JS.get nth_error option_map Nat.add].
      now rewrite (final_not_syllable f Hf), Hfi. }
    assert (Hstep2 : composeHangul_step (m2 :: rest) (O, [])
                     = Some (1%nat, [[m2]])).
    { unfold composeHangul_step.
      cbn [JS.get nth_error option_map Nat.add].
      now rewrite (medial_not_syllable m2 Hm2), (medial_not_initial m2 Hm2). }
    rewrite (composeHangul_unfold _ _ _ _ Hstep1) in Htail.
    cbn [skipn] in Htail.
    rewrite (composeHangul_unfold _ _ _ _ Hstep2) in Htail.
    cbn [skipn] in Htail. rewrite Htail' in Htail.
    now injection Htail as <-.
Qed.

(** *** Reaching an initial that is followed by a medial *)

Lemma initial_not_medial (i : Z) :
  isInitial [i] = true -> isMedial [i] = false.
Proof.
  intros Hi. apply not_true_is_false. intros Hm.
  apply medial_not_initial in Hm. congruence.
Qed.

Ltac split_matches_in H :=
  repeat match type of H with
         | context [match ?x with _ => _ end] =>
             lazymatch x with
             | context [match _ with _ => _ end] => fail
             | _ => destruct x
             end
         end.

(** No iteration jumps over an initial that is followed by a medial: the
    initial is never taken for a batchim, since a vowel comes after it, and
    it is no medial. *)
Lemma step_stops_at_opening (pre : str) (i m : Z) (tl : str)
    (n : nat) (out : list str) :
  isInitial [i] = true -> isMedial [m] = true -> pre <> [] ->
  composeHangul_step (pre ++ i :: m :: tl) (O, []) = Some (n, out) ->
  (n <= length pre)%nat.
Proof.
  intros Hi Hm Hne Hstep.
  pose proof (initial_not_medial i Hi) as Him.
  destruct pre as [|a [|b [|c pre]]]; [contradiction| | |].
  - cbn [app] in Hstep. unfold composeHangul_step in Hstep.
    cbn [JS.get nth_error option_map Nat.add] in Hstep.
    rewrite !when_single, ?Hm, ?Him in Hstep.
    split_matches_in Hstep; injection Hstep as <- _; cbn [length]; lia.
  - cbn [app] in Hstep. unfold composeHangul_step in Hstep.
    cbn [JS.get nth_error option_map Nat.add] in Hstep.
    rewrite !when_single, ?Hm, ?Him in Hstep.
    split_matches_in Hstep; injection Hstep as <- _; cbn [length]; lia.
  - pose proof (composeHangul_step_progress
                  ((a :: b :: c :: pre) ++ i :: m :: tl) O []) as Hprog.
    rewrite Hstep in Hprog. cbn [length]. lia.
Qed.

(** Whatever comes before, the scan arrives with its cursor on an initial
    that is followed by a medial. *)
Lemma composeHangul_reaches (i m : Z) (tl : str) :
  isInitial [i] = true -> isMedial [m] = true ->
  forall pre,
    exists before,
      composeHangul (pre ++ i :: m :: tl)
      = option_map (app before) (composeHangul (i :: m :: tl))
      /\ (pre = [] -> before = []).
Proof.
  intros Hi Hm pre.
  remember (length pre) as len eqn:Hlen. revert pre Hlen.
  induction len as [len IH] using lt_wf_ind. intros pre Hlen.
  destruct pre as [|c pre].
  - exists []. split; [|reflexivity].
    cbn [app]. now destruct (composeHangul (i :: m :: tl)).
  - destruct (composeHangul_step_advance c (pre ++ i :: m :: tl))
      as (n & out & Hstep).
    pose proof (step_stops_at_opening (c :: pre) i m tl _ _ Hi Hm
                  ltac:(discriminate) Hstep) as Hstop.
    change ((c :: pre) ++ i :: m :: tl) with (c :: pre ++ i :: m :: tl).
    rewrite (composeHangul_unfold _ _ _ _ Hstep).
    change (c :: pre ++ i :: m :: tl) with ((c :: pre) ++ i :: m :: tl).
    rewrite skipn_app.
    replace (S n - length (c :: pre))%nat with O by lia. cbn [skipn app].
    destruct (IH (length (skipn n pre))) with (pre := skipn n pre)
      as (before & Hrun & _).
    + rewrite length_skipn. cbn [length] in Hlen. lia.
    + reflexivity.
    + exists (concat out ++ before). split; [|discriminate].
      cbn [skipn] in *. rewrite Hrun.
      destruct (composeHangul (i :: m :: tl)); cbn [option_map];
        [now rewrite app_assoc|reflexivity].
Qed.

(** C4. An initial jamo, a medial jamo and a final jamo that are followed by
    a character that is not a medial, or by the end of the input, are
    composed into the one syllable whose code point is
    BASE + (initialIndex * 21 + medialIndex) * 28 + finalIndex, each index
    being the position of the jamo in its table.  This holds wherever the
    three jamo stand: [before] is the output for the text in front of them
    (empty when nothing is in front) and the scan goes on after them. *)
Theorem compose_initial_medial_final
    (ii mi fi : nat) (i m f : Z) (pre rest : str) :
  nth_error INITIALS ii = Some i ->
  nth_error MEDIALS mi = Some m ->
  nth_error FINALS fi = Some f ->
  isFinal [f] = true ->
  next_is_medial rest = false ->
  exists before tail,
    composeHangul rest = Some tail
    /\ composeHangul (pre ++ i :: m :: f :: rest)
       = Some (before
               ++ HANGUL_BASE
                  + (Z.of_nat ii * 21 + Z.of_nat mi) * 28 + Z.of_nat fi
               :: tail)
    /\ (pre = [] -> before = []).
Proof.
  intros Hi Hm Hf Hfinal Hnext.
  destruct (three_jamo_at_cursor ii mi fi i m f rest Hi Hm Hf Hfinal Hnext)
    as (tail & Htail & Hrun).
  destruct (composeHangul_reaches i m (f :: rest)
              (proj2 (isInitial_In i) (nth_error_In _ _ Hi))
              (proj2 (isMedial_In m) (nth_error_In _ _ Hm)) pre)
    as (before & Hpre & Hnil).
  exists before, tail. split; [exact Htail|]. split; [|exact Hnil].
  rewrite Hpre, Hrun. reflexivity.
Qed.

Lemma compose_initial_medial_final_witness :
  exists before tail,
    composeHangul (utf16 "!") = Some tail
    /\ composeHangul (utf16 "보ㄴ" ++ utf16 "ㄱㅏㄴ!")
       = Some (before ++ HANGUL_BASE + (0 * 21 + 0) * 28 + 4 :: tail)
    /\ (utf16 "보ㄴ" = [] -> before = []).
Proof.
  apply (compose_initial_medial_final 0 0 4 12593 12623 12596
           (utf16 "보ㄴ") [33]); reflexivity.
Defined.

(** C5, as the code has it.  Given an initial jamo, a medial jamo, a
    candidate final jamo and a medial jamo in a row, wherever they stand,
    the candidate final is not consumed as a batchim: the first two jamo are
    emitted as an initial+medial syllable with no final, and the scan
    resumes at the candidate final.  When the candidate is also a valid
    initial jamo it becomes the initial of the next emitted syllable; a
    candidate that is not an initial (a compound final) is emitted
    unchanged, and so is the vowel after it. *)
Theorem lookahead_keeps_candidate_final (i m f m2 : Z) (pre rest : str) :
  isInitial [i] = true ->
  isMedial [m] = true ->
  isFinal [f] = true ->
  isMedial [m2] = true ->
  exists before s1 tail,
    composeHangul (f :: m2 :: rest) = Some tail
    /\ composeHangul (pre ++ i :: m :: f :: m2 :: rest)
       = Some (before ++ s1 :: tail)
    /\ (pre = [] -> before = [])
    /\ decomposeHangul [s1] = Some (mkJamo (Some [i]) (Some [m]) (Some []))
    /\ (isInitial [f] = true ->
        exists s2 tail' d,
          tail = s2 :: tail'
          /\ decomposeHangul [s2] = Some d
          /\ initial d = Some [f] /\ medial d = Some [m2])
    /\ (isInitial [f] = false ->
        exists tail',
          composeHangul rest = Some tail' /\ tail = f :: m2 :: tail').
Proof.
  intros Hi Hm Hf Hm2.
  destruct (lookahead_at_cursor i m f m2 rest Hi Hm Hf Hm2)
    as (s1 & tail & Htail & Hrun & Hd & Hyes & Hno).
  destruct (composeHangul_reaches i m (f :: m2 :: rest) Hi Hm pre)
    as (before & Hpre & Hnil).
  exists before, s1, tail.
  split; [exact Htail|]. split; [now rewrite Hpre, Hrun|].
  split; [exact Hnil|]. split; [exact Hd|]. split; assumption.
Qed.

Lemma lookahead_keeps_candidate_final_witness :
  exists before s1 tail,
    composeHangul (utf16 "ㄴㅏ") = Some tail
    /\ composeHangul (utf16 "가" ++ utf16 "ㄱㅏㄴㅏ") = Some (before ++ s1 :: tail)
    /\ (utf16 "가" = [] -> before = [])
    /\ decomposeHangul [s1]
       = Some (mkJamo (Some (utf16 "ㄱ")) (Some (utf16 "ㅏ")) (Some []))
    /\ (isInitial (utf16 "ㄴ") = true ->
        exists s2 tail' d,
          tail = s2 :: tail'
          /\ decomposeHangul [s2] = Some d
          /\ initial d = Some (utf16 "ㄴ") /\ medial d = Some (utf16 "ㅏ"))
    /\ (isInitial (utf16 "ㄴ") = false ->
        exists tail',
          composeHangul [] = Some tail'
          /\ tail = 12596 :: 12623 :: tail').
Proof.
  apply (lookahead_keeps_candidate_final 12593 12623 12596 12623
           (utf16 "가") []); reflexivity.
Defined.

(** C5 as stated fails for a candidate final that is not an initial: after
    "ㄱㅏㄳㅏ" gives "가", the compound final "ㄳ" opens no syllable and is
    left as a loose jamo. *)
Lemma lookahead_compound_final_counterexample :
  ~ (forall i m f m2 : Z,
        isInitial [i] = true -> isMedial [m] = true ->
        isFinal [f] = true -> isMedial [m2] = true ->
        exists s1 s2 tail d,
          composeHangul [i; m; f; m2] = Some (s1 :: s2 :: tail)
          /\ isHangulSyllable [s2] = true
          /\ decomposeHangul [s2] = Some d
          /\ initial d = Some [f]).
Proof.
  intros claim.
  destruct (claim 12593 12623 12595 12623)
    as (s1 & s2 & tail & d & Hrun & Hsyl & _); try reflexivity.
  vm_compute in Hrun. injection Hrun as <- <- <-.
  vm_compute in Hsyl. discriminate.
Qed.

(** ** Characters that no table mentions *)

Lemma WORD_MAP_KEYS_above : forallb head_above WORD_MAP_KEYS = true.
Proof. vm_compute. reflexivity. Qed.

Lemma tables_above :
  keys_above KATAKANA_COMPOUNDS = true
  /\ keys_above KATAKANA_SINGLE = true
  /\ keys_above HIRAGANA_SINGLE = true
  /\ keys_above KANJI_MAP = true.
Proof. vm_compute. repeat split. Qed.

Lemma indexOf_from_absent (p : Z) (pat : str) :
  forall s pos, ~ In p s -> JS.indexOf_from (p :: pat) s pos = -1.
Proof.
  induction s as [|x s IH]; intros pos Hnot; [reflexivity|].
  cbn [JS.indexOf_from JS.starts_with].
  destruct (Z.eqb_spec p x) as [->|Hne].
  - exfalso. apply Hnot. now left.
  - cbn [andb]. apply IH. intros Hin. apply Hnot. now right.
Qed.

Lemma includes_head_absent (s : str) (p : Z) (pat : str) :
  ~ In p s -> JS.includes s (p :: pat) = false.
Proof.
  intros Hnot. unfold JS.includes, JS.indexOf.
  now rewrite indexOf_from_absent.
Qed.

Section Untouched.

Variable text : str.
Hypothesis text_low : Forall (fun c => c < 12288) text.

Lemma low_absent (k : Z) : 12288 <= k -> ~ In k text.
Proof.
  intros Hk Hin. rewrite Forall_forall in text_low.
  specialize (text_low _ Hin). cbn in text_low. lia.
Qed.

Lemma apply_keys_untouched (keys : list str) :
  forallb head_above keys = true -> fold_left apply_key keys text = text.
Proof.
  induction keys as [|key keys IH]; [reflexivity|].
  cbn [forallb fold_left]. intros Hall.
  apply andb_true_iff in Hall as [Hkey Hall].
  destruct key as [|p pat]; [discriminate|]. cbn [head_above] in Hkey.
  apply Z.leb_le in Hkey.
  unfold apply_key at 2.
  rewrite (includes_head_absent text p pat (low_absent p Hkey)).
  exact (IH Hall).
Qed.

Lemma dictionary_pass_untouched : dictionary_pass text = text.
Proof. exact (apply_keys_untouched WORD_MAP_KEYS WORD_MAP_KEYS_above). Qed.

End Untouched.

Lemma match_compound_low (table : list (str * str)) (c : Z) (rest : str) :
  keys_above table = true -> c < 12288 ->
  match_compound table (c :: rest) 0 = None.
Proof.
  intros Hall Hc.
  induction table as [|[pattern hangul] table IH]; [reflexivity|].
  cbn [keys_above forallb fst] in Hall.
  apply andb_true_iff in Hall as [Hkey Hall].
  destruct pattern as [|p pat]; [discriminate|]. cbn [head_above] in Hkey.
  apply Z.leb_le in Hkey.
  cbn [match_compound]. unfold JS.substring, JS.str_eqb.
  cbn [length Nat.add Nat.sub skipn firstn].
  destruct (list_eq_dec Z.eq_dec _ _) as [Heq|_]; [|exact (IH Hall)].
  injection Heq as -> _. lia.
Qed.

Lemma prop_low (table : list (str * str)) (c : Z) :
  keys_above table = true -> c < 12288 -> JS.prop table [c] = None.
Proof.
  intros Hall Hc.
  induction table as [|[k v] table IH]; [reflexivity|].
  cbn [keys_above forallb fst] in Hall.
  apply andb_true_iff in Hall as [Hkey Hall].
  cbn [JS.prop]. rewrite (IH Hall). unfold JS.str_eqb.
  destruct (list_eq_dec Z.eq_dec k [c]) as [->|_]; [|reflexivity].
  cbn [head_above] in Hkey. apply Z.leb_le in Hkey. lia.
Qed.

Lemma phonetic_step_low (c : Z) (rest : str) :
  c < 12288 -> phonetic_step (c :: rest) (O, []) = Some (1%nat, [c]).
Proof.
  intros Hc. destruct tables_above as (Hkc & Hks & Hhs & Hkj).
  unfold phonetic_step. cbn [JS.get nth_error option_map Nat.add].
  rewrite (match_compound_low _ c rest Hkc Hc).
  rewrite (prop_low _ c Hks Hc), (prop_low _ c Hhs Hc), (prop_low _ c Hkj Hc).
  cbn [JS.truthy].
  replace (JS.str_eqb [c] PROLONGED) with false; [reflexivity|].
  unfold JS.str_eqb, PROLONGED.
  destruct (list_eq_dec Z.eq_dec [c] [12540]) as [[= ->]|_]; [lia|reflexivity].
Qed.

Lemma composeHangul_step_low (c : Z) (rest : str) :
  c < 12288 -> composeHangul_step (c :: rest) (O, []) = Some (1%nat, [[c]]).
Proof.
  intros Hc. unfold composeHangul_step.
  cbn [JS.get nth_error option_map Nat.add].
  replace (isHangulSyllable [c]) with false.
  2:{ symmetry. apply not_true_is_false.
      rewrite isHangulSyllable_range. lia. }
  replace (isInitial [c]) with false; [reflexivity|].
  symmetry. apply not_true_is_false. intros Hi.
  apply isInitial_In, In_nth_error in Hi as (ii & Hi).
  destruct (INITIALS_position _ _ Hi) as (_ & _ & Hrange). lia.
Qed.

Lemma phonetic_pass_low (text : str) :
  Forall (fun c => c < 12288) text -> phonetic_pass text = Some text.
Proof.
  induction 1 as [|c rest Hc _ IH]; [reflexivity|].
  rewrite (phonetic_unfold _ _ _ _ (phonetic_step_low c rest Hc)).
  cbn [skipn]. rewrite IH. reflexivity.
Qed.

Lemma composeHangul_low (text : str) :
  Forall (fun c => c < 12288) text -> composeHangul text = Some text.
Proof.
  induction 1 as [|c rest Hc _ IH]; [reflexivity|].
  rewrite (composeHangul_unfold _ _ _ _ (composeHangul_step_low c rest Hc)).
  cbn [skipn]. rewrite IH. reflexivity.
Qed.

(** Text below U+3000 (all of ASCII, Latin and general punctuation) goes
    through the three stages unchanged. *)
Lemma transliterate_low (text : str) :
  Forall (fun c => c < 12288) text -> transliterate text ko = Some text.
Proof.
  intros Hlow. unfold transliterate.
  destruct text as [|c rest]; [reflexivity|].
  rewrite (dictionary_pass_untouched _ Hlow).
  rewrite (phonetic_pass_low _ Hlow).
  exact (composeHangul_low _ Hlow).
Qed.

(** C8. For every input made only of ASCII digits and Latin punctuation,
    [transliterate(input, "ko")] returns the input unchanged. *)
Theorem transliterate_digits_punctuation (input : str) :
  forallb (fun c => is_ascii_digit c || is_latin_punctuation c) input = true ->
  transliterate input ko = Some input.
Proof.
  intros Hall. apply transliterate_low.
  rewrite forallb_forall in Hall. apply Forall_forall. intros c Hin.
  specialize (Hall c Hin). unfold is_ascii_digit, is_latin_punctuation in Hall.
  rewrite !orb_true_iff, !andb_true_iff, !Z.leb_le in Hall. lia.
Qed.

Lemma transliterate_digits_punctuation_witness :
  transliterate (utf16 "10:00-12:00") ko = Some (utf16 "10:00-12:00").
Proof.
  apply (transliterate_digits_punctuation (utf16 "10:00-12:00")).
  reflexivity.
Defined.

(** ** The single-katakana branch *)

(** A key of [KATAKANA_SINGLE] with a non-empty value, reached with no
    compound match and not the prolonged-sound marker, emits its value and
    moves the cursor by one. *)
Lemma katakana_single_emits (result : str) (i : nat) (acc : str)
    (c : Z) (v0 : Z) (v : str) :
  JS.get result i = Some [c] ->
  match_compound KATAKANA_COMPOUNDS result i = None ->
  JS.str_eqb [c] PROLONGED = false ->
  JS.prop KATAKANA_SINGLE [c] = Some (v0 :: v) ->
  phonetic_step result (i, acc) = Some ((i + 1)%nat, acc ++ v0 :: v).
Proof.
  intros Hget Hnone Hlong Hprop. unfold phonetic_step.
  now rewrite Hget, Hnone, Hlong, Hprop.
Qed.

(** C6 fails on the small tsu.  Its table value is the empty string, which
    the truthiness test of the single-katakana branch takes for a missing
    entry: the scan falls through to the pass-through branch and emits the
    character itself instead of its (empty) mapped value. *)
Theorem small_tsu_passes_through :
  JS.prop KATAKANA_SINGLE (utf16 "ッ") = Some []
  /\ match_compound KATAKANA_COMPOUNDS (utf16 "ッ") 0 = None
  /\ phonetic_step (utf16 "ッ") (O, []) = Some (1%nat, utf16 "ッ")
  /\ transliterate (utf16 "ッ") ko = Some (utf16 "ッ").
Proof. vm_compute. repeat split. Qed.

(** ** Scenarios *)

(** C7 as stated fails in its second half: no key of the word dictionary
    covers the three characters of "東京都".  The dictionary pass replaces
    the two-character key "東京" and leaves "都" in place. *)
Lemma tokyo_to_not_a_dictionary_key_counterexample :
  JS.prop WORD_MAP (utf16 "東京都") = None
  /\ existsb (fun key => JS.str_eqb key (utf16 "東京都")) WORD_MAP_KEYS = false
  /\ dictionary_pass (utf16 "東京都") = utf16 "도쿄都"
  /\ dictionary_pass (utf16 "東京都") <> utf16 "도쿄도".
Proof. vm_compute. repeat split. discriminate. Qed.

(** C7, as the code has it: [transliterate("東京都", "ko")] returns "도쿄도";
    the word dictionary replaces the key "東京" by "도쿄", and the remaining
    "都" gets its reading "도" from the kanji fallback table. *)
Theorem transliterate_tokyo_to :
  transliterate (utf16 "東京都") ko = Some (utf16 "도쿄도")
  /\ JS.prop WORD_MAP (utf16 "東京") = Some (utf16 "도쿄")
  /\ dictionary_pass (utf16 "東京都") = utf16 "도쿄" ++ utf16 "都"
  /\ JS.prop KANJI_MAP (utf16 "都") = Some (utf16 "도")
  /\ phonetic_pass (utf16 "도쿄" ++ utf16 "都") = Some (utf16 "도쿄도").
Proof. vm_compute. repeat split. Qed.

(** C9. [transliterate(., "ko")] is not idempotent: for "恵です比寿" the
    first pass removes the copula and leaves "恵比寿", a dictionary key that
    only the second pass replaces. *)
Theorem transliterate_ko_not_idempotent :
  exists x once twice,
    transliterate x ko = Some once
    /\ transliterate once ko = Some twice
    /\ once <> twice.
Proof.
  exists (utf16 "恵です比寿"), (utf16 "恵比寿"), (utf16 "에비스").
  split; [vm_compute; reflexivity|].
  split; [vm_compute; reflexivity|].
  vm_compute. discriminate.
Qed.

(** ** The dictionary pass *)

(** *** Order of the keys *)


Lemma insert_stable_perm {A} (lt : A -> A -> bool) (x : A) (l : list A) :
  Permutation (JS.insert_stable lt x l) (x :: l).
Proof.
  induction l as [|y l IH]; cbn [JS.insert_stable]; [reflexivity|].
  destruct (lt x y); [reflexivity|].
  rewrite IH. apply perm_swap.
Qed.

Lemma sort_perm_acc {A} (lt : A -> A -> bool) (l : list A) :
  forall acc,
    Permutation (fold_left (fun acc x => JS.insert_stable lt x acc) l acc)
                (acc ++ l).
Proof.
  induction l as [|x l IH]; intros acc; cbn [fold_left].
  - now rewrite app_nil_r.
  - rewrite IH, insert_stable_perm. apply Permutation_middle.
Qed.

Lemma sort_perm {A} (lt : A -> A -> bool) (l : list A) :
  Permutation (JS.sort lt l) l.
Proof. exact (sort_perm_acc lt l []). Qed.



Lemma WORD_MAP_KEYS_eq :
  WORD_MAP_KEYS = JS.sort longer_first (JS.keys WORD_MAP).
Proof. vm_compute. reflexivity. Qed.


Lemma WORD_MAP_KEYS_perm : Permutation WORD_MAP_KEYS (JS.keys WORD_MAP).
Proof. rewrite WORD_MAP_KEYS_eq. apply sort_perm. Qed.

Lemma WORD_MAP_keys_distinct : JS.keys WORD_MAP = map fst WORD_MAP.
Proof. vm_compute. reflexivity. Qed.


(** *** Global replacement next to text that shares no character with the key *)

Lemma starts_with_length (pat s : str) :
  JS.starts_with pat s = true -> (length pat <= length s)%nat.
Proof.
  revert s. induction pat as [|p pat IH]; intros s; cbn [length]; [lia|].
  destruct s as [|c s]; cbn [JS.starts_with length]; [discriminate|].
  intros H. apply andb_true_iff in H as [_ H]. specialize (IH s H). lia.
Qed.

Lemma no_match_replace (pat rep : str) :
  forall s pos, 0 <= pos -> JS.indexOf_from pat s pos < 0 ->
    JS.replace_scan pat rep 0 s = s.
Proof.
  induction s as [|x s IH]; intros pos Hpos Hneg; [reflexivity|].
  cbn [JS.indexOf_from] in Hneg. cbn [JS.replace_scan].
  destruct (JS.starts_with pat (x :: s)); [lia|].
  f_equal. apply (IH (pos + 1)); [lia|exact Hneg].
Qed.

(** The guard [result.includes(key)] changes nothing: without an occurrence
    the replacement is the identity. *)
Lemma apply_key_replace (result key : str) :
  key <> [] ->
  apply_key result key
  = JS.replaceAll result key (JS.to_string (JS.prop WORD_MAP key)).
Proof.
  intros Hkey. unfold apply_key, JS.includes, JS.indexOf.
  destruct (Z.leb_spec 0 (JS.indexOf_from key result 0)) as [_|Hneg];
    [reflexivity|].
  destruct key as [|p pat]; [contradiction|]. cbn [JS.replaceAll].
  symmetry. apply (no_match_replace _ _ _ 0); [lia|exact Hneg].
Qed.

Lemma replaceAll_scan (s pat rep : str) :
  pat <> [] -> JS.replaceAll s pat rep = JS.replace_scan pat rep 0 s.
Proof. destruct pat; [contradiction|reflexivity]. Qed.





Section Locality.

Variables pat rep : str.
Hypothesis pat_nonempty : pat <> [].

Lemma apart_tail c t : apart pat (c :: t) -> apart pat t.
Proof. intros H x Hx. apply H. now right. Qed.

Lemma apart_head_apart t : apart pat t -> head_apart pat t.
Proof. destruct t as [|c t]; [exact (fun _ => I)|]. intros H. apply H. now left. Qed.

Lemma starts_with_apart_head (c : Z) (s : str) :
  ~ In c pat -> JS.starts_with pat (c :: s) = false.
Proof.
  destruct pat as [|p pat']; [contradiction|].
  intros Hc. cbn [JS.starts_with].
  destruct (Z.eqb_spec p c) as [->|_]; [|reflexivity].
  exfalso. apply Hc. now left.
Qed.

(** A match cannot reach into text that starts with a foreign character. *)
Lemma starts_with_before (post : str) :
  head_apart pat post ->
  forall sub a,
    incl sub pat ->
    JS.starts_with sub (a ++ post) = JS.starts_with sub a.
Proof.
  intros Hpost. induction sub as [|p sub IH]; intros a Hsub;
    [now destruct (a ++ post), a|].
  destruct a as [|x a]; cbn [app JS.starts_with].
  - destruct post as [|c post]; [reflexivity|].
    destruct (Z.eqb_spec p c) as [->|_]; [|reflexivity].
    exfalso. apply Hpost, Hsub. now left.
  - rewrite IH; [reflexivity|].
    intros y Hy. apply Hsub. now right.
Qed.

Lemma replace_scan_apart (t : str) :
  apart pat t -> JS.replace_scan pat rep 0 t = t.
Proof.
  induction t as [|c t IH]; intros Ht; [reflexivity|].
  cbn [JS.replace_scan].
  rewrite starts_with_apart_head by (apply Ht; now left).
  f_equal. apply IH. exact (apart_tail _ _ Ht).
Qed.

Lemma replace_scan_after (pre s : str) :
  apart pat pre ->
  JS.replace_scan pat rep 0 (pre ++ s) = pre ++ JS.replace_scan pat rep 0 s.
Proof.
  induction pre as [|c pre IH]; intros Hpre; [reflexivity|].
  cbn [app JS.replace_scan].
  rewrite starts_with_apart_head by (apply Hpre; now left).
  f_equal. apply IH. exact (apart_tail _ _ Hpre).
Qed.

Lemma replace_scan_before (post : str) :
  head_apart pat post ->
  forall a skip, (skip <= length a)%nat ->
    JS.replace_scan pat rep skip (a ++ post)
    = JS.replace_scan pat rep skip a ++ JS.replace_scan pat rep 0 post.
Proof.
  intros Hpost. induction a as [|x a IH]; intros skip Hskip.
  - cbn [length] in Hskip. now replace skip with O by lia.
  - cbn [app JS.replace_scan length] in *.
    destruct skip as [|skip]; [|apply IH; lia].
    change (x :: a ++ post) with ((x :: a) ++ post).
    rewrite (starts_with_before post Hpost pat (x :: a)) by apply incl_refl.
    destruct (JS.starts_with pat (x :: a)) eqn:Hstart.
    + apply starts_with_length in Hstart. cbn [length] in Hstart.
      rewrite IH by lia. now rewrite app_assoc.
    + cbn [app]. now rewrite IH by lia.
Qed.


Lemma replaceAll_between (pre s post : str) :
  apart pat pre -> apart pat post ->
  JS.replaceAll (pre ++ s ++ post) pat rep
  = pre ++ JS.replaceAll s pat rep ++ post.
Proof.
  intros Hpre Hpost. rewrite !replaceAll_scan by assumption.
  rewrite replace_scan_after by assumption.
  rewrite replace_scan_before by (lia || now apply apart_head_apart).
  now rewrite (replace_scan_apart post Hpost).
Qed.

End Locality.

Lemma key_free_apart (t key : str) :
  key_free t = true -> In key WORD_MAP_KEYS -> apart key t.
Proof.
  intros Hfree Hkey c Hc Hin. unfold key_free in Hfree.
  rewrite forallb_forall in Hfree. specialize (Hfree c Hc).
  apply negb_true_iff in Hfree.
  assert (Hex : existsb (fun key => existsb (Z.eqb c) key) WORD_MAP_KEYS = true).
  { apply existsb_exists. exists key. split; [assumption|].
    apply existsb_exists. exists c. split; [assumption|apply Z.eqb_refl]. }
  congruence.
Qed.

Lemma WORD_MAP_KEYS_nonempty (key : str) : In key WORD_MAP_KEYS -> key <> [].
Proof.
  intros Hin ->.
  pose proof WORD_MAP_KEYS_above as Hall. rewrite forallb_forall in Hall.
  specialize (Hall _ Hin). discriminate.
Qed.

Lemma apply_keys_between (pre post : str) (keys : list str) :
  incl keys WORD_MAP_KEYS ->
  key_free pre = true -> key_free post = true ->
  forall s,
    fold_left apply_key keys (pre ++ s ++ post)
    = pre ++ fold_left apply_key keys s ++ post.
Proof.
  intros Hincl Hpre Hpost.
  induction keys as [|key keys IH]; intros s; [reflexivity|].
  cbn [fold_left].
  assert (Hin : In key WORD_MAP_KEYS) by (apply Hincl; now left).
  pose proof (WORD_MAP_KEYS_nonempty key Hin) as Hne.
  rewrite !apply_key_replace by assumption.
  rewrite replaceAll_between
    by (assumption || now apply key_free_apart).
  apply IH. intros k Hk. apply Hincl. now right.
Qed.

Lemma dictionary_pass_between (pre s post : str) :
  key_free pre = true -> key_free post = true ->
  dictionary_pass (pre ++ s ++ post) = pre ++ dictionary_pass s ++ post.
Proof.
  intros Hpre Hpost. unfold dictionary_pass.
  now apply apply_keys_between; [apply incl_refl| |].
Qed.

(** On its own, every key is replaced by its dictionary value: no longer key
    fits, and no value contains a key that is tried later. *)
Lemma dictionary_pass_key (key : str) :
  In key WORD_MAP_KEYS ->
  dictionary_pass key = JS.to_string (JS.prop WORD_MAP key).
Proof.
  assert (Hall : forallb
            (fun k => JS.str_eqb (dictionary_pass k)
                        (JS.to_string (JS.prop WORD_MAP k)))
            WORD_MAP_KEYS = true) by (vm_compute; reflexivity).
  intros Hin. rewrite forallb_forall in Hall.
  exact (str_eqb_eq _ _ (Hall _ Hin)).
Qed.

(** *** The turn of one key *)


Lemma keys_before_incl (key : str) (keys : list str) :
  incl (keys_before key keys) keys.
Proof.
  induction keys as [|k keys IH]; cbn [keys_before]; [easy|].
  destruct (JS.str_eqb k key); [easy|].
  intros x [<-|Hx]; [now left|right; now apply IH].
Qed.



Lemma apply_keys_absent (keys : list str) (text : str) :
  forallb (fun k => negb (JS.includes text k)) keys = true ->
  fold_left apply_key keys text = text.
Proof.
  induction keys as [|k keys IH]; [reflexivity|].
  cbn [forallb fold_left]. intros Hall.
  apply andb_true_iff in Hall as [Hk Hall]. apply negb_true_iff in Hk.
  unfold apply_key at 2. rewrite Hk. exact (IH Hall).
Qed.


Lemma WORD_MAP_values_key_free (key : str) :
  In key WORD_MAP_KEYS ->
  key_free (JS.to_string (JS.prop WORD_MAP key)) = true.
Proof.
  assert (Hall : forallb
            (fun k => key_free (JS.to_string (JS.prop WORD_MAP k)))
            WORD_MAP_KEYS = true) by (vm_compute; reflexivity).
  intros Hin. rewrite forallb_forall in Hall. exact (Hall _ Hin).
Qed.




Example tokyo_station_between :
  dictionary_pass (utf16 "池袋から東京駅まで") = utf16 "이케부쿠로から도쿄역まで".
Proof. vm_compute. reflexivity. Qed.


(** * Further properties of the engine *)

(** *** Decomposition is the inverse of composition *)

Lemma get_defined (s : str) (n : Z) :
  0 <= n < Z.of_nat (length s) ->
  exists c, nth_error s (Z.to_nat n) = Some c.
Proof.
  intros Hn.
  destruct (nth_error s (Z.to_nat n)) as [c|] eqn:Hc; [eauto|].
  apply nth_error_None in Hc. lia.
Qed.

Lemma syllable_code_split (c : Z) :
  44032 <= c <= 55203 ->
  exists ii mi fi,
    c = syllable_code ii mi fi /\ (ii < 19)%nat /\ (mi < 21)%nat /\ (fi < 28)%nat.
Proof.
  intros Hc. set (n := c - 44032).
  exists (Z.to_nat (n / 588)), (Z.to_nat (n mod 588 / 28)), (Z.to_nat (n mod 28)).
  pose proof (Z.div_pos n 588 ltac:(lia) ltac:(lia)) as Hq0.
  assert (Hq : n / 588 < 19) by (apply Z.div_lt_upper_bound; lia).
  pose proof (Z.mod_pos_bound n 588 ltac:(lia)) as Hr.
  pose proof (Z.div_pos (n mod 588) 28 ltac:(lia) ltac:(lia)) as Hm0.
  assert (Hm : n mod 588 / 28 < 21) by (apply Z.div_lt_upper_bound; lia).
  pose proof (Z.mod_pos_bound n 28 ltac:(lia)) as Hf.
  repeat split; try lia.
  unfold syllable_code, HANGUL_BASE. rewrite !Z2Nat.id by lia.
  pose proof (Z.div_mod n 588 ltac:(lia)) as H1.
  pose proof (Z.div_mod (n mod 588) 28 ltac:(lia)) as H2.
  assert (H3 : n mod 28 = (n mod 588) mod 28).
  { rewrite H1 at 1.
    replace (588 * (n / 588) + n mod 588)
      with (n mod 588 + 21 * (n / 588) * 28) by lia.
    apply Z.mod_add. lia. }
  subst n. lia.
Qed.

(** X1. On the syllable block [decomposeHangul] is the inverse of
    [composeHangulSyllable]: for every precomposed syllable it returns an
    initial and a medial of the tables and a final that is empty or a
    non-null table entry, and these compose back to the same syllable. *)
Theorem decompose_then_compose (c : Z) :
  isHangulSyllable [c] = true ->
  exists i m final,
    decomposeHangul [c] = Some (mkJamo (Some [i]) (Some [m]) (Some final))
    /\ In i INITIALS /\ In m MEDIALS
    /\ (final = [] \/ exists f, In f FINALS /\ f <> 0 /\ final = [f])
    /\ composeHangulSyllable [i] [m] final = [c].
Proof.
  intros Hyes. apply isHangulSyllable_range in Hyes.
  destruct (syllable_code_split c Hyes) as (ii & mi & fi & -> & Hii & Hmi & Hfi).
  destruct (nth_error INITIALS ii) as [i|] eqn:Hi;
    [|apply nth_error_None in Hi; cbn [INITIALS length] in Hi; lia].
  destruct (nth_error MEDIALS mi) as [m|] eqn:Hm;
    [|apply nth_error_None in Hm; cbn [MEDIALS length] in Hm; lia].
  assert (Hslot : exists final, final_slot fi final
            /\ (final = [] \/ exists f, In f FINALS /\ f <> 0 /\ final = [f])).
  { destruct fi as [|fi]; [exists []; split; [reflexivity|now left]|].
    destruct (nth_error FINALS (S fi)) as [f|] eqn:Hf;
      [|apply nth_error_None in Hf; cbn [FINALS length] in Hf; lia].
    exists [f]. split; [cbn [final_slot]; eauto|]. right. exists f.
    destruct (FINALS_position _ _ Hf) as (_ & _ & Hz & _).
    repeat split; [eapply nth_error_In; eassumption|].
    intros H0. apply Hz in H0. discriminate. }
  destruct Hslot as (final & Hslot & Hshape).
  exists i, m, final.
  split; [exact (decomposeHangul_code ii mi fi i m final Hi Hm Hslot)|].
  split; [eapply nth_error_In; eassumption|].
  split; [eapply nth_error_In; eassumption|].
  split; [exact Hshape|].
  exact (composeHangulSyllable_code ii mi fi i m final Hi Hm Hslot).
Qed.

Lemma decompose_then_compose_witness :
  exists i m final,
    decomposeHangul (utf16 "한")
    = Some (mkJamo (Some [i]) (Some [m]) (Some final))
    /\ In i INITIALS /\ In m MEDIALS
    /\ (final = [] \/ exists f, In f FINALS /\ f <> 0 /\ final = [f])
    /\ composeHangulSyllable [i] [m] final = utf16 "한".
Proof. apply (decompose_then_compose 54620). reflexivity. Defined.

(** X2. [composeHangulSyllable] is one-to-one on the jamo of the tables:
    two combinations that give the same result are the same combination,
    and the result is a code unit of the syllable block. *)
Theorem compose_syllable_injective (i1 m1 i2 m2 : Z) (final1 final2 : str) :
  In i1 INITIALS -> In m1 MEDIALS ->
  final1 = [] \/ (exists f, In f FINALS /\ f <> 0 /\ final1 = [f]) ->
  In i2 INITIALS -> In m2 MEDIALS ->
  final2 = [] \/ (exists f, In f FINALS /\ f <> 0 /\ final2 = [f]) ->
  composeHangulSyllable [i1] [m1] final1
  = composeHangulSyllable [i2] [m2] final2 ->
  i1 = i2 /\ m1 = m2 /\ final1 = final2
  /\ isHangulSyllable (composeHangulSyllable [i1] [m1] final1) = true.
Proof.
  assert (Hslot : forall final,
            final = [] \/ (exists f, In f FINALS /\ f <> 0 /\ final = [f]) ->
            exists fi, final_slot fi final).
  { intros final [->|(f & Hin & Hnz & ->)]; [now exists O|].
    apply In_nth_error in Hin as (fi & Hfi).
    exists fi. destruct fi as [|fi]; cbn [final_slot]; [|eauto].
    destruct (FINALS_position _ _ Hfi) as (_ & _ & Hz & _).
    exfalso. apply Hnz, Hz. reflexivity. }
  intros Hi1 Hm1 Hf1 Hi2 Hm2 Hf2.
  apply In_nth_error in Hi1 as (ii1 & Hi1), Hm1 as (mi1 & Hm1).
  apply In_nth_error in Hi2 as (ii2 & Hi2), Hm2 as (mi2 & Hm2).
  destruct (Hslot _ Hf1) as (fi1 & Hs1). destruct (Hslot _ Hf2) as (fi2 & Hs2).
  rewrite (composeHangulSyllable_code ii1 mi1 fi1 i1 m1 final1 Hi1 Hm1 Hs1).
  rewrite (composeHangulSyllable_code ii2 mi2 fi2 i2 m2 final2 Hi2 Hm2 Hs2).
  intros [= Hcode].
  pose proof (decomposeHangul_code ii1 mi1 fi1 i1 m1 final1 Hi1 Hm1 Hs1) as D1.
  pose proof (decomposeHangul_code ii2 mi2 fi2 i2 m2 final2 Hi2 Hm2 Hs2) as D2.
  rewrite Hcode, D2 in D1. injection D1 as -> -> ->.
  repeat split.
  destruct (INITIALS_position _ _ Hi1) as (_ & Hb1 & _).
  destruct (MEDIALS_position _ _ Hm1) as (_ & Hb2 & _).
  destruct (final_slot_index _ _ Hs1) as (_ & Hb3).
  apply isHangulSyllable_range. unfold syllable_code, HANGUL_BASE. lia.
Qed.

Lemma compose_syllable_injective_witness :
  12593 = 12593 /\ 12623 = 12623 /\ utf16 "ㄴ" = utf16 "ㄴ"
  /\ isHangulSyllable
       (composeHangulSyllable (utf16 "ㄱ") (utf16 "ㅏ") (utf16 "ㄴ")) = true.
Proof.
  apply (compose_syllable_injective 12593 12623 12593 12623 [12596] [12596]).
  - vm_compute. tauto.
  - vm_compute. tauto.
  - right. exists 12596. vm_compute. repeat split; try tauto. discriminate.
  - vm_compute. tauto.
  - vm_compute. tauto.
  - right. exists 12596. vm_compute. repeat split; try tauto. discriminate.
  - reflexivity.
Defined.



(** *** The syllable branch of the composition scan *)

(** No iteration jumps over a character that is neither a medial nor a
    final jamo: only such jamo are consumed by a lookahead. *)
Lemma step_stops_at_solid (pre : str) (x : Z) (tl : str)
    (n : nat) (out : list str) :
  isMedial [x] = false -> isFinal [x] = false -> pre <> [] ->
  composeHangul_step (pre ++ x :: tl) (O, []) = Some (n, out) ->
  (n <= length pre)%nat.
Proof.
  intros Hxm Hxf Hne Hstep.
  destruct pre as [|a [|b [|c pre]]]; [contradiction| | |].
  - cbn [app] in Hstep. unfold composeHangul_step in Hstep.
    cbn [JS.get nth_error option_map Nat.add] in Hstep.
    rewrite !when_single, ?Hxm, ?Hxf in Hstep.
    split_matches_in Hstep; injection Hstep as <- _; cbn [length]; lia.
  - cbn [app] in Hstep. unfold composeHangul_step in Hstep.
    cbn [JS.get nth_error option_map Nat.add] in Hstep.
    rewrite !when_single, ?Hxm, ?Hxf in Hstep.
    split_matches_in Hstep; injection Hstep as <- _; cbn [length]; lia.
  - pose proof (composeHangul_step_progress
                  ((a :: b :: c :: pre) ++ x :: tl) O []) as Hprog.
    rewrite Hstep in Hprog. cbn [length]. lia.
Qed.

Lemma composeHangul_reaches_solid (x : Z) (tl : str) :
  isMedial [x] = false -> isFinal [x] = false ->
  forall pre,
    exists before,
      composeHangul (pre ++ x :: tl)
      = option_map (app before) (composeHangul (x :: tl))
      /\ (pre = [] -> before = []).
Proof.
  intros Hxm Hxf pre.
  remember (length pre) as len eqn:Hlen. revert pre Hlen.
  induction len as [len IH] using lt_wf_ind. intros pre Hlen.
  destruct pre as [|c pre].
  - exists []. split; [|reflexivity].
    cbn [app]. now destruct (composeHangul (x :: tl)).
  - destruct (composeHangul_step_advance c (pre ++ x :: tl))
      as (n & out & Hstep).
    pose proof (step_stops_at_solid (c :: pre) x tl _ _ Hxm Hxf
                  ltac:(discriminate) Hstep) as Hstop.
    change ((c :: pre) ++ x :: tl) with (c :: pre ++ x :: tl).
    rewrite (composeHangul_unfold _ _ _ _ Hstep).
    change (c :: pre ++ x :: tl) with ((c :: pre) ++ x :: tl).
    rewrite skipn_app.
    replace (S n - length (c :: pre))%nat with O by lia. cbn [skipn app].
    destruct (IH (length (skipn n pre))) with (pre := skipn n pre)
      as (before & Hrun & _).
    + rewrite length_skipn. cbn [length] in Hlen. lia.
    + reflexivity.
    + exists (concat out ++ before). split; [|discriminate].
      cbn [skipn] in *. rewrite Hrun.
      destruct (composeHangul (x :: tl)); cbn [option_map];
        [now rewrite app_assoc|reflexivity].
Qed.

Lemma syllable_solid (s : Z) :
  isHangulSyllable [s] = true -> isMedial [s] = false /\ isFinal [s] = false.
Proof.
  intros Hs. apply isHangulSyllable_range in Hs. split.
  - apply not_true_is_false. intros Hm.
    apply medial_not_syllable in Hm.
    assert (isHangulSyllable [s] = true) by (apply isHangulSyllable_range; lia).
    congruence.
  - apply not_true_is_false. intros Hf.
    apply final_not_syllable in Hf.
    assert (isHangulSyllable [s] = true) by (apply isHangulSyllable_range; lia).
    congruence.
Qed.

Lemma decompose_fields (s i m : Z) (final : str) :
  decomposeHangul [s] = Some (mkJamo (Some [i]) (Some [m]) (Some final)) ->
  isHangulSyllable [s] = true /\ In i INITIALS /\ In m MEDIALS.
Proof.
  unfold decomposeHangul, isHangulSyllable.
  cbn [JS.charCodeAt0 nth_error].
  destruct (Z.ltb_spec s HANGUL_BASE) as [|Hlo]; [discriminate|].
  destruct (Z.ltb_spec (HANGUL_BASE + 11171) s) as [|Hhi]; [discriminate|].
  cbn [orb]. unfold JS.get. intros [= Hi Hm _].
  split; [apply andb_true_iff; split; apply Z.leb_le; lia|].
  split.
  - destruct (nth_error INITIALS _) as [ci|] eqn:E; [|discriminate].
    injection Hi as <-. eapply nth_error_In; eassumption.
  - destruct (nth_error MEDIALS _) as [cm|] eqn:E; [|discriminate].
    injection Hm as <-. eapply nth_error_In; eassumption.
Qed.

(** X4. A precomposed syllable without a final that is followed by a
    final jamo, itself followed by no medial, takes the jamo as its
    batchim: wherever the two stand, they come out as the one syllable with
    the same initial and medial and that final. *)
Theorem batchim_joins_open_syllable (s i m f : Z) (pre rest : str) :
  decomposeHangul [s] = Some (mkJamo (Some [i]) (Some [m]) (Some [])) ->
  isFinal [f] = true ->
  next_is_medial rest = false ->
  exists before joined tail,
    composeHangul rest = Some tail
    /\ composeHangul (pre ++ s :: f :: rest) = Some (before ++ joined :: tail)
    /\ (pre = [] -> before = [])
    /\ decomposeHangul [joined]
       = Some (mkJamo (Some [i]) (Some [m]) (Some [f])).
Proof.
  intros Hd Hf Hnext.
  destruct (decompose_fields _ _ _ _ Hd) as (Hs & Hi & Hm).
  destruct (syllable_solid s Hs) as (Hsm & Hsf).
  apply In_nth_error in Hi as (ii & Hi). apply In_nth_error in Hm as (mi & Hm).
  pose proof Hf as Hfin. apply isFinal_In in Hfin as [Hfin Hnz].
  apply In_nth_error in Hfin as (fi & Hfi).
  assert (Hslot : final_slot fi [f]).
  { destruct fi as [|fi]; cbn [final_slot]; [|eauto].
    destruct (FINALS_position _ _ Hfi) as (_ & _ & Hz & _).
    exfalso. apply Hnz, Hz. reflexivity. }
  destruct (composeHangul_total rest) as (tail & Htail).
  destruct (composeHangul_reaches_solid s (f :: rest) Hsm Hsf pre)
    as (before & Hpre & Hnil).
  exists before, (syllable_code ii mi fi), tail.
  split; [exact Htail|]. split; [|split; [exact Hnil|]].
  - assert (Hstep : composeHangul_step (s :: f :: rest) (O, [])
                    = Some (2%nat, [[syllable_code ii mi fi]])).
    { unfold composeHangul_step.
      cbn [JS.get nth_error option_map Nat.add].
      rewrite Hs, when_single, Hf.
      replace (JS.when _ isMedial) with (@None (list Z)).
      2:{ destruct rest as [|c rest]; [reflexivity|].
          cbn [next_is_medial] in Hnext. cbn [JS.get nth_error option_map].
          now rewrite when_single, Hnext. }
      rewrite Hd.
      now rewrite (composeHangulSyllable_code ii mi fi i m [f] Hi Hm Hslot). }
    rewrite Hpre, (composeHangul_unfold _ _ _ _ Hstep).
    cbn [skipn]. rewrite Htail. reflexivity.
  - exact (decomposeHangul_code ii mi fi i m [f] Hi Hm Hslot).
Qed.

Lemma batchim_joins_open_syllable_witness :
  exists before joined tail,
    composeHangul (utf16 "피ㄴ") = Some tail
    /\ composeHangul (utf16 "a" ++ utf16 "보ㄴ피ㄴ")
       = Some (before ++ joined :: tail)
    /\ (utf16 "a" = [] -> before = [])
    /\ decomposeHangul [joined]
       = Some (mkJamo (Some (utf16 "ㅂ")) (Some (utf16 "ㅗ"))
                 (Some (utf16 "ㄴ"))).
Proof.
  apply (batchim_joins_open_syllable 48372 12610 12631 12596
           (utf16 "a") (utf16 "피ㄴ")); reflexivity.
Defined.

(** X5. A precomposed syllable is emitted unchanged, and the scan goes on
    with the character after it, in the two cases in which a following
    final jamo is not its batchim: the jamo is followed by a medial (it
    opens the next syllable), or the syllable already has a final. *)
Theorem syllable_keeps_its_shape (s f : Z) (pre rest : str) :
  isHangulSyllable [s] = true ->
  isFinal [f] = true ->
  next_is_medial rest = true
  \/ (exists d, decomposeHangul [s] = Some d /\ final d <> Some []) ->
  exists before tail,
    composeHangul (f :: rest) = Some tail
    /\ composeHangul (pre ++ s :: f :: rest) = Some (before ++ s :: tail)
    /\ (pre = [] -> before = []).
Proof.
  intros Hs Hf Hcase.
  destruct (syllable_solid s Hs) as (Hsm & Hsf).
  destruct (composeHangul_total (f :: rest)) as (tail & Htail).
  destruct (composeHangul_reaches_solid s (f :: rest) Hsm Hsf pre)
    as (before & Hpre & Hnil).
  exists before, tail. split; [exact Htail|]. split; [|exact Hnil].
  assert (Hstep : composeHangul_step (s :: f :: rest) (O, [])
                  = Some (1%nat, [[s]])).
  { unfold composeHangul_step.
    cbn [JS.get nth_error option_map Nat.add].
    rewrite Hs, when_single, Hf.
    destruct Hcase as [Hnext|(d & Hd & Hfinal)].
    - destruct rest as [|c rest]; [discriminate|].
      cbn [next_is_medial] in Hnext. cbn [JS.get nth_error option_map].
      now rewrite when_single, Hnext.
    - rewrite Hd. destruct d as [di dm [[|? ?]|]]; cbn [final] in Hfinal;
        try contradiction; split_matches; reflexivity. }
  rewrite Hpre, (composeHangul_unfold _ _ _ _ Hstep).
  cbn [skipn]. rewrite Htail. reflexivity.
Qed.

Lemma syllable_keeps_its_shape_witness :
  exists before tail,
    composeHangul (utf16 "ㄴ") = Some tail
    /\ composeHangul (utf16 "a" ++ utf16 "본ㄴ")
       = Some (before ++ 48376 :: tail)
    /\ (utf16 "a" = [] -> before = []).
Proof.
  apply (syllable_keeps_its_shape 48376 12596 (utf16 "a") []).
  - reflexivity.
  - reflexivity.
  - right. eexists. split; [vm_compute; reflexivity|]. cbn. discriminate.
Defined.

(** *** Length of the composed text *)

Lemma when_get (o : option Z) (p : str -> bool) (x : str) :
  JS.when (option_map (fun c => [c]) o) p = Some x ->
  exists c, x = [c] /\ p [c] = true.
Proof.
  destruct o as [c|]; [|discriminate]. cbn [option_map].
  rewrite when_single. destruct (p [c]) eqn:Hp; [|discriminate].
  intros [= <-]. eauto.
Qed.

Lemma compose_unit (i m : Z) (final : str) :
  In i INITIALS -> In m MEDIALS ->
  final = [] \/ (exists f, final = [f] /\ isFinal [f] = true) ->
  exists u,
    composeHangulSyllable [i] [m] final = [u] /\ isHangulSyllable [u] = true.
Proof.
  intros Hi Hm Hf.
  apply In_nth_error in Hi as (ii & Hi). apply In_nth_error in Hm as (mi & Hm).
  assert (Hslot : exists fi, final_slot fi final).
  { destruct Hf as [->|(f & -> & Hf)]; [now exists O|].
    apply isFinal_In in Hf as [Hin Hnz].
    apply In_nth_error in Hin as (fi & Hfi).
    exists fi. destruct fi as [|fi]; cbn [final_slot]; [|eauto].
    destruct (FINALS_position _ _ Hfi) as (_ & _ & Hz & _).
    exfalso. apply Hnz, Hz. reflexivity. }
  destruct Hslot as (fi & Hslot).
  rewrite (composeHangulSyllable_code ii mi fi i m final Hi Hm Hslot).
  eexists. split; [reflexivity|].
  destruct (INITIALS_position _ _ Hi) as (_ & Hb1 & _).
  destruct (MEDIALS_position _ _ Hm) as (_ & Hb2 & _).
  destruct (final_slot_index _ _ Hslot) as (_ & Hb3).
  apply isHangulSyllable_range. unfold syllable_code, HANGUL_BASE. lia.
Qed.

Lemma decompose_shape (s : Z) (di dm : str) (fin : option str) :
  decomposeHangul [s] = Some (mkJamo (Some di) (Some dm) fin) ->
  exists i m, di = [i] /\ dm = [m] /\ In i INITIALS /\ In m MEDIALS.
Proof.
  unfold decomposeHangul. cbn [JS.charCodeAt0 nth_error].
  destruct (_ || _); [discriminate|]. unfold JS.get. intros [= Hi Hm _].
  destruct (nth_error INITIALS _) as [ci|] eqn:Ei; [|discriminate].
  destruct (nth_error MEDIALS _) as [cm|] eqn:Em; [|discriminate].
  injection Hi as <-. injection Hm as <-.
  exists ci, cm. repeat split; eapply nth_error_In; eassumption.
Qed.

(** Every iteration of the composition scan appends exactly one code unit:
    the character under the cursor, or a composed syllable. *)
Lemma composeHangul_step_emits_unit (text : str) (i i' : nat)
    (acc out : list str) :
  composeHangul_step text (i, acc) = Some (i', out) ->
  exists u,
    out = acc ++ [[u]]
    /\ (nth_error text i = Some u \/ isHangulSyllable [u] = true).
Proof.
  unfold composeHangul_step, JS.get.
  destruct (nth_error text i) as [c|]; [|discriminate]. cbn [option_map].
  intros [= H]. revert H. unfold push.
  destruct (isHangulSyllable [c]).
  - destruct (JS.when _ isFinal) as [nextChar|] eqn:Hn;
      [|intros [= _ <-]; eauto].
    destruct (JS.when _ isMedial); [intros [= _ <-]; eauto|].
    destruct (decomposeHangul [c]) as [[[di|] [dm|] [[|? ?]|]]|] eqn:Hd;
      try (intros [= _ <-]; solve [eauto]).
    apply when_get in Hn as (f & -> & Hf).
    destruct (decompose_shape _ _ _ _ Hd) as (ci & cm & -> & -> & Hi & Hm).
    destruct (compose_unit ci cm [f] Hi Hm) as (u & -> & Hu); [right; eauto|].
    intros [= _ <-]. eauto.
  - destruct (isInitial [c]) eqn:Hi; [|intros [= _ <-]; eauto].
    apply isInitial_In in Hi.
    destruct (JS.when _ isMedial) as [nextChar|] eqn:Hn;
      [|intros [= _ <-]; eauto].
    apply when_get in Hn as (m & -> & Hm). apply isMedial_In in Hm.
    destruct (JS.when _ isFinal) as [thirdChar|] eqn:Ht.
    + apply when_get in Ht as (f & -> & Hf).
      destruct (JS.when _ isMedial).
      * destruct (compose_unit c m [] Hi Hm) as (u & -> & Hu); [now left|].
        intros [= _ <-]. eauto.
      * destruct (compose_unit c m [f] Hi Hm) as (u & -> & Hu);
          [right; eauto|].
        intros [= _ <-]. eauto.
    + destruct (compose_unit c m [] Hi Hm) as (u & -> & Hu); [now left|].
      intros [= _ <-]. eauto.
Qed.

(** X6. [composeHangul] never makes a text longer: every iteration
    consumes one to three code units and emits exactly one. *)
Theorem composeHangul_never_longer (text : str) :
  exists out, composeHangul text = Some out /\ (length out <= length text)%nat.
Proof.
  remember (length text) as len eqn:Hlen. revert text Hlen.
  induction len as [len IH] using lt_wf_ind. intros text Hlen.
  destruct text as [|c s]; [exists []; split; [reflexivity|cbn; lia]|].
  destruct (composeHangul_step_advance c s) as (n & out1 & Hstep).
  destruct (composeHangul_step_emits_unit _ _ _ _ _ Hstep) as (u & -> & _).
  rewrite (composeHangul_unfold _ _ _ _ Hstep). cbn [skipn app concat].
  destruct (IH (length (skipn n s))) with (text := skipn n s)
    as (out & -> & Hle).
  - rewrite length_skipn. cbn [length] in Hlen. lia.
  - reflexivity.
  - exists (u :: out). split; [reflexivity|].
    rewrite length_skipn in Hle. cbn [length] in *. lia.
Qed.

(** *** Text that the engine leaves alone *)

Lemma tables_japanese :
  forallb (fun key => forallb (fun c => head_japanese [c]) key) WORD_MAP_KEYS
  = true
  /\ forallb (fun kv => head_japanese (fst kv)) KATAKANA_COMPOUNDS = true
  /\ forallb (fun kv => head_japanese (fst kv)) KATAKANA_SINGLE = true
  /\ forallb (fun kv => head_japanese (fst kv)) HIRAGANA_SINGLE = true
  /\ forallb (fun kv => head_japanese (fst kv)) KANJI_MAP = true
  /\ forallb (fun c => head_japanese [c]) INITIALS = true
  /\ forallb (fun c => head_japanese [c]) (tl FINALS) = true.
Proof. vm_compute. repeat split. Qed.

Lemma plain_not_japanese (c : Z) (k : str) :
  plain_or_syllable c = true -> head_japanese (c :: k) = false.
Proof.
  unfold plain_or_syllable, head_japanese. intros H.
  apply orb_true_iff in H as [H|H].
  - apply Z.ltb_lt in H. apply andb_false_iff. left. apply Z.leb_gt. lia.
  - apply andb_true_iff in H as [H1 H2]. apply Z.leb_le in H1, H2.
    apply andb_false_iff. right. apply orb_false_iff.
    split; [apply Z.ltb_ge|apply Z.ltb_ge]; lia.
Qed.

Lemma plain_not_head (c : Z) (key : str) :
  plain_or_syllable c = true -> head_japanese key = true ->
  forall rest, JS.starts_with key (c :: rest) = false.
Proof.
  intros Hc Hkey rest. destruct key as [|h key]; [discriminate|].
  cbn [JS.starts_with]. destruct (Z.eqb_spec h c) as [->|_]; [|reflexivity].
  now rewrite (plain_not_japanese c key Hc) in Hkey.
Qed.

Lemma plain_not_jamo (c : Z) :
  plain_or_syllable c = true -> isInitial [c] = false /\ isFinal [c] = false.
Proof.
  intros Hc. destruct tables_japanese as (_ & _ & _ & _ & _ & Hi & Hf).
  rewrite forallb_forall in Hi, Hf. split; apply not_true_is_false.
  - intros H. apply isInitial_In in H. specialize (Hi _ H).
    now rewrite (plain_not_japanese c [] Hc) in Hi.
  - intros H. apply isFinal_In in H as [[H0|H] Hnz]; [congruence|].
    specialize (Hf _ H). now rewrite (plain_not_japanese c [] Hc) in Hf.
Qed.

Lemma plain_key_free (t : str) :
  forallb plain_or_syllable t = true -> key_free t = true.
Proof.
  intros Ht. unfold key_free. apply forallb_forall. intros c Hc.
  rewrite forallb_forall in Ht. specialize (Ht c Hc).
  apply negb_true_iff. apply not_true_is_false. intros Hex.
  apply existsb_exists in Hex as (key & Hkey & Hex).
  apply existsb_exists in Hex as (h & Hh & Heq). apply Z.eqb_eq in Heq. subst h.
  destruct tables_japanese as (Hall & _).
  rewrite forallb_forall in Hall. specialize (Hall _ Hkey).
  rewrite forallb_forall in Hall. specialize (Hall _ Hh).
  now rewrite (plain_not_japanese c [] Ht) in Hall.
Qed.

Lemma match_compound_plain (table : list (str * str)) (c : Z) (rest : str) :
  forallb (fun kv => head_japanese (fst kv)) table = true ->
  plain_or_syllable c = true ->
  match_compound table (c :: rest) 0 = None.
Proof.
  intros Hall Hc.
  induction table as [|[pattern hangul] table IH]; [reflexivity|].
  cbn [forallb fst] in Hall. apply andb_true_iff in Hall as [Hkey Hall].
  cbn [match_compound].
  destruct (JS.str_eqb _ pattern) eqn:Heq; [|exact (IH Hall)].
  apply str_eqb_eq in Heq. unfold JS.substring in Heq.
  destruct pattern as [|p pat]; [discriminate|].
  cbn [length Nat.add Nat.sub skipn firstn] in Heq. injection Heq as -> _.
  now rewrite (plain_not_japanese p pat Hc) in Hkey.
Qed.

Lemma prop_plain (table : list (str * str)) (c : Z) :
  forallb (fun kv => head_japanese (fst kv)) table = true ->
  plain_or_syllable c = true ->
  JS.prop table [c] = None.
Proof.
  intros Hall Hc.
  induction table as [|[k v] table IH]; [reflexivity|].
  cbn [forallb fst] in Hall. apply andb_true_iff in Hall as [Hkey Hall].
  cbn [JS.prop]. rewrite (IH Hall).
  destruct (JS.str_eqb k [c]) eqn:Heq; [|reflexivity].
  apply str_eqb_eq in Heq. subst k.
  now rewrite (plain_not_japanese c [] Hc) in Hkey.
Qed.

Lemma dictionary_pass_plain (text : str) :
  forallb plain_or_syllable text = true -> dictionary_pass text = text.
Proof.
  intros Ht.
  pose proof (dictionary_pass_between text [] [] (plain_key_free _ Ht) eq_refl)
    as H.
  assert (Hnil : dictionary_pass [] = []) by (vm_compute; reflexivity).
  rewrite Hnil in H. cbn [app] in H. now rewrite !app_nil_r in H.
Qed.

Lemma phonetic_pass_plain (text : str) :
  forallb plain_or_syllable text = true -> phonetic_pass text = Some text.
Proof.
  destruct tables_japanese as (_ & Hkc & Hks & Hhs & Hkj & _).
  induction text as [|c rest IH]; [reflexivity|].
  cbn [forallb]. intros H. apply andb_true_iff in H as [Hc Hrest].
  assert (Hstep : phonetic_step (c :: rest) (O, []) = Some (1%nat, [c])).
  { unfold phonetic_step. cbn [JS.get nth_error option_map Nat.add].
    rewrite (match_compound_plain _ c rest Hkc Hc).
    rewrite (prop_plain _ c Hks Hc), (prop_plain _ c Hhs Hc),
      (prop_plain _ c Hkj Hc).
    cbn [JS.truthy].
    destruct (JS.str_eqb [c] PROLONGED) eqn:Heq; [|reflexivity].
    apply str_eqb_eq in Heq. injection Heq as ->. discriminate. }
  rewrite (phonetic_unfold _ _ _ _ Hstep). cbn [skipn].
  now rewrite (IH Hrest).
Qed.

Lemma composeHangul_plain (text : str) :
  forallb plain_or_syllable text = true -> composeHangul text = Some text.
Proof.
  induction text as [|c rest IH]; [reflexivity|].
  cbn [forallb]. intros H. apply andb_true_iff in H as [Hc Hrest].
  destruct (plain_not_jamo c Hc) as (Hci & _).
  assert (Hstep : composeHangul_step (c :: rest) (O, [])
                  = Some (1%nat, [[c]])).
  { unfold composeHangul_step. cbn [JS.get nth_error option_map Nat.add].
    rewrite Hci.
    replace (JS.when _ isFinal) with (@None (list Z));
      [now destruct (isHangulSyllable [c])|].
    destruct rest as [|c' rest']; [reflexivity|].
    cbn [forallb] in Hrest. apply andb_true_iff in Hrest as [Hc' _].
    destruct (plain_not_jamo c' Hc') as (_ & Hf).
    cbn [JS.get nth_error option_map]. now rewrite when_single, Hf. }
  rewrite (composeHangul_unfold _ _ _ _ Hstep). cbn [skipn].
  now rewrite (IH Hrest).
Qed.

Lemma WORD_MAP_values_plain_or_syllable (key : str) :
  In key WORD_MAP_KEYS ->
  forallb plain_or_syllable (JS.to_string (JS.prop WORD_MAP key)) = true.
Proof.
  assert (Hall : forallb
            (fun k => forallb plain_or_syllable
                        (JS.to_string (JS.prop WORD_MAP k)))
            WORD_MAP_KEYS = true) by (vm_compute; reflexivity).
  intros Hin. rewrite forallb_forall in Hall. exact (Hall _ Hin).
Qed.

(** X7. Text made only of precomposed Hangul syllables and of characters
    below U+3000 (ASCII, Latin, general punctuation) is returned
    unchanged: already-Korean text is a fixed point of the engine. *)
Theorem transliterate_fixes_korean_text (text : str) :
  forallb plain_or_syllable text = true ->
  transliterate text ko = Some text.
Proof.
  intros Ht. unfold transliterate. destruct text as [|c rest]; [reflexivity|].
  rewrite (dictionary_pass_plain _ Ht), (phonetic_pass_plain _ Ht).
  exact (composeHangul_plain _ Ht).
Qed.

Lemma transliterate_fixes_korean_text_witness :
  transliterate (utf16 "풋살 2025 (신주쿠)") ko = Some (utf16 "풋살 2025 (신주쿠)").
Proof.
  apply (transliterate_fixes_korean_text (utf16 "풋살 2025 (신주쿠)")).
  reflexivity.
Defined.

(** X8. A dictionary key that stands alone, or between Korean or ASCII
    text, is rendered as its dictionary value by the whole engine, and the
    text around it is unchanged: the later stages do not touch the value. *)
Theorem transliterate_dictionary_entry (key pre post : str) :
  In key WORD_MAP_KEYS ->
  forallb plain_or_syllable pre = true ->
  forallb plain_or_syllable post = true ->
  transliterate (pre ++ key ++ post) ko
  = Some (pre ++ JS.to_string (JS.prop WORD_MAP key) ++ post).
Proof.
  intros Hkey Hpre Hpost.
  pose proof (WORD_MAP_KEYS_nonempty key Hkey) as Hne.
  unfold transliterate.
  destruct (pre ++ key ++ post) as [|c rest] eqn:Htext.
  { apply app_eq_nil in Htext as [_ Htext].
    apply app_eq_nil in Htext as [Htext _]. contradiction. }
  rewrite <- Htext.
  rewrite (dictionary_pass_between pre key post
             (plain_key_free _ Hpre) (plain_key_free _ Hpost)).
  rewrite (dictionary_pass_key key Hkey).
  assert (Hall : forallb plain_or_syllable
                   (pre ++ JS.to_string (JS.prop WORD_MAP key) ++ post) = true).
  { rewrite !forallb_app, Hpre, Hpost.
    now rewrite (WORD_MAP_values_plain_or_syllable key Hkey). }
  rewrite (phonetic_pass_plain _ Hall).
  exact (composeHangul_plain _ Hall).
Qed.

Lemma transliterate_dictionary_entry_witness :
  transliterate (utf16 "12:00 " ++ utf16 "渋谷駅" ++ utf16 " 풋살") ko
  = Some (utf16 "12:00 " ++ JS.to_string (JS.prop WORD_MAP (utf16 "渋谷駅"))
          ++ utf16 " 풋살").
Proof.
  apply (transliterate_dictionary_entry
           (utf16 "渋谷駅") (utf16 "12:00 ") (utf16 " 풋살")).
  - apply existsb_str_In. vm_compute. reflexivity.
  - reflexivity.
  - reflexivity.
Defined.

(** *** The phonetic scan, character by character *)

Lemma phonetic_step_single (c : Z) (rest : str) :
  match_compound KATAKANA_COMPOUNDS (c :: rest) 0 = None ->
  phonetic_step (c :: rest) (O, []) = Some (1%nat, phonetic_char c).
Proof.
  intros Hnone. unfold phonetic_step, phonetic_char.
  cbn [JS.get nth_error option_map Nat.add]. rewrite Hnone.
  split_matches; reflexivity.
Qed.

(** X9. Where no katakana compound pattern occurs, the phonetic stage works
    character by character: the prolonged-sound mark is dropped, a key of
    the katakana, hiragana or kanji table with a non-empty value is
    replaced by that value (the tables tried in this order), and any other
    character is kept. *)
Theorem phonetic_pass_characterwise (text : str) :
  no_compound text = true ->
  phonetic_pass text = Some (flat_map phonetic_char text).
Proof.
  induction text as [|c rest IH]; [reflexivity|].
  cbn [no_compound].
  destruct (match_compound KATAKANA_COMPOUNDS (c :: rest) 0) eqn:Hm;
    [discriminate|].
  intros Hrest.
  rewrite (phonetic_unfold _ _ _ _ (phonetic_step_single c rest Hm)).
  cbn [skipn flat_map]. now rewrite (IH Hrest).
Qed.

Lemma phonetic_pass_characterwise_witness :
  phonetic_pass (utf16 "らーめん屋 7") = Some (flat_map phonetic_char (utf16 "らーめん屋 7")).
Proof.
  apply (phonetic_pass_characterwise (utf16 "らーめん屋 7")). reflexivity.
Defined.

Example ramen_ya :
  flat_map phonetic_char (utf16 "らーめん屋 7") = utf16 "라메ㄴ옥 7".
Proof. vm_compute. reflexivity. Qed.

(** *** What the engine never leaves behind *)

Lemma prop_In (table : list (str * str)) (key v : str) :
  JS.prop table key = Some v -> In (key, v) table.
Proof.
  induction table as [|[k w] table IH]; [discriminate|].
  cbn [JS.prop]. destruct (JS.prop table key) as [v'|].
  - intros [= ->]. right. now apply IH.
  - destruct (JS.str_eqb k key) eqn:Heq; [|discriminate].
    apply str_eqb_eq in Heq. intros [= ->]. subst. now left.
Qed.

Lemma table_values_unmapped :
  let clean (table : list (str * str)) :=
    forallb (fun kv => forallb (fun c => negb (phonetic_mapped c)) (snd kv))
      table in
  clean KATAKANA_COMPOUNDS = true /\ clean KATAKANA_SINGLE = true
  /\ clean HIRAGANA_SINGLE = true /\ clean KANJI_MAP = true.
Proof. vm_compute. repeat split. Qed.

Lemma value_unmapped (table : list (str * str)) (key v : str) :
  forallb (fun kv => forallb (fun c => negb (phonetic_mapped c)) (snd kv))
    table = true ->
  In (key, v) table ->
  forallb (fun c => negb (phonetic_mapped c)) v = true.
Proof.
  intros Hall Hin. rewrite forallb_forall in Hall. exact (Hall _ Hin).
Qed.

Lemma truthy_value_unmapped (table : list (str * str)) (c : Z) :
  forallb (fun kv => forallb (fun c => negb (phonetic_mapped c)) (snd kv))
    table = true ->
  JS.truthy (JS.prop table [c]) = true ->
  forallb (fun c => negb (phonetic_mapped c)) (JS.to_string (JS.prop table [c]))
  = true.
Proof.
  intros Hall. destruct (JS.prop table [c]) as [v|] eqn:Hp; [|discriminate].
  intros _. exact (value_unmapped _ _ _ Hall (prop_In _ _ _ Hp)).
Qed.

Lemma phonetic_step_unmapped (c : Z) (rest : str) (n : nat) (out : str) :
  phonetic_step (c :: rest) (O, []) = Some (n, out) ->
  forallb (fun c => negb (phonetic_mapped c)) out = true.
Proof.
  destruct table_values_unmapped as (Hkc & Hks & Hhs & Hkj).
  unfold phonetic_step. cbn [JS.get nth_error option_map Nat.add].
  destruct (match_compound KATAKANA_COMPOUNDS (c :: rest) 0)
    as [[pattern hangul]|] eqn:Hm.
  - intros [= _ <-]. apply match_compound_In in Hm as [Hin _].
    exact (value_unmapped _ _ _ Hkc Hin).
  - destruct (JS.str_eqb [c] PROLONGED) eqn:H0; [intros [= _ <-]; reflexivity|].
    destruct (JS.truthy (JS.prop KATAKANA_SINGLE [c])) eqn:H1;
      [intros [= _ <-]; rewrite ?app_nil_l;
       exact (truthy_value_unmapped _ c Hks H1)|].
    destruct (JS.truthy (JS.prop HIRAGANA_SINGLE [c])) eqn:H2;
      [intros [= _ <-]; rewrite ?app_nil_l;
       exact (truthy_value_unmapped _ c Hhs H2)|].
    destruct (JS.truthy (JS.prop KANJI_MAP [c])) eqn:H3;
      [intros [= _ <-]; rewrite ?app_nil_l;
       exact (truthy_value_unmapped _ c Hkj H3)|].
    intros [= _ <-]. rewrite ?app_nil_l. cbn [forallb]. unfold phonetic_mapped.
    now rewrite H0, H1, H2, H3.
Qed.

Lemma phonetic_pass_unmapped (text : str) :
  exists out,
    phonetic_pass text = Some out
    /\ forallb (fun c => negb (phonetic_mapped c)) out = true.
Proof.
  remember (length text) as len eqn:Hlen. revert text Hlen.
  induction len as [len IH] using lt_wf_ind. intros text Hlen.
  destruct text as [|c s]; [exists []; split; reflexivity|].
  destruct (phonetic_step_advance c s) as (n & out1 & Hstep).
  pose proof (phonetic_step_unmapped _ _ _ _ Hstep) as Hout1.
  rewrite (phonetic_unfold _ _ _ _ Hstep). cbn [skipn].
  destruct (IH (length (skipn n s))) with (text := skipn n s)
    as (out & -> & Hout).
  - rewrite length_skipn. cbn [length] in Hlen. lia.
  - reflexivity.
  - exists (out1 ++ out). split; [reflexivity|].
    now rewrite forallb_app, Hout1, Hout.
Qed.

Lemma syllable_unmapped (u : Z) :
  isHangulSyllable [u] = true -> phonetic_mapped u = false.
Proof.
  intros Hu. apply isHangulSyllable_range in Hu.
  assert (Hp : plain_or_syllable u = true).
  { unfold plain_or_syllable. apply orb_true_iff. right.
    apply andb_true_iff. split; apply Z.leb_le; lia. }
  destruct tables_japanese as (_ & _ & Hks & Hhs & Hkj & _).
  unfold phonetic_mapped.
  rewrite (prop_plain _ u Hks Hp), (prop_plain _ u Hhs Hp),
    (prop_plain _ u Hkj Hp).
  cbn [JS.truthy orb].
  destruct (JS.str_eqb [u] PROLONGED) eqn:Heq; [|reflexivity].
  apply str_eqb_eq in Heq. injection Heq as ->. lia.
Qed.

Lemma forallb_skipn {A} (p : A -> bool) (n : nat) (l : list A) :
  forallb p l = true -> forallb p (skipn n l) = true.
Proof.
  revert l. induction n as [|n IH]; intros l H; [exact H|].
  destruct l as [|x l]; [reflexivity|]. cbn [skipn].
  cbn [forallb] in H. apply andb_true_iff in H as [_ H]. now apply IH.
Qed.

Lemma composeHangul_unmapped (text : str) :
  forallb (fun c => negb (phonetic_mapped c)) text = true ->
  exists out,
    composeHangul text = Some out
    /\ forallb (fun c => negb (phonetic_mapped c)) out = true.
Proof.
  remember (length text) as len eqn:Hlen. revert text Hlen.
  induction len as [len IH] using lt_wf_ind. intros text Hlen Hall.
  destruct text as [|c s]; [exists []; split; reflexivity|].
  destruct (composeHangul_step_advance c s) as (n & out1 & Hstep).
  destruct (composeHangul_step_emits_unit _ _ _ _ _ Hstep) as (u & -> & Hu).
  rewrite (composeHangul_unfold _ _ _ _ Hstep). cbn [skipn app concat].
  destruct (IH (length (skipn n s))) with (text := skipn n s)
    as (out & -> & Hout).
  - rewrite length_skipn. cbn [length] in Hlen. lia.
  - reflexivity.
  - apply forallb_skipn. cbn [forallb] in Hall.
    now apply andb_true_iff in Hall as [_ Hall].
  - exists (u :: out). split; [reflexivity|].
    cbn [forallb]. rewrite Hout, andb_true_r.
    destruct Hu as [[= <-]|Hu].
    + cbn [forallb] in Hall. now apply andb_true_iff in Hall as [Hall _].
    + now rewrite (syllable_unmapped u Hu).
Qed.

(** X10. The output of [transliterate(x, "ko")] never contains the
    prolonged-sound mark, nor a character that has a non-empty entry in the
    katakana, hiragana or kanji table: every such character of the input
    has been rewritten. *)
Theorem transliterate_leaves_nothing_mapped (x : str) :
  exists out,
    transliterate x ko = Some out
    /\ forallb (fun c => negb (phonetic_mapped c)) out = true.
Proof.
  unfold transliterate. destruct x as [|c s]; [exists []; split; reflexivity|].
  destruct (phonetic_pass_unmapped (dictionary_pass (c :: s)))
    as (mid & -> & Hmid).
  exact (composeHangul_unmapped mid Hmid).
Qed.

(** *** Keys that are left after the dictionary pass *)

Lemma indexOf_from_sign (pat : str) :
  forall s pos pos', 0 <= pos -> 0 <= pos' ->
    (0 <=? JS.indexOf_from pat s pos) = (0 <=? JS.indexOf_from pat s pos').
Proof.
  induction s as [|x s IH]; intros pos pos' Hpos Hpos'; cbn [JS.indexOf_from].
  - destruct (JS.starts_with pat []); [|reflexivity].
    transitivity true; [|symmetry]; apply Z.leb_le; lia.
  - destruct (JS.starts_with pat (x :: s)).
    + transitivity true; [|symmetry]; apply Z.leb_le; lia.
    + apply IH; lia.
Qed.

Lemma includes_cons (pat : str) (c : Z) (s : str) :
  JS.includes (c :: s) pat = JS.starts_with pat (c :: s) || JS.includes s pat.
Proof.
  unfold JS.includes, JS.indexOf. cbn [JS.indexOf_from].
  destruct (JS.starts_with pat (c :: s)); [reflexivity|].
  cbn [orb]. apply indexOf_from_sign; lia.
Qed.

Lemma includes_nil (pat : str) : pat <> [] -> JS.includes [] pat = false.
Proof. destruct pat; [contradiction|reflexivity]. Qed.

Lemma includes_after_apart (key rep o : str) :
  key <> [] -> apart key rep ->
  JS.includes (rep ++ o) key = JS.includes o key.
Proof.
  intros Hne. induction rep as [|r rep IH]; intros Hrep; [reflexivity|].
  cbn [app]. rewrite includes_cons.
  rewrite (starts_with_apart_head key Hne) by (apply Hrep; now left).
  apply IH. intros x Hx. apply Hrep. now right.
Qed.

(** One turn of the dictionary pass, seen from a key that shares no
    character with the replacement.  What matches at the head of the
    output matched at the head of the input: the first replacement stops
    every match of the key. *)
Lemma starts_with_scan (pat rep key : str) :
  rep <> [] -> apart key rep ->
  forall sub, incl sub key ->
  forall s, JS.starts_with sub (JS.replace_scan pat rep 0 s) = true ->
            JS.starts_with sub s = true.
Proof.
  intros Hrep Hap.
  induction sub as [|p sub IH]; intros Hsub s; [now destruct s|].
  destruct s as [|c s]; [intros H; exact H|].
  cbn [JS.replace_scan].
  destruct (JS.starts_with pat (c :: s)).
  - destruct rep as [|r rep']; [contradiction|].
    cbn [app JS.starts_with].
    destruct (Z.eqb_spec p r) as [->|_]; [|discriminate].
    exfalso. apply (Hap r); [now left|]. apply Hsub. now left.
  - cbn [JS.starts_with]. intros H. apply andb_true_iff in H as [Hp H].
    rewrite Hp. cbn [andb]. apply IH; [|exact H].
    intros y Hy. apply Hsub. now right.
Qed.

(** A turn creates no occurrence of the key. *)
Lemma turn_creates_no_occurrence (pat rep key : str) :
  rep <> [] -> key <> [] -> apart key rep ->
  forall s skip,
    JS.includes s key = false ->
    JS.includes (JS.replace_scan pat rep skip s) key = false.
Proof.
  intros Hrep Hkey Hap.
  induction s as [|c s IH]; intros skip Hno; [exact Hno|].
  rewrite includes_cons in Hno. apply orb_false_iff in Hno as [Hhead Htail].
  cbn [JS.replace_scan]. destruct skip as [|skip]; [|now apply IH].
  destruct (JS.starts_with pat (c :: s)).
  - rewrite (includes_after_apart key rep _ Hkey Hap). now apply IH.
  - rewrite includes_cons, (IH O Htail), orb_false_r.
    apply not_true_is_false. intros H.
    pose proof (starts_with_scan pat rep key Hrep Hap) as Hscan.
    destruct key as [|p key']; [contradiction|].
    cbn [JS.starts_with] in H, Hhead.
    apply andb_true_iff in H as [Hp H]. rewrite Hp in Hhead. cbn [andb] in Hhead.
    rewrite (Hscan key') in Hhead; [discriminate| |exact H].
    intros y Hy. now right.
Qed.

(** A turn with a non-empty replacement that shares no character with the
    pattern removes every occurrence of the pattern. *)
Lemma turn_removes_pattern (pat rep : str) :
  pat <> [] -> rep <> [] -> apart pat rep ->
  forall s skip, JS.includes (JS.replace_scan pat rep skip s) pat = false.
Proof.
  intros Hpat Hrep Hap.
  induction s as [|c s IH]; intros skip; [now apply includes_nil|].
  cbn [JS.replace_scan]. destruct skip as [|skip]; [|apply IH].
  destruct (JS.starts_with pat (c :: s)) eqn:Hhead.
  - rewrite (includes_after_apart pat rep _ Hpat Hap). apply IH.
  - rewrite includes_cons, (IH O), orb_false_r.
    apply not_true_is_false. intros H.
    destruct pat as [|p pat'] eqn:Ep; [contradiction|].
    cbn [JS.starts_with] in H, Hhead.
    apply andb_true_iff in H as [Hp H]. rewrite Hp in Hhead. cbn [andb] in Hhead.
    rewrite (starts_with_scan (p :: pat') rep (p :: pat') Hrep Hap pat')
      in Hhead; [discriminate| |exact H].
    intros y Hy. now right.
Qed.

(** The keys with an empty replacement are the two copula endings. *)
Lemma empty_values :
  forallb
    (fun k => negb (JS.str_eqb (JS.to_string (JS.prop WORD_MAP k)) [])
              || JS.str_eqb k (utf16 "です") || JS.str_eqb k (utf16 "ます"))
    WORD_MAP_KEYS = true.
Proof. vm_compute. reflexivity. Qed.

Lemma apply_keys_clean (todo : list str) :
  incl todo WORD_MAP_KEYS ->
  forall (clean : list str) (s : str),
    incl clean WORD_MAP_KEYS ->
    (forall k, In k clean -> JS.includes s k = false) ->
    (forall k, In k todo -> JS.to_string (JS.prop WORD_MAP k) = [] ->
               In k clean) ->
    forall k, In k clean \/ In k todo ->
              JS.includes (fold_left apply_key todo s) k = false.
Proof.
  induction todo as [|k0 todo IH]; intros Htodo clean s Hclean Hs Hempty k Hk.
  - cbn [fold_left]. destruct Hk as [Hk|[]]. now apply Hs.
  - cbn [fold_left].
    assert (Hk0 : In k0 WORD_MAP_KEYS) by (apply Htodo; now left).
    pose proof (WORD_MAP_KEYS_nonempty k0 Hk0) as Hne0.
    apply (IH (fun x Hx => Htodo x (or_intror Hx)) (k0 :: clean)).
    + intros x [<-|Hx]; [exact Hk0|now apply Hclean].
    + intros x Hx.
      destruct (list_eq_dec Z.eq_dec (JS.to_string (JS.prop WORD_MAP k0)) [])
        as [Hval|Hval].
      * (* an empty replacement: the key does not occur, nothing changes *)
        assert (Hin0 : In k0 clean) by (apply Hempty; [now left|exact Hval]).
        unfold apply_key. rewrite (Hs k0 Hin0).
        destruct Hx as [<-|Hx]; [now apply Hs|now apply Hs].
      * rewrite apply_key_replace, replaceAll_scan by assumption.
        pose proof (WORD_MAP_values_key_free k0 Hk0) as Hfree.
        destruct Hx as [<-|Hx].
        -- apply turn_removes_pattern; [assumption..|].
           now apply key_free_apart.
        -- assert (Hx' : In x WORD_MAP_KEYS) by now apply Hclean.
           apply turn_creates_no_occurrence;
             [assumption|now apply WORD_MAP_KEYS_nonempty| |now apply Hs].
           now apply key_free_apart.
    + intros x Hx Hval. right. apply Hempty; [now right|exact Hval].
    + destruct Hk as [Hk|[<-|Hk]]; [left; now right|left; now left|now right].
Qed.

Lemma dictionary_pass_clean (text : str) :
  JS.includes text (utf16 "です") = false ->
  JS.includes text (utf16 "ます") = false ->
  forall key, In key WORD_MAP_KEYS ->
              JS.includes (dictionary_pass text) key = false.
Proof.
  intros Hdesu Hmasu key Hkey. unfold dictionary_pass.
  apply (apply_keys_clean WORD_MAP_KEYS (incl_refl _)
           [utf16 "です"; utf16 "ます"]).
  - intros x [<-|[<-|[]]]; apply existsb_str_In; vm_compute; reflexivity.
  - intros x [<-|[<-|[]]]; assumption.
  - intros x Hx Hval. pose proof empty_values as Hall.
    rewrite forallb_forall in Hall. specialize (Hall x Hx).
    rewrite Hval in Hall. cbn [JS.str_eqb negb orb] in Hall.
    replace (JS.str_eqb [] []) with true in Hall by reflexivity.
    cbn [negb orb] in Hall. apply orb_true_iff in Hall as [H|H];
      apply str_eqb_eq in H; subst x; [now left|right; now left].
  - now right.
Qed.

(** X11. Unless the input contains one of the two copula endings that
    the dictionary deletes, no dictionary key occurs in the output of the
    dictionary pass: each key is replaced everywhere in its turn, and no
    later turn can bring it back. *)
Theorem dictionary_pass_leaves_no_key (text key : str) :
  JS.includes text (utf16 "です") = false ->
  JS.includes text (utf16 "ます") = false ->
  In key WORD_MAP_KEYS ->
  JS.includes (dictionary_pass text) key = false.
Proof. intros Hdesu Hmasu. exact (dictionary_pass_clean text Hdesu Hmasu key). Qed.

Lemma dictionary_pass_leaves_no_key_witness :
  JS.includes (dictionary_pass (utf16 "新宿駅から東京駅直結")) (utf16 "東京") = false.
Proof.
  apply (dictionary_pass_leaves_no_key (utf16 "新宿駅から東京駅直結") (utf16 "東京")).
  - vm_compute. reflexivity.
  - vm_compute. reflexivity.
  - apply existsb_str_In. vm_compute. reflexivity.
Defined.

(** X12. Unless the input contains one of the two copula endings that
    the dictionary deletes, the dictionary pass is idempotent: a second
    pass finds nothing to replace. *)
Theorem dictionary_pass_idempotent (text : str) :
  JS.includes text (utf16 "です") = false ->
  JS.includes text (utf16 "ます") = false ->
  dictionary_pass (dictionary_pass text) = dictionary_pass text.
Proof.
  intros Hdesu Hmasu. unfold dictionary_pass at 1.
  apply apply_keys_absent. apply forallb_forall. intros k Hk.
  apply negb_true_iff. exact (dictionary_pass_clean text Hdesu Hmasu k Hk).
Qed.

Lemma dictionary_pass_idempotent_witness :
  dictionary_pass (dictionary_pass (utf16 "新宿駅から東京駅直結"))
  = dictionary_pass (utf16 "新宿駅から東京駅直結").
Proof.
  apply (dictionary_pass_idempotent (utf16 "新宿駅から東京駅直結"));
    vm_compute; reflexivity.
Defined.

(** *** Composition is idempotent *)












(** * The pages *)

(** ** The dashboard's content translation *)

Lemma page_entries :
  JSPage.entries Dashboard.PREFECTURE_MAP = Dashboard.PREFECTURE_MAP
  /\ JSPage.entries Dashboard.KEYWORDS = Dashboard.KEYWORDS
  /\ JSPage.entries Dashboard.statusMap = Dashboard.statusMap.
Proof. vm_compute. repeat split. Qed.

Lemma page_keys_japanese :
  forallb (fun e => negb (JS.str_eqb (fst e) [])
                    && forallb (fun c => negb (plain_or_syllable c)) (fst e))
          (Dashboard.PREFECTURE_MAP ++ Dashboard.KEYWORDS) = true.
Proof. vm_compute. reflexivity. Qed.

Lemma page_values_plain :
  forallb (fun e => forallb plain_or_syllable (snd e))
          (Dashboard.PREFECTURE_MAP ++ Dashboard.KEYWORDS) = true.
Proof. vm_compute. reflexivity. Qed.

Lemma page_key_apart (entry : str * str) (t : str) :
  In entry (Dashboard.PREFECTURE_MAP ++ Dashboard.KEYWORDS) ->
  forallb plain_or_syllable t = true ->
  fst entry <> [] /\ apart (fst entry) t.
Proof.
  intros Hin Ht. pose proof page_keys_japanese as Hall.
  rewrite forallb_forall in Hall. specialize (Hall _ Hin).
  apply andb_true_iff in Hall as [Hne Hall]. split.
  - intros Hnil. rewrite Hnil in Hne. discriminate.
  - intros c Hc Hk. rewrite forallb_forall in Ht, Hall.
    specialize (Ht _ Hc). specialize (Hall _ Hk). now rewrite Ht in Hall.
Qed.

Lemma replaceAll_absent (s pat rep : str) :
  pat <> [] -> JS.includes s pat = false -> JS.replaceAll s pat rep = s.
Proof.
  intros Hpat Hno. rewrite (replaceAll_scan s pat rep Hpat).
  apply (no_match_replace pat rep s 0); [lia|].
  unfold JS.includes, JS.indexOf in Hno. apply Z.leb_gt in Hno. exact Hno.
Qed.

Lemma replace_pass_between (entries : list (str * str)) (pre post : str) :
  (forall e, In e entries ->
     fst e <> [] /\ apart (fst e) pre /\ apart (fst e) post) ->
  forall s,
    fold_left Dashboard.replace_entry entries (pre ++ s ++ post)
    = pre ++ fold_left Dashboard.replace_entry entries s ++ post.
Proof.
  induction entries as [|e entries IH]; intros Hall s; [reflexivity|].
  cbn [fold_left]. unfold Dashboard.replace_entry at 2 4.
  destruct (Hall e (or_introl eq_refl)) as (Hne & Hpre & Hpost).
  rewrite (replaceAll_between (fst e) (snd e) Hne pre s post Hpre Hpost).
  apply IH. intros e' He'. apply Hall. now right.
Qed.

Lemma replace_pass_absent (entries : list (str * str)) (s : str) :
  (forall e, In e entries -> fst e <> []) ->
  forallb (fun e => negb (JS.includes s (fst e))) entries = true ->
  fold_left Dashboard.replace_entry entries s = s.
Proof.
  induction entries as [|e entries IH]; intros Hne Hall; [reflexivity|].
  cbn [forallb] in Hall. apply andb_true_iff in Hall as [He Hall].
  apply negb_true_iff in He. cbn [fold_left]. unfold Dashboard.replace_entry at 2.
  rewrite (replaceAll_absent s (fst e) (snd e) (Hne e (or_introl eq_refl)) He).
  apply IH; [|exact Hall]. intros e' He'. apply Hne. now right.
Qed.

Lemma transliterate_stages (text : str) :
  transliterate text ko
  = match phonetic_pass (dictionary_pass text) with
    | Some transliterated => composeHangul transliterated
    | None => None
    end.
Proof. destruct text; reflexivity. Qed.

Lemma page_pre_post (pre post : str) (table : list (str * str)) :
  incl table (Dashboard.PREFECTURE_MAP ++ Dashboard.KEYWORDS) ->
  forallb plain_or_syllable pre = true ->
  forallb plain_or_syllable post = true ->
  forall e, In e table ->
    fst e <> [] /\ apart (fst e) pre /\ apart (fst e) post.
Proof.
  intros Hincl Hpre Hpost e He. apply Hincl in He.
  destruct (page_key_apart e pre He Hpre) as [Hne H1].
  destruct (page_key_apart e post He Hpost) as [_ H2]. auto.
Qed.

Lemma translateContent_between (pre s post : str) :
  forallb plain_or_syllable pre = true ->
  forallb plain_or_syllable post = true ->
  Dashboard.translateContent (pre ++ s ++ post) ko
  = transliterate
      (pre ++ Dashboard.replace_entries Dashboard.KEYWORDS
                (Dashboard.replace_entries Dashboard.PREFECTURE_MAP s) ++ post)
      ko.
Proof.
  intros Hpre Hpost. unfold Dashboard.translateContent, Dashboard.replace_entries.
  destruct page_entries as (-> & -> & _).
  rewrite (replace_pass_between Dashboard.PREFECTURE_MAP pre post);
    [|apply page_pre_post; auto using incl_appl, incl_refl].
  rewrite (replace_pass_between Dashboard.KEYWORDS pre post);
    [|apply page_pre_post; auto using incl_appr, incl_refl].
  reflexivity.
Qed.

Lemma transliterate_all_plain (pre v post : str) :
  forallb plain_or_syllable pre = true ->
  forallb plain_or_syllable v = true ->
  forallb plain_or_syllable post = true ->
  transliterate (pre ++ v ++ post) ko = Some (pre ++ v ++ post).
Proof.
  intros Hpre Hv Hpost.
  assert (Hall : forallb plain_or_syllable (pre ++ v ++ post) = true)
    by now rewrite !forallb_app, Hpre, Hv, Hpost.
  rewrite transliterate_stages, (dictionary_pass_plain _ Hall),
    (phonetic_pass_plain _ Hall).
  exact (composeHangul_plain _ Hall).
Qed.

(** X13. The dashboard renders every prefecture name of [PREFECTURE_MAP]
    as its table value: a key that stands alone, or between Korean or ASCII
    text, comes out of [translateContent] as its value, with the text
    around it unchanged.  Neither the keyword loop nor the engine touches
    the value afterwards. *)
Theorem prefecture_rendered (key value pre post : str) :
  In (key, value) Dashboard.PREFECTURE_MAP ->
  forallb plain_or_syllable pre = true ->
  forallb plain_or_syllable post = true ->
  Dashboard.translateContent (pre ++ key ++ post) ko
  = Some (pre ++ value ++ post).
Proof.
  intros Hin Hpre Hpost. rewrite (translateContent_between pre key post Hpre Hpost).
  assert (Hmid : forallb
            (fun e => JS.str_eqb
                        (Dashboard.replace_entries Dashboard.KEYWORDS
                           (Dashboard.replace_entries Dashboard.PREFECTURE_MAP
                              (fst e)))
                        (snd e))
            Dashboard.PREFECTURE_MAP = true) by (vm_compute; reflexivity).
  rewrite forallb_forall in Hmid. specialize (Hmid _ Hin).
  apply str_eqb_eq in Hmid. cbn [fst snd] in Hmid. rewrite Hmid.
  pose proof page_values_plain as Hv. rewrite forallb_forall in Hv.
  specialize (Hv (key, value) (in_or_app _ _ _ (or_introl Hin))).
  exact (transliterate_all_plain pre value post Hpre Hv Hpost).
Qed.

Lemma prefecture_rendered_witness :
  Dashboard.translateContent (utf16 "(" ++ utf16 "東京都" ++ utf16 ") 3F") ko
  = Some (utf16 "(" ++ utf16 "도쿄도" ++ utf16 ") 3F").
Proof.
  apply (prefecture_rendered (utf16 "東京都") (utf16 "도쿄도")
           (utf16 "(") (utf16 ") 3F")).
  - vm_compute. do 12 right. left. reflexivity.
  - reflexivity.
  - reflexivity.
Defined.

Lemma match_compound_other_head (table : list (str * str)) (c : Z) (rest : str) :
  forallb (fun kv => match fst kv with
                    | [] => false
                    | p :: _ => negb (p =? c)
                    end) table = true ->
  match_compound table (c :: rest) 0 = None.
Proof.
  intros Hall.
  induction table as [|[pattern hangul] table IH]; [reflexivity|].
  cbn [forallb fst] in Hall. apply andb_true_iff in Hall as [Hkey Hall].
  cbn [match_compound].
  destruct (JS.str_eqb _ pattern) eqn:Heq; [|exact (IH Hall)].
  apply str_eqb_eq in Heq. unfold JS.substring in Heq.
  destruct pattern as [|p pat]; [discriminate|].
  cbn [length Nat.add Nat.sub skipn firstn] in Heq. injection Heq as -> _.
  now rewrite Z.eqb_refl in Hkey.
Qed.

Lemma phonetic_pass_plain_prefix (pre s : str) :
  forallb plain_or_syllable pre = true ->
  phonetic_pass (pre ++ s) = option_map (app pre) (phonetic_pass s).
Proof.
  destruct tables_japanese as (_ & Hkc & _).
  induction pre as [|c pre IH];
    [intros _; cbn [app]; now destruct (phonetic_pass s)|].
  cbn [forallb app]. intros H. apply andb_true_iff in H as [Hc Hpre].
  pose proof (phonetic_step_single c (pre ++ s)
                (match_compound_plain _ c _ Hkc Hc)) as Hstep.
  rewrite (phonetic_unfold _ _ _ _ Hstep). cbn [skipn].
  rewrite (IH Hpre). destruct (phonetic_pass s) as [out|]; [|reflexivity].
  cbn [option_map]. f_equal.
  assert (Hchar : phonetic_char c = [c]).
  { pose proof (phonetic_pass_plain [c]) as H1. cbn [forallb] in H1.
    rewrite Hc in H1. specialize (H1 eq_refl).
    rewrite (phonetic_unfold c [] _ _
               (phonetic_step_single c []
                  (match_compound_plain _ c _ Hkc Hc))) in H1.
    cbn [skipn] in H1. change (phonetic_pass []) with (Some (@nil Z)) in H1.
    cbn [option_map] in H1. rewrite app_nil_r in H1. now injection H1. }
  now rewrite Hchar.
Qed.

(** X14. The same holds for every entry of [KEYWORDS].  For the key
    "完全室内" the result does not come from its own entry: the entry
    "室内" before it and the engine's kanji table produce a text that
    equals its table value. *)
Theorem keyword_rendered (key value pre post : str) :
  In (key, value) Dashboard.KEYWORDS ->
  forallb plain_or_syllable pre = true ->
  forallb plain_or_syllable post = true ->
  Dashboard.translateContent (pre ++ key ++ post) ko
  = Some (pre ++ value ++ post).
Proof.
  intros Hin Hpre Hpost. rewrite (translateContent_between pre key post Hpre Hpost).
  assert (Hmid : forallb
            (fun e =>
               let mixed :=
                 Dashboard.replace_entries Dashboard.KEYWORDS
                   (Dashboard.replace_entries Dashboard.PREFECTURE_MAP (fst e)) in
               JS.str_eqb mixed (snd e)
               || (JS.str_eqb mixed (utf16 "完全실내")
                   && JS.str_eqb (snd e) (utf16 "완전실내")))
            Dashboard.KEYWORDS = true) by (vm_compute; reflexivity).
  rewrite forallb_forall in Hmid. specialize (Hmid _ Hin).
  cbn [fst snd] in Hmid. apply orb_true_iff in Hmid as [Hmid|Hmid].
  - apply str_eqb_eq in Hmid. rewrite Hmid.
    pose proof page_values_plain as Hv. rewrite forallb_forall in Hv.
    specialize (Hv (key, value) (in_or_app _ _ _ (or_intror Hin))).
    exact (transliterate_all_plain pre value post Hpre Hv Hpost).
  - apply andb_true_iff in Hmid as [Hmid Hvalue].
    apply str_eqb_eq in Hmid, Hvalue. rewrite Hmid, Hvalue.
    rewrite transliterate_stages.
    rewrite (dictionary_pass_between pre _ post
               (plain_key_free _ Hpre) (plain_key_free _ Hpost)).
    replace (dictionary_pass (utf16 "完全실내")) with (utf16 "完全실내")
      by (vm_compute; reflexivity).
    rewrite (phonetic_pass_plain_prefix pre _ Hpre).
    change (utf16 "完全실내" ++ post)
      with (23436 :: 20840 :: utf16 "실내" ++ post).
    rewrite (phonetic_unfold _ _ _ _
               (phonetic_step_single 23436 _
                  (match_compound_other_head KATAKANA_COMPOUNDS 23436 _ eq_refl))).
    cbn [skipn].
    rewrite (phonetic_unfold _ _ _ _
               (phonetic_step_single 20840 _
                  (match_compound_other_head KATAKANA_COMPOUNDS 20840 _ eq_refl))).
    cbn [skipn].
    assert (Hrest : forallb plain_or_syllable (utf16 "실내" ++ post) = true)
      by (rewrite forallb_app, Hpost; reflexivity).
    rewrite (phonetic_pass_plain _ Hrest). cbn [option_map].
    change (phonetic_char 23436 ++ phonetic_char 20840 ++ utf16 "실내" ++ post)
      with (utf16 "완전실내" ++ post).
    apply composeHangul_plain.
    rewrite !forallb_app, Hpre, Hpost. reflexivity.
Qed.

Lemma keyword_rendered_witness :
  Dashboard.translateContent (utf16 "[" ++ utf16 "完全室内" ++ utf16 "] 20:00") ko
  = Some (utf16 "[" ++ utf16 "완전실내" ++ utf16 "] 20:00").
Proof.
  apply (keyword_rendered (utf16 "完全室内") (utf16 "완전실내")
           (utf16 "[") (utf16 "] 20:00")).
  - vm_compute. do 15 right. left. reflexivity.
  - reflexivity.
  - reflexivity.
Defined.

(** X15. On a text in which no key of [PREFECTURE_MAP] or [KEYWORDS]
    occurs, the dashboard's [translateContent] and the upload page's agree,
    in both languages: the two replacement loops of the dashboard leave the
    text as it is, and what remains is the call of [transliterate]. *)
Theorem translateContent_without_page_keys (text : str) (lang : Lang) :
  forallb (fun e => negb (JS.includes text (fst e)))
          (Dashboard.PREFECTURE_MAP ++ Dashboard.KEYWORDS) = true ->
  Dashboard.translateContent text lang = UploadPage.translateContent text lang.
Proof.
  intros Hno. unfold UploadPage.translateContent.
  destruct lang; [|now destruct text].
  unfold Dashboard.translateContent, Dashboard.replace_entries.
  destruct page_entries as (-> & -> & _).
  rewrite forallb_app in Hno. apply andb_true_iff in Hno as [Hpf Hkw].
  assert (Hne : forall table,
            incl table (Dashboard.PREFECTURE_MAP ++ Dashboard.KEYWORDS) ->
            forall e, In e table -> fst e <> []).
  { intros table Hincl e He.
    exact (proj1 (page_key_apart e [] (Hincl _ He) eq_refl)). }
  rewrite (replace_pass_absent Dashboard.PREFECTURE_MAP text
             (Hne _ (incl_appl _ (incl_refl _))) Hpf).
  now rewrite (replace_pass_absent Dashboard.KEYWORDS text
                 (Hne _ (incl_appr _ (incl_refl _))) Hkw).
Qed.

Lemma translateContent_without_page_keys_witness :
  Dashboard.translateContent (utf16 "ラーメン 7") ko
  = UploadPage.translateContent (utf16 "ラーメン 7") ko.
Proof.
  apply (translateContent_without_page_keys (utf16 "ラーメン 7") ko).
  vm_compute. reflexivity.
Defined.

Lemma includes_inside (pat a b : str) :
  pat <> [] ->
  forall s, JS.includes s pat = false -> JS.includes s (a ++ pat ++ b) = false.
Proof.
  intros Hpat.
  assert (Hstart : forall a s, JS.starts_with (a ++ pat ++ b) s = true ->
                     JS.includes s pat = true).
  { clear a. induction a as [|x a IH]; intros s H.
    - cbn [app] in H. destruct s as [|c s].
      + destruct pat; [contradiction|discriminate].
      + rewrite includes_cons. apply orb_true_iff. left.
        revert H. generalize (c :: s). clear -b.
        induction pat as [|p pat IH]; intros s H; [reflexivity|].
        destruct s as [|c s]; [discriminate|].
        cbn [app JS.starts_with] in *. apply andb_true_iff in H as [-> H].
        cbn [andb]. exact (IH _ H).
    - destruct s as [|c s]; [discriminate|].
      cbn [app JS.starts_with] in H. apply andb_true_iff in H as [_ H].
      rewrite includes_cons. apply orb_true_iff. right. exact (IH _ H). }
  induction s as [|c s IH]; intros Hno.
  - apply includes_nil. destruct a; [destruct pat; [contradiction|]|]; discriminate.
  - rewrite includes_cons in *. apply orb_false_iff in Hno as [Hh Hno].
    rewrite (IH Hno), orb_false_r. apply not_true_is_false. intros H.
    apply Hstart in H. rewrite includes_cons, Hh, Hno in H. discriminate.
Qed.

(** X16. The [KEYWORDS] entry "完全室内" is never applied.  Its turn comes
    right after that of "室内", of which no occurrence is left by then, so
    the longer key cannot match: for every text the keyword loop gives the
    same result as it would with the entry deleted. *)
Theorem keyword_shadowed (text : str) :
  Dashboard.replace_entries Dashboard.KEYWORDS text
  = Dashboard.replace_entries
      (filter (fun e => negb (JS.str_eqb (fst e) (utf16 "完全室内")))
              Dashboard.KEYWORDS)
      text.
Proof.
  unfold Dashboard.replace_entries.
  assert (Hsplit : exists before after,
            JSPage.entries Dashboard.KEYWORDS
            = before ++ [(utf16 "室内", utf16 "실내");
                         (utf16 "完全室内", utf16 "완전실내")] ++ after
            /\ JSPage.entries
                 (filter (fun e => negb (JS.str_eqb (fst e) (utf16 "完全室内")))
                         Dashboard.KEYWORDS)
               = before ++ [(utf16 "室内", utf16 "실내")] ++ after).
  { exists (firstn 14 Dashboard.KEYWORDS), (skipn 16 Dashboard.KEYWORDS).
    vm_compute. split; reflexivity. }
  destruct Hsplit as (before & after & -> & ->).
  rewrite !fold_left_app. f_equal. cbn [fold_left].
  set (s := fold_left Dashboard.replace_entry before text).
  unfold Dashboard.replace_entry at 1. cbn [fst snd].
  apply replaceAll_absent; [discriminate|].
  apply (includes_inside (utf16 "室内") (utf16 "完全") []); [discriminate|].
  unfold Dashboard.replace_entry. cbn [fst snd].
  rewrite replaceAll_scan by discriminate.
  apply turn_removes_pattern; [discriminate|discriminate|].
  intros c Hc Hin. vm_compute in Hc, Hin.
  repeat (destruct Hc as [<-|Hc]; [intuition discriminate|]). exact Hc.
Qed.

(** ** The status labels *)

(** X17. The dashboard's [translateStatus] is idempotent: a translated
    label holds no key of [statusMap], so translating it again returns
    it. *)
Theorem dashboard_translateStatus_idempotent (status : str) (lang : Lang) :
  Dashboard.translateStatus (Dashboard.translateStatus status lang) lang
  = Dashboard.translateStatus status lang.
Proof.
  destruct lang; [|reflexivity]. unfold Dashboard.translateStatus.
  destruct page_entries as (_ & _ & ->).
  destruct (find (fun entry => JS.includes status (fst entry))
                 Dashboard.statusMap) as [[key val]|] eqn:Hfind.
  - apply find_some in Hfind as [Hin _].
    assert (Hvalues : forallb
              (fun e => match find (fun entry => JS.includes (snd e) (fst entry))
                                   Dashboard.statusMap with
                        | None => true
                        | Some _ => false
                        end)
              Dashboard.statusMap = true) by (vm_compute; reflexivity).
    rewrite forallb_forall in Hvalues. specialize (Hvalues _ Hin).
    cbn [snd] in Hvalues.
    now destruct (find (fun entry => JS.includes val (fst entry))
                       Dashboard.statusMap).
  - now rewrite Hfind.
Qed.

(** X18. The upload page's [translateStatus] is idempotent: each of its
    three Korean labels holds the Korean word that its own branch tests
    for, and none that an earlier branch tests for. *)
Theorem upload_translateStatus_idempotent (status : str) (lang : Lang) :
  UploadPage.translateStatus (UploadPage.translateStatus status lang) lang
  = UploadPage.translateStatus status lang.
Proof.
  destruct lang; [|reflexivity]. unfold UploadPage.translateStatus.
  destruct (JS.includes status (utf16 "受付け") || JS.includes status (utf16 "접수"))
    eqn:H1; [vm_compute; reflexivity|].
  destruct (JS.includes status (utf16 "キャンセル") || JS.includes status (utf16 "대기"))
    eqn:H2; [vm_compute; reflexivity|].
  destruct (JS.includes status (utf16 "中止") || JS.includes status (utf16 "취소"))
    eqn:H3; [vm_compute; reflexivity|].
  now rewrite H1, H2, H3.
Qed.

(** ** Reading a line of CSV *)

Lemma join_cons (x : str) (arr : list str) (sep : str) :
  arr <> [] -> JSPage.join (x :: arr) sep = x ++ sep ++ JSPage.join arr sep.
Proof. destruct arr; [contradiction|reflexivity]. Qed.

Lemma join_snoc (arr : list str) (x sep : str) :
  arr <> [] -> JSPage.join (arr ++ [x]) sep = JSPage.join arr sep ++ sep ++ x.
Proof.
  induction arr as [|y arr IH]; [contradiction|]. intros _.
  destruct arr as [|z arr]; [reflexivity|].
  change ((y :: z :: arr) ++ [x]) with (y :: (z :: arr) ++ [x]).
  rewrite join_cons by discriminate. rewrite IH by discriminate.
  rewrite (join_cons y (z :: arr)) by discriminate.
  now rewrite <- !app_assoc.
Qed.

Lemma join_last_app (values : list str) (currentVal x sep : str) :
  JSPage.join (values ++ [currentVal ++ x]) sep
  = JSPage.join (values ++ [currentVal]) sep ++ x.
Proof.
  destruct values as [|v values]; [reflexivity|].
  rewrite !join_snoc by discriminate. now rewrite <- !app_assoc.
Qed.

Lemma parseCSV_scan_join (line : str) :
  forall (values : list str) (inQuote : bool) (currentVal : str),
    let '(values', _, currentVal') :=
      fold_left UploadPage.parseCSV_char line (values, inQuote, currentVal) in
    JSPage.join (values' ++ [currentVal']) [COMMA]
    = JSPage.join (values ++ [currentVal]) [COMMA] ++ without_quotes line.
Proof.
  induction line as [|c line IH]; intros values inQuote currentVal.
  - cbn [fold_left without_quotes filter]. now rewrite app_nil_r.
  - cbn [fold_left]. unfold UploadPage.parseCSV_char at 2.
    cbn [without_quotes filter]. fold (without_quotes line).
    destruct (c =? QUOTE) eqn:Hq; cbn [negb]; [apply IH|].
    destruct ((c =? COMMA) && negb inQuote) eqn:Hc.
    + apply andb_true_iff in Hc as [Hc _]. apply Z.eqb_eq in Hc. subst c.
      specialize (IH (values ++ [currentVal]) inQuote []).
      destruct (fold_left _ line _) as [[values' q] currentVal'].
      rewrite IH, join_snoc by (now destruct values).
      now rewrite <- !app_assoc.
    + specialize (IH values inQuote (currentVal ++ [c])).
      destruct (fold_left _ line _) as [[values' q] currentVal'].
      rewrite IH, join_last_app. now rewrite <- app_assoc.
Qed.

Lemma parseCSV_scan_quote_free (line : str) :
  forall (values : list str) (inQuote : bool) (currentVal : str),
    Forall (fun v => ~ In QUOTE v) (values ++ [currentVal]) ->
    let '(values', _, currentVal') :=
      fold_left UploadPage.parseCSV_char line (values, inQuote, currentVal) in
    Forall (fun v => ~ In QUOTE v) (values' ++ [currentVal']).
Proof.
  induction line as [|c line IH]; intros values inQuote currentVal Hall;
    [exact Hall|].
  cbn [fold_left]. unfold UploadPage.parseCSV_char at 2.
  destruct (c =? QUOTE) eqn:Hq; [now apply IH|].
  apply Z.eqb_neq in Hq.
  destruct ((c =? COMMA) && negb inQuote).
  - apply IH. apply Forall_app. split; [exact Hall|].
    constructor; [intros []|constructor].
  - apply IH. apply Forall_app in Hall as [Hvalues Hcur].
    apply Forall_app. split; [exact Hvalues|].
    constructor; [|constructor]. apply Forall_inv in Hcur.
    intros Hin. apply in_app_or in Hin as [Hin|[Heq|[]]]; [auto|congruence].
Qed.

Lemma parseCSV_values_quote_free (line : str) :
  Forall (fun v => ~ In QUOTE v) (UploadPage.parseCSV_values line).
Proof.
  unfold UploadPage.parseCSV_values.
  pose proof (parseCSV_scan_quote_free line [] false []) as H.
  destruct (fold_left _ line _) as [[values q] currentVal].
  apply H. constructor; [intros []|constructor].
Qed.

(** X19. The values read from a line hold no quotation mark, and joined
    with commas they give the line with its quotation marks deleted: the
    scan drops the quotation marks and nothing else, and the only commas it
    splits at are commas of the line. *)
Theorem parseCSV_values_join (line : str) :
  JSPage.join (UploadPage.parseCSV_values line) [COMMA] = without_quotes line
  /\ Forall (fun v => ~ In QUOTE v) (UploadPage.parseCSV_values line).
Proof.
  split; [|apply parseCSV_values_quote_free].
  unfold UploadPage.parseCSV_values.
  pose proof (parseCSV_scan_join line [] false []) as H.
  destruct (fold_left _ line _) as [[values q] currentVal]. exact H.
Qed.

Lemma trimStart_In (c : Z) (s : str) : In c (JSPage.trimStart s) -> In c s.
Proof.
  induction s as [|x s IH]; [easy|]. cbn [JSPage.trimStart].
  destruct (JSPage.is_white_space x); [|easy]. intros H. right. auto.
Qed.

Lemma trim_In (c : Z) (s : str) : In c (JSPage.trim s) -> In c s.
Proof.
  unfold JSPage.trim. intros H. apply in_rev in H.
  apply trimStart_In in H. apply in_rev in H. now apply trimStart_In in H.
Qed.

Lemma cleanup_quote_free (v : str) :
  ~ In QUOTE v ->
  JS.replaceAll (UploadPage.strip_edge_quotes (JSPage.trim v))
    [QUOTE; QUOTE] [QUOTE]
  = JSPage.trim v.
Proof.
  intros Hv.
  assert (Hw : ~ In QUOTE (JSPage.trim v)) by (intros H; now apply trim_In in H).
  set (w := JSPage.trim v) in *. clearbody w.
  assert (Hstrip : UploadPage.strip_edge_quotes w = w).
  { unfold UploadPage.strip_edge_quotes. destruct w as [|c w]; [reflexivity|].
    destruct (Z.eqb_spec c QUOTE) as [->|_]; [exfalso; apply Hw; now left|].
    destruct (rev (c :: w)) as [|c' w'] eqn:Hrev.
    - apply (f_equal (@length Z)) in Hrev. rewrite length_rev in Hrev.
      discriminate.
    - destruct (Z.eqb_spec c' QUOTE) as [->|_]; [|reflexivity].
      exfalso. apply Hw. apply in_rev. rewrite Hrev. now left. }
  rewrite Hstrip. apply replaceAll_absent; [discriminate|].
  now apply includes_head_absent.
Qed.

(** X20. The quote clean-up of [cleanValues] never changes a value: the
    scan has already dropped every quotation mark, so [cleanValues] is the
    list of the values trimmed. *)
Theorem parseCSV_cleanup_only_trims (line : str) :
  UploadPage.parseCSV_cleanValues line
  = map JSPage.trim (UploadPage.parseCSV_values line).
Proof.
  unfold UploadPage.parseCSV_cleanValues. apply map_ext_in. intros v Hv.
  apply cleanup_quote_free.
  pose proof (parseCSV_values_quote_free line) as Hall.
  rewrite Forall_forall in Hall. exact (Hall _ Hv).
Qed.

Lemma scan_quoted_inside (field : str) :
  forall (values : list str) (currentVal : str),
    fold_left UploadPage.parseCSV_char
      (JS.replace_scan [QUOTE] [QUOTE; QUOTE] 0 field) (values, true, currentVal)
    = (values, true, currentVal ++ without_quotes field).
Proof.
  induction field as [|c field IH]; intros values currentVal.
  - cbn. now rewrite app_nil_r.
  - cbn [JS.replace_scan JS.starts_with length Nat.sub without_quotes filter].
    fold (without_quotes field). rewrite (Z.eqb_sym QUOTE c), andb_true_r.
    destruct (c =? QUOTE) eqn:Hq; cbn [negb app fold_left].
    + unfold UploadPage.parseCSV_char at 2 3. cbn [Z.eqb QUOTE negb].
      apply IH.
    + unfold UploadPage.parseCSV_char at 2. rewrite Hq, andb_false_r.
      rewrite IH. now rewrite <- app_assoc.
Qed.

Lemma scan_raw (field : str) :
  ~ In QUOTE field -> ~ In COMMA field ->
  forall (values : list str) (inQuote : bool) (currentVal : str),
    fold_left UploadPage.parseCSV_char field (values, inQuote, currentVal)
    = (values, inQuote, currentVal ++ field).
Proof.
  induction field as [|c field IH]; intros Hq Hc values inQuote currentVal.
  - cbn. now rewrite app_nil_r.
  - cbn [fold_left]. unfold UploadPage.parseCSV_char at 2.
    destruct (Z.eqb_spec c QUOTE) as [->|_]; [exfalso; apply Hq; now left|].
    destruct (Z.eqb_spec c COMMA) as [->|_]; [exfalso; apply Hc; now left|].
    cbn [andb]. rewrite IH; [now rewrite <- app_assoc| |];
      intros H; [apply Hq|apply Hc]; now right.
Qed.

Lemma without_quotes_free (field : str) :
  ~ In QUOTE field -> without_quotes field = field.
Proof.
  induction field as [|c field IH]; [reflexivity|]. intros H.
  cbn [without_quotes filter]. fold (without_quotes field).
  destruct (Z.eqb_spec c QUOTE) as [->|_]; [exfalso; apply H; now left|].
  cbn [negb]. rewrite IH; [reflexivity|]. intros H'. apply H. now right.
Qed.

Lemma scan_exported_cell (cell field : str) :
  exported_cell cell field ->
  forall (values : list str) (currentVal : str),
    fold_left UploadPage.parseCSV_char cell (values, false, currentVal)
    = (values, false, currentVal ++ without_quotes field).
Proof.
  intros [->|(-> & Hq & Hc)] values currentVal.
  - unfold Dashboard.csv_quoted.
    rewrite replaceAll_scan by discriminate.
    rewrite !fold_left_app. cbn [fold_left].
    change (UploadPage.parseCSV_char (values, false, currentVal) QUOTE)
      with (values, true, currentVal).
    rewrite scan_quoted_inside. reflexivity.
  - rewrite (without_quotes_free field Hq). now apply scan_raw.
Qed.

Lemma scan_exported_row (cells fields : list str) :
  Forall2 exported_cell cells fields -> cells <> [] ->
  forall values : list str,
    (let '(values', _, currentVal) :=
       fold_left UploadPage.parseCSV_char (JSPage.join cells [COMMA])
         (values, false, []) in
     values' ++ [currentVal])
    = values ++ map without_quotes fields.
Proof.
  induction 1 as [|cell field cells fields Hcell Hrest IH]; [contradiction|].
  intros _ values. destruct Hrest as [|cell' field' cells fields Hcell' Hrest].
  - cbn [JSPage.join map]. now rewrite (scan_exported_cell cell field Hcell).
  - rewrite join_cons by discriminate. rewrite !fold_left_app.
    rewrite (scan_exported_cell cell field Hcell). cbn [fold_left app].
    change (UploadPage.parseCSV_char (values, false, without_quotes field) COMMA)
      with (values ++ [without_quotes field], false, @nil Z).
    rewrite IH by discriminate. cbn [map]. now rewrite <- app_assoc.
Qed.

(** X21. A row written by [downloadCSV] is read back cell for cell: a
    quoted cell, commas inside it included, and an unquoted cell free of
    commas and quotation marks come back as the original value, trimmed
    and without its quotation marks.  The quotation marks that the export
    doubled are not restored. *)
Theorem exported_row_parsed (cells fields : list str) :
  Forall2 exported_cell cells fields -> cells <> [] ->
  UploadPage.parseCSV_cleanValues (JSPage.join cells [COMMA])
  = map (fun field => JSPage.trim (without_quotes field)) fields.
Proof.
  intros Hcells Hne.
  pose proof (parseCSV_values_quote_free (JSPage.join cells [COMMA])) as Hfree.
  unfold UploadPage.parseCSV_cleanValues.
  assert (Hvalues : UploadPage.parseCSV_values (JSPage.join cells [COMMA])
                    = map without_quotes fields).
  { unfold UploadPage.parseCSV_values.
    exact (scan_exported_row cells fields Hcells Hne []). }
  rewrite Hvalues in *. rewrite map_map. apply map_ext_in. intros field Hfield.
  apply cleanup_quote_free. rewrite Forall_forall in Hfree.
  apply Hfree. now apply in_map.
Qed.

Lemma exported_row_parsed_witness :
  UploadPage.parseCSV_cleanValues
    (JSPage.join
       [utf16 "ev-1";
        Dashboard.csv_quoted
          (utf16 "Cup " ++ [QUOTE] ++ utf16 "A" ++ [QUOTE] ++ utf16 ", final");
        utf16 "12"]
       [COMMA])
  = map (fun field => JSPage.trim (without_quotes field))
      [utf16 "ev-1";
       utf16 "Cup " ++ [QUOTE] ++ utf16 "A" ++ [QUOTE] ++ utf16 ", final";
       utf16 "12"].
Proof.
  apply (exported_row_parsed
           [utf16 "ev-1";
            Dashboard.csv_quoted
              (utf16 "Cup " ++ [QUOTE] ++ utf16 "A" ++ [QUOTE] ++ utf16 ", final");
            utf16 "12"]
           [utf16 "ev-1";
            utf16 "Cup " ++ [QUOTE] ++ utf16 "A" ++ [QUOTE] ++ utf16 ", final";
            utf16 "12"]).
  - constructor; [right; split; [reflexivity|split; vm_compute; intuition discriminate]|].
    constructor; [left; reflexivity|].
    constructor; [right; split; [reflexivity|split; vm_compute; intuition discriminate]|].
    constructor.
  - discriminate.
Defined.

Example exported_title_read_back :
  UploadPage.parseCSV_cleanValues
    (JSPage.join
       [utf16 "ev-1";
        Dashboard.csv_quoted
          (utf16 "Cup " ++ [QUOTE] ++ utf16 "A" ++ [QUOTE] ++ utf16 ", final");
        utf16 "12"]
       [COMMA])
  = [utf16 "ev-1"; utf16 "Cup A, final"; utf16 "12"].
Proof. vm_compute. reflexivity. Qed.

Lemma split_app_sep (line rest : str) (sep : Z) :
  ~ In sep line ->
  JSPage.split (line ++ sep :: rest) sep = line :: JSPage.split rest sep.
Proof.
  induction line as [|c line IH]; intros Hno.
  - cbn [app JSPage.split]. now rewrite Z.eqb_refl.
  - cbn [app JSPage.split].
    destruct (Z.eqb_spec c sep) as [->|_]; [exfalso; apply Hno; now left|].
    rewrite IH; [reflexivity|]. intros H. apply Hno. now right.
Qed.

Lemma split_no_sep (line : str) (sep : Z) :
  ~ In sep line -> JSPage.split line sep = [line].
Proof.
  induction line as [|c line IH]; intros Hno; [reflexivity|].
  cbn [JSPage.split].
  destruct (Z.eqb_spec c sep) as [->|_]; [exfalso; apply Hno; now left|].
  rewrite IH; [reflexivity|]. intros H. apply Hno. now right.
Qed.

Lemma split_join (lines : list str) (sep : Z) :
  lines <> [] -> Forall (fun line => ~ In sep line) lines ->
  JSPage.split (JSPage.join lines [sep]) sep = lines.
Proof.
  induction lines as [|line lines IH]; [contradiction|]. intros _ Hall.
  apply Forall_cons_iff in Hall as [Hline Hall].
  destruct lines as [|line' lines]; [now apply split_no_sep|].
  rewrite join_cons by discriminate. cbn [app].
  rewrite (split_app_sep line _ sep Hline). f_equal.
  apply IH; [discriminate|exact Hall].
Qed.

Lemma In_join (c : Z) (arr : list str) (sep : str) :
  In c (JSPage.join arr sep) -> In c sep \/ exists x, In x arr /\ In c x.
Proof.
  induction arr as [|x arr IH]; [intros []|].
  destruct arr as [|y arr].
  - intros H. right. exists x. split; [now left|exact H].
  - rewrite join_cons by discriminate. intros H.
    apply in_app_or in H as [H|H]; [right; exists x; split; [now left|exact H]|].
    apply in_app_or in H as [H|H]; [now left|].
    destruct (IH H) as [Hs|(z & Hz & Hc)]; [now left|].
    right. exists z. split; [now right|exact Hc].
Qed.

Lemma In_escaped (c : Z) (field : str) :
  In c (JS.replace_scan [QUOTE] [QUOTE; QUOTE] 0 field) ->
  c = QUOTE \/ In c field.
Proof.
  induction field as [|x field IH]; [intros []|].
  cbn [JS.replace_scan JS.starts_with length Nat.sub].
  destruct ((QUOTE =? x) && true).
  - cbn [app]. intros [H|[H|H]]; [now left|now left|].
    destruct (IH H) as [H'|H']; [now left|right; now right].
  - intros [H|H]; [right; now left|].
    destruct (IH H) as [H'|H']; [now left|right; now right].
Qed.

Lemma exported_cell_line (cell field : str) :
  exported_cell cell field -> ~ In NEWLINE field -> ~ In NEWLINE cell.
Proof.
  intros [->|(-> & _)] Hfield; [|exact Hfield].
  unfold Dashboard.csv_quoted. rewrite replaceAll_scan by discriminate.
  intros H. cbn [app] in H. destruct H as [H|H]; [discriminate|].
  apply in_app_or in H as [H|[H|[]]]; [|discriminate].
  apply In_escaped in H as [H|H]; [discriminate|contradiction].
Qed.

Lemma exported_row_line (row fields : list str) :
  exported_row row fields -> ~ In NEWLINE (JSPage.join row [COMMA]).
Proof.
  intros (Hcells & _ & Hfields) H.
  apply In_join in H as [[H|[]]|(cell & Hcell & H)]; [discriminate|].
  revert Hfields cell Hcell H.
  induction Hcells as [|cell' field row fields Hc Hrest IH];
    intros Hfields cell Hcell H; [destruct Hcell|].
  apply Forall_cons_iff in Hfields as [Hfield Hfields].
  destruct Hcell as [->|Hcell]; [|exact (IH Hfields cell Hcell H)].
  exact (exported_cell_line cell field Hc Hfield H).
Qed.

Lemma trimStart_keeps (c : Z) (s : str) :
  JSPage.is_white_space c = false -> In c s -> In c (JSPage.trimStart s).
Proof.
  intros Hc. induction s as [|x s IH]; [easy|]. cbn [JSPage.trimStart].
  destruct (JSPage.is_white_space x) eqn:Hx; [|easy].
  intros [->|H]; [congruence|auto].
Qed.

Lemma trim_keeps (c : Z) (s : str) :
  JSPage.is_white_space c = false -> In c s -> In c (JSPage.trim s).
Proof.
  intros Hc H. unfold JSPage.trim. apply -> in_rev.
  apply (trimStart_keeps c _ Hc). apply -> in_rev.
  exact (trimStart_keeps c _ Hc H).
Qed.

Lemma exported_row_not_blank (row fields : list str) :
  exported_row row fields ->
  negb (JS.str_eqb (JSPage.trim (JSPage.join row [COMMA])) []) = true.
Proof.
  intros (_ & Hlen & _). apply negb_true_iff. apply not_true_is_false.
  intros H. apply str_eqb_eq in H.
  assert (Hin : In COMMA (JSPage.join row [COMMA])).
  { destruct row as [|x [|y row]]; cbn [length] in Hlen; [lia|lia|].
    rewrite join_cons by discriminate. apply in_or_app. right. now left. }
  apply (trim_keeps COMMA _ eq_refl) in Hin. rewrite H in Hin. destruct Hin.
Qed.

Lemma filter_all {A} (p : A -> bool) (l : list A) :
  Forall (fun x => p x = true) l -> filter p l = l.
Proof.
  induction 1 as [|x l Hx _ IH]; [reflexivity|].
  cbn [filter]. now rewrite Hx, IH.
Qed.

(** X22. A whole export is read back row for row: after the header line
    [parseCSV] finds one line for each exported row, drops none of them as
    blank, and reads each cell as the original value trimmed and without
    its quotation marks, provided no value holds a line break. *)
Theorem exported_file_parsed (rows records : list (list str)) :
  rows <> [] -> Forall2 exported_row rows records ->
  UploadPage.parseCSV_rows (Dashboard.csvContent rows)
  = Some (map (map (fun field => JSPage.trim (without_quotes field))) records).
Proof.
  intros Hne Hrows.
  set (lines := map (fun row => JSPage.join row [COMMA]) rows).
  assert (Hlines : UploadPage.parseCSV_lines (Dashboard.csvContent rows)
                   = JSPage.join Dashboard.headers [COMMA] :: lines).
  { unfold UploadPage.parseCSV_lines, Dashboard.csvContent. fold lines.
    rewrite split_join; [|discriminate|].
    - apply filter_all. constructor; [vm_compute; reflexivity|].
      subst lines. clear Hne.
      induction Hrows as [|row fields rows records Hrow _ IH];
        constructor; [|exact IH].
      exact (exported_row_not_blank row fields Hrow).
    - constructor; [vm_compute; intuition discriminate|].
      subst lines. clear Hne.
      induction Hrows as [|row fields rows records Hrow _ IH];
        constructor; [|exact IH].
      exact (exported_row_line row fields Hrow). }
  unfold UploadPage.parseCSV_rows. rewrite Hlines. cbn [length tl].
  replace (S (length lines) <? 2)%nat with false.
  2:{ symmetry. apply Nat.ltb_ge. subst lines. rewrite length_map.
      destruct rows; [contradiction|cbn [length]; lia]. }
  f_equal. subst lines. rewrite map_map. clear Hne Hlines.
  induction Hrows as [|row fields rows records Hrow _ IH]; [reflexivity|].
  cbn [map]. rewrite IH. f_equal.
  destruct Hrow as (Hcells & Hlen & _).
  pose proof (parseCSV_values_quote_free (JSPage.join row [COMMA])) as Hfree.
  unfold UploadPage.parseCSV_cleanValues.
  assert (Hvalues : UploadPage.parseCSV_values (JSPage.join row [COMMA])
                    = map without_quotes fields).
  { unfold UploadPage.parseCSV_values.
    assert (Hrow : row <> [])
      by (destruct row; [cbn [length] in Hlen; lia|discriminate]).
    exact (scan_exported_row row fields Hcells Hrow []). }
  rewrite Hvalues in *. rewrite map_map. apply map_ext_in. intros field Hfield.
  apply cleanup_quote_free. rewrite Forall_forall in Hfree.
  apply Hfree. now apply in_map.
Qed.

Lemma exported_file_parsed_witness :
  UploadPage.parseCSV_rows
    (Dashboard.csvContent
       [[utf16 "ev-1"; Dashboard.csv_quoted (utf16 "Cup, final"); utf16 "12"];
        [utf16 "ev-2"; Dashboard.csv_quoted (utf16 "풋살"); utf16 "8"]])
  = Some (map (map (fun field => JSPage.trim (without_quotes field)))
            [[utf16 "ev-1"; utf16 "Cup, final"; utf16 "12"];
             [utf16 "ev-2"; utf16 "풋살"; utf16 "8"]]).
Proof.
  apply (exported_file_parsed
           [[utf16 "ev-1"; Dashboard.csv_quoted (utf16 "Cup, final"); utf16 "12"];
            [utf16 "ev-2"; Dashboard.csv_quoted (utf16 "풋살"); utf16 "8"]]
           [[utf16 "ev-1"; utf16 "Cup, final"; utf16 "12"];
            [utf16 "ev-2"; utf16 "풋살"; utf16 "8"]]).
  - discriminate.
  - constructor; [|constructor; [|constructor]].
    + split; [|split; [cbn [length]; lia|]].
      * constructor; [right; split; [reflexivity|split; vm_compute; intuition discriminate]|].
        constructor; [left; reflexivity|].
        constructor; [right; split; [reflexivity|split; vm_compute; intuition discriminate]|].
        constructor.
      * repeat constructor; vm_compute; intuition discriminate.
    + split; [|split; [cbn [length]; lia|]].
      * constructor; [right; split; [reflexivity|split; vm_compute; intuition discriminate]|].
        constructor; [left; reflexivity|].
        constructor; [right; split; [reflexivity|split; vm_compute; intuition discriminate]|].
        constructor.
      * repeat constructor; vm_compute; intuition discriminate.
Defined.
